(** * BQL front-end of SensorBee: grammar, parse stack and struct decoder

    The development follows the repository:
    - [Ast]      : the components that live on the parse stack;
    - [Stack]    : the parse stack and its assemble operations;
    - [Peg]      : the rules of bql.peg, written with PEG combinators;
    - [Decode]   : decodeInt of data/decode.go. *)

From Stdlib Require Import String Ascii Bool Arith NArith ZArith Lia List.
From Stdlib Require Import SpecFloat.
Import ListNotations.


Set Implicit Arguments.
Set Warnings "-register-all".

(** ** Runes and text

    The generated parser works on [[]rune(buffer)]; [begin] and [end] are
    indexes into that rune array (see the note in bql.peg above the basic
    building blocks). *)

Definition rune := N.
Definition text := list rune.

Definition runes (s : string) : text :=
  map N_of_ascii (list_ascii_of_string s).

Definition rune_of (a : ascii) : rune := N_of_ascii a.

(** ** Components *)

Module Ast.

Inductive Operator :=
| Or | And | Equal | Less | LessOrEqual | Greater | GreaterOrEqual
| NotEqual | Plus | Minus | Multiply | Divide | Modulo.

Inductive Emitter := Istream | Dstream | Rstream.

Inductive RangeUnit := Tuples | Seconds.

(** Modelled from the spec: the component types of the parser package
    (their declarations are outside this development; the grammar actions
    and the parse stack test name them).  A Go [interface{}] payload is one
    closed sum, one constructor per leaf token and per composite node of
    section 4.3; an optional clause carries its own absent/present
    discriminant. *)
Inductive Component :=
| Raw (Expr : text)
| Op (o : Operator)
| Emit (e : Emitter)
| Unit_ (u : RangeUnit)
| Relation (Name : text)
| ColumnName (Name : text)
| FuncName (Name : text)
| SourceSinkName (Name : text)
| SourceSinkType (Name : text)
| SourceSinkParamKey (Name : text)
| SourceSinkParamVal (Name : text)
| NumericLiteral (Source : text)
| FloatLiteral (Source : text)
| StringLiteral (Value : text)
| BoolLiteral (Value : bool)
| Wildcard
| BinaryOpAST (Op : Operator) (Left Right : Component)
| FuncAppAST (Function : text) (Expressions : list Component)
| ExpressionsAST (Expressions : list Component)
| ProjectionsAST (Projections : list Component)
| EmitProjectionsAST (EmitterType : Emitter) (Projections : list Component)
| RangeAST (Source : text) (Unit : RangeUnit)
| FromAST (Relations : list Component)
| WindowedFromAST (Relations : list Component) (Range : option Component)
| FilterAST (Filter : option Component)
| GroupingAST (GroupList : list Component)
| HavingAST (Having : option Component)
| SourceSinkParamAST (Key Value : text)
| SourceSinkSpecsAST (Params : list Component)
| SelectStmt (Projections From Filter Grouping Having : Component)
| CreateStreamAsSelectStmt
    (Name : text) (EmitProjections WindowedFrom Filter Grouping Having : Component)
| CreateSourceStmt (Name Type_ : text) (Specs : Component)
| CreateSinkStmt (Name Type_ : text) (Specs : Component)
| CreateStreamFromSourceStmt (Name Source : text)
| CreateStreamFromSourceExtStmt (Name Type_ : text) (Specs : Component)
| InsertIntoSelectStmt (Sink : text) (Select : Component).

(** Modelled from the spec: an operand of a binary operation is a payload
    that is an expression (a column, a literal, a wildcard, a function
    application or a binary operation). *)
Definition isExpression (c : Component) : bool :=
  match c with
  | ColumnName _ | NumericLiteral _ | FloatLiteral _ | StringLiteral _
  | BoolLiteral _ | Wildcard | BinaryOpAST _ _ _ | FuncAppAST _ _ => true
  | _ => false
  end.

(** Modelled from the spec: the operator tags. *)
Definition isOperator (c : Component) : bool :=
  match c with Op _ => true | _ => false end.

(** Modelled from the spec: the constructors that the grammar actions
    call.  A numeric or float literal keeps the matched text (turning it
    into a number is left to the constructor, outside this development). *)
Definition NewRelation (s : text) : Component := Relation s.
Definition NewColumnName (s : text) : Component := ColumnName s.
Definition NewNumericLiteral (s : text) : Component := NumericLiteral s.
Definition NewFloatLiteral (s : text) : Component := FloatLiteral s.
Definition NewBoolLiteral (b : bool) : Component := BoolLiteral b.
Definition NewWildcard : Component := Wildcard.

Definition quote : rune := 39%N.

(** Modelled from the spec: [strings.Replace(s, "''", "'", -1)], every
    embedded [''] read left to right becomes one quote. *)
Fixpoint unescape (s : text) : text :=
  match s with
  | a :: ((b :: s') as t) =>
      if (a =? quote)%N && (b =? quote)%N then quote :: unescape s'
      else a :: unescape t
  | _ => s
  end.

(** Modelled from the spec: NewStringLiteral, which is handed the matched
    text with its delimiters; the value has the delimiters removed and each
    embedded [''] replaced by a single quote. *)
Definition NewStringLiteral (s : text) : Component :=
  StringLiteral (unescape (removelast (tl s))).

End Ast.

Import Ast.

(** ** The parse stack *)

Module Stack.

Record ParsedComponent := mkPC { begin : nat; end_ : nat; comp : Component }.

(** The top of the stack is the head of the list. *)
Definition parseStack := list ParsedComponent.

Definition PushComponent (b e : nat) (c : Component) (ps : parseStack)
  : parseStack := mkPC b e c :: ps.

Definition Len (ps : parseStack) : nat := length ps.

Definition Peek (ps : parseStack) : option ParsedComponent := hd_error ps.

Definition Pop (ps : parseStack) : option (ParsedComponent * parseStack) :=
  match ps with
  | f :: ps' => Some (f, ps')
  | [] => None
  end.

(** What a reduction leaves behind: a stack, or the internal invariant
    violation (a Go panic) that aborts the parse. *)
Inductive outcome :=
| Done (ps : parseStack)
| InvariantViolation.

(** Modelled from the spec: the span selection of section 3, "every
    fragment whose span lies within [begin, end)".  A fragment that ends at
    or before [begin] (an empty-clause marker left at [begin] by an earlier
    sibling clause, or any earlier fragment) is not part of the span, so
    that a zero-length span selects nothing. *)
Definition inSpan (b e : nat) (f : ParsedComponent) : bool :=
  (b <=? begin f) && (end_ f <=? e) && (b <? end_ f).

(** Modelled from the spec: the selected fragments form the top-of-stack
    suffix; they are popped and handed over in left-to-right order. *)
Fixpoint collectFrom (b e : nat) (ps : parseStack) (acc : list Component)
  : list Component * parseStack :=
  match ps with
  | f :: ps' =>
      if inSpan b e f then collectFrom b e ps' (comp f :: acc) else (acc, ps)
  | [] => (acc, [])
  end.

Definition collectElements (b e : nat) (ps : parseStack)
  : list Component * parseStack := collectFrom b e ps [].

(** Modelled from the spec: the binary-operation reduction of section 4.2
    (its test is TestAssembleBinaryOperation): one fragment is pushed back
    under the target span, three fragments (operand, operator, operand)
    become one binary node, anything else is an invariant violation. *)
Definition AssembleBinaryOperation (b e : nat) (ps : parseStack) : outcome :=
  let '(elems, ps') := collectElements b e ps in
  match elems with
  | [x] => Done (PushComponent b e x ps')
  | [l; Op o; r] =>
      if isExpression l && isExpression r
      then Done (PushComponent b e (BinaryOpAST o l r) ps')
      else InvariantViolation
  | _ => InvariantViolation
  end.

(** Modelled from the spec: the variadic list reductions of section 4.2,
    N >= 1 item fragments collected in left-to-right order. *)
Definition AssembleProjections (b e : nat) (ps : parseStack) : outcome :=
  let '(elems, ps') := collectElements b e ps in
  match elems with
  | [] => InvariantViolation
  | _ => if forallb isExpression elems
         then Done (PushComponent b e (ProjectionsAST elems) ps')
         else InvariantViolation
  end.

(** Modelled from the spec: the same reduction for the parameters of a
    function application. *)
Definition AssembleExpressions (b e : nat) (ps : parseStack) : outcome :=
  let '(elems, ps') := collectElements b e ps in
  match elems with
  | [] => InvariantViolation
  | _ => if forallb isExpression elems
         then Done (PushComponent b e (ExpressionsAST elems) ps')
         else InvariantViolation
  end.

Definition isRelation (c : Component) : bool :=
  match c with Relation _ => true | _ => false end.

Definition isParam (c : Component) : bool :=
  match c with SourceSinkParamAST _ _ => true | _ => false end.

(** Modelled from the spec: the list reduction of the WITH parameters.
    The WITH list may be missing altogether (CREATE SOURCE x TYPE y), so
    this list may be empty. *)
Definition AssembleSourceSinkSpecs (b e : nat) (ps : parseStack) : outcome :=
  let '(elems, ps') := collectElements b e ps in
  if forallb isParam elems
  then Done (PushComponent b e (SourceSinkSpecsAST elems) ps')
  else InvariantViolation.

(** Modelled from the spec: the optional-clause reductions of section 4.2.
    No fragment in the span: the empty-clause marker is pushed under the
    (possibly zero-length) span; otherwise the clause's composite node. *)
Definition AssembleFrom (b e : nat) (ps : parseStack) : outcome :=
  let '(elems, ps') := collectElements b e ps in
  if forallb isRelation elems
  then Done (PushComponent b e (FromAST elems) ps')
  else InvariantViolation.

(** Modelled from the spec: a windowed FROM is its relations followed by
    their range. *)
Definition AssembleWindowedFrom (b e : nat) (ps : parseStack) : outcome :=
  let '(elems, ps') := collectElements b e ps in
  match rev elems with
  | [] => Done (PushComponent b e (WindowedFromAST [] None) ps')
  | RangeAST n u :: ((_ :: _) as rels) =>
      if forallb isRelation rels
      then Done (PushComponent b e
                   (WindowedFromAST (rev rels) (Some (RangeAST n u))) ps')
      else InvariantViolation
  | _ => InvariantViolation
  end.

(** Modelled from the spec: a WHERE clause holds one expression. *)
Definition AssembleFilter (b e : nat) (ps : parseStack) : outcome :=
  let '(elems, ps') := collectElements b e ps in
  match elems with
  | [] => Done (PushComponent b e (FilterAST None) ps')
  | [x] => if isExpression x
           then Done (PushComponent b e (FilterAST (Some x)) ps')
           else InvariantViolation
  | _ => InvariantViolation
  end.

(** Modelled from the spec: a GROUP BY clause holds its expressions. *)
Definition AssembleGrouping (b e : nat) (ps : parseStack) : outcome :=
  let '(elems, ps') := collectElements b e ps in
  if forallb isExpression elems
  then Done (PushComponent b e (GroupingAST elems) ps')
  else InvariantViolation.

(** Modelled from the spec: a HAVING clause holds one expression. *)
Definition AssembleHaving (b e : nat) (ps : parseStack) : outcome :=
  let '(elems, ps') := collectElements b e ps in
  match elems with
  | [] => Done (PushComponent b e (HavingAST None) ps')
  | [x] => if isExpression x
           then Done (PushComponent b e (HavingAST (Some x)) ps')
           else InvariantViolation
  | _ => InvariantViolation
  end.

(** Modelled from the spec: the fixed-arity reductions of section 4.2.
    Their actions carry no span: they take the declared sub-parts off the
    top of the stack and push the composite under the span that runs from
    the first sub-part to the last; any deviation is an invariant
    violation. *)
Definition AssembleRange (ps : parseStack) : outcome :=
  match ps with
  | mkPC _ e (Unit_ u) :: mkPC b _ (NumericLiteral n) :: ps' =>
      Done (PushComponent b e (RangeAST n u) ps')
  | _ => InvariantViolation
  end.

(** Modelled from the spec: fixed arity, a function name and its parameters. *)
Definition AssembleFuncApp (ps : parseStack) : outcome :=
  match ps with
  | mkPC _ e (ExpressionsAST es) :: mkPC b _ (FuncName f) :: ps' =>
      Done (PushComponent b e (FuncAppAST f es) ps')
  | _ => InvariantViolation
  end.

(** Modelled from the spec: fixed arity, a parameter key and its value. *)
Definition AssembleSourceSinkParam (ps : parseStack) : outcome :=
  match ps with
  | mkPC _ e (SourceSinkParamVal v) :: mkPC b _ (SourceSinkParamKey k) :: ps' =>
      Done (PushComponent b e (SourceSinkParamAST k v) ps')
  | _ => InvariantViolation
  end.

(** Modelled from the spec: fixed arity, an emitter and its projections. *)
Definition AssembleEmitProjections (ps : parseStack) : outcome :=
  match ps with
  | mkPC _ e (ProjectionsAST p) :: mkPC b _ (Emit m) :: ps' =>
      Done (PushComponent b e (EmitProjectionsAST m p) ps')
  | _ => InvariantViolation
  end.

(** Modelled from the spec: fixed arity, projections, FROM, WHERE, GROUP BY and HAVING. *)
Definition AssembleSelect (ps : parseStack) : outcome :=
  match ps with
  | mkPC _ e (HavingAST h) :: mkPC _ _ (GroupingAST g)
    :: mkPC _ _ (FilterAST f) :: mkPC _ _ (FromAST r)
    :: mkPC b _ (ProjectionsAST p) :: ps' =>
      Done (PushComponent b e
              (SelectStmt (ProjectionsAST p) (FromAST r) (FilterAST f)
                          (GroupingAST g) (HavingAST h)) ps')
  | _ => InvariantViolation
  end.

(** Modelled from the spec: fixed arity, a stream name, the emitter projections, the windowed FROM, WHERE, GROUP BY and HAVING. *)
Definition AssembleCreateStreamAsSelect (ps : parseStack) : outcome :=
  match ps with
  | mkPC _ e (HavingAST h) :: mkPC _ _ (GroupingAST g)
    :: mkPC _ _ (FilterAST f) :: mkPC _ _ (WindowedFromAST r w)
    :: mkPC _ _ (EmitProjectionsAST m p) :: mkPC b _ (Relation n) :: ps' =>
      Done (PushComponent b e
              (CreateStreamAsSelectStmt n (EmitProjectionsAST m p)
                 (WindowedFromAST r w) (FilterAST f)
                 (GroupingAST g) (HavingAST h)) ps')
  | _ => InvariantViolation
  end.

(** Modelled from the spec: fixed arity, a source name, a type and the parameters. *)
Definition AssembleCreateSource (ps : parseStack) : outcome :=
  match ps with
  | mkPC _ e (SourceSinkSpecsAST sp) :: mkPC _ _ (SourceSinkType t)
    :: mkPC b _ (SourceSinkName n) :: ps' =>
      Done (PushComponent b e (CreateSourceStmt n t (SourceSinkSpecsAST sp)) ps')
  | _ => InvariantViolation
  end.

(** Modelled from the spec: fixed arity, a sink name, a type and the parameters. *)
Definition AssembleCreateSink (ps : parseStack) : outcome :=
  match ps with
  | mkPC _ e (SourceSinkSpecsAST sp) :: mkPC _ _ (SourceSinkType t)
    :: mkPC b _ (SourceSinkName n) :: ps' =>
      Done (PushComponent b e (CreateSinkStmt n t (SourceSinkSpecsAST sp)) ps')
  | _ => InvariantViolation
  end.

(** Modelled from the spec: fixed arity, a stream name and a source name. *)
Definition AssembleCreateStreamFromSource (ps : parseStack) : outcome :=
  match ps with
  | mkPC _ e (SourceSinkName s) :: mkPC b _ (Relation n) :: ps' =>
      Done (PushComponent b e (CreateStreamFromSourceStmt n s) ps')
  | _ => InvariantViolation
  end.

(** Modelled from the spec: fixed arity, a stream name, a source type and the parameters. *)
Definition AssembleCreateStreamFromSourceExt (ps : parseStack) : outcome :=
  match ps with
  | mkPC _ e (SourceSinkSpecsAST sp) :: mkPC _ _ (SourceSinkType t)
    :: mkPC b _ (Relation n) :: ps' =>
      Done (PushComponent b e
              (CreateStreamFromSourceExtStmt n t (SourceSinkSpecsAST sp)) ps')
  | _ => InvariantViolation
  end.

(** Modelled from the spec: fixed arity, a sink name and a SELECT statement. *)
Definition AssembleInsertIntoSelect (ps : parseStack) : outcome :=
  match ps with
  | mkPC _ e (SelectStmt p r f g h) :: mkPC b _ (SourceSinkName n) :: ps' =>
      Done (PushComponent b e (InsertIntoSelectStmt n (SelectStmt p r f g h)) ps')
  | _ => InvariantViolation
  end.

(** *** Semantic actions

    The generated parser records, for every rule that matched, the action
    in curly braces together with the [begin] and [end] of the rule's
    [< >] capture, and runs the recorded actions in order once the whole
    text has matched. *)
Inductive Action :=
| DoPushComponent (b e : nat) (c : Component)
| DoAssembleSelect
| DoAssembleCreateStreamAsSelect
| DoAssembleCreateSource
| DoAssembleCreateSink
| DoAssembleCreateStreamFromSource
| DoAssembleCreateStreamFromSourceExt
| DoAssembleInsertIntoSelect
| DoAssembleEmitProjections
| DoAssembleProjections (b e : nat)
| DoAssembleWindowedFrom (b e : nat)
| DoAssembleRange
| DoAssembleFrom (b e : nat)
| DoAssembleFilter (b e : nat)
| DoAssembleGrouping (b e : nat)
| DoAssembleHaving (b e : nat)
| DoAssembleSourceSinkSpecs (b e : nat)
| DoAssembleSourceSinkParam
| DoAssembleBinaryOperation (b e : nat)
| DoAssembleFuncApp
| DoAssembleExpressions (b e : nat).

Definition perform (a : Action) (ps : parseStack) : outcome :=
  match a with
  | DoPushComponent b e c => Done (PushComponent b e c ps)
  | DoAssembleSelect => AssembleSelect ps
  | DoAssembleCreateStreamAsSelect => AssembleCreateStreamAsSelect ps
  | DoAssembleCreateSource => AssembleCreateSource ps
  | DoAssembleCreateSink => AssembleCreateSink ps
  | DoAssembleCreateStreamFromSource => AssembleCreateStreamFromSource ps
  | DoAssembleCreateStreamFromSourceExt => AssembleCreateStreamFromSourceExt ps
  | DoAssembleInsertIntoSelect => AssembleInsertIntoSelect ps
  | DoAssembleEmitProjections => AssembleEmitProjections ps
  | DoAssembleProjections b e => AssembleProjections b e ps
  | DoAssembleWindowedFrom b e => AssembleWindowedFrom b e ps
  | DoAssembleRange => AssembleRange ps
  | DoAssembleFrom b e => AssembleFrom b e ps
  | DoAssembleFilter b e => AssembleFilter b e ps
  | DoAssembleGrouping b e => AssembleGrouping b e ps
  | DoAssembleHaving b e => AssembleHaving b e ps
  | DoAssembleSourceSinkSpecs b e => AssembleSourceSinkSpecs b e ps
  | DoAssembleSourceSinkParam => AssembleSourceSinkParam ps
  | DoAssembleBinaryOperation b e => AssembleBinaryOperation b e ps
  | DoAssembleFuncApp => AssembleFuncApp ps
  | DoAssembleExpressions b e => AssembleExpressions b e ps
  end.

(** Running the recorded actions; the first invariant violation aborts. *)
Fixpoint Execute (acts : list Action) (ps : parseStack) : outcome :=
  match acts with
  | [] => Done ps
  | a :: acts' =>
      match perform a ps with
      | Done ps' => Execute acts' ps'
      | InvariantViolation => InvariantViolation
      end
  end.

End Stack.

Import Stack.

(** ** The grammar

    bql.peg is compiled by pointlander/peg.  The rules below are the rules
    of that file, written with the operators of the PEG notation: sequence,
    ordered choice [/], [?], [*], [+], [!], [.], character classes, and the
    [< >] capture whose bounds an action receives as [begin] and [end].

    Two notations of that tool matter here: a double-quoted literal and a
    double-bracket class ([[a-z]]) match letters in either case, a
    single-quoted literal and a single-bracket class match exactly. *)

Module Peg.

Record cursor := mkCur { position : nat; remaining : text }.

(** [Diverge] stands for a parser that would not return: the recursion
    ran out of budget. *)
Inductive result :=
| Diverge
| Fail
| Match (c : cursor) (tokens : list Action).

Definition parser := cursor -> result.

Definition isLower (r : rune) : bool := ((97 <=? r) && (r <=? 122))%N.
Definition isUpper (r : rune) : bool := ((65 <=? r) && (r <=? 90))%N.
Definition isDigit (r : rune) : bool := ((48 <=? r) && (r <=? 57))%N.
Definition toLower (r : rune) : rune := if isUpper r then (r + 32)%N else r.
Definition toUpper (r : rune) : rune := if isLower r then (r - 32)%N else r.

(** [.] *)
Definition matchDot : parser := fun c =>
  match remaining c with
  | [] => Fail
  | _ :: r => Match (mkCur (S (position c)) r) []
  end.

(** A character class, given by its membership test. *)
Definition matchClass (f : rune -> bool) : parser := fun c =>
  match remaining c with
  | x :: r => if f x then Match (mkCur (S (position c)) r) [] else Fail
  | [] => Fail
  end.

Definition matchChar (x : rune) : parser := matchClass (N.eqb x).

(** Sequence. *)
Definition seq (p q : parser) : parser := fun c =>
  match p c with
  | Match c' a =>
      match q c' with
      | Match c'' a' => Match c'' (a ++ a')
      | r => r
      end
  | r => r
  end.

(** Ordered choice: the second alternative is tried only when the first
    has failed, from the same position. *)
Definition alt (p q : parser) : parser := fun c =>
  match p c with
  | Fail => q c
  | r => r
  end.

Definition empty : parser := fun c => Match c [].

Definition opt (p : parser) : parser := alt p empty.

(** [!p] *)
Definition notp (p : parser) : parser := fun c =>
  match p c with
  | Match _ _ => Fail
  | Fail => Match c []
  | Diverge => Diverge
  end.

(** [p*]: repeat while [p] matches.  A body that matches without moving
    would be repeated for ever; the budget (the length of the remaining
    text) is used up only in that case. *)
Fixpoint starLoop (p : parser) (n : nat) (c : cursor) : result :=
  match p c with
  | Diverge => Diverge
  | Fail => Match c []
  | Match c' a =>
      match n with
      | 0 => Diverge
      | S n' =>
          match starLoop p n' c' with
          | Match c'' a' => Match c'' (a ++ a')
          | r => r
          end
      end
  end.

Definition star (p : parser) : parser := fun c =>
  starLoop p (length (remaining c)) c.

Definition plus (p : parser) : parser := seq p (star p).

(** A single-quoted literal. *)
Fixpoint matchString (s : text) : parser :=
  match s with
  | [] => empty
  | x :: s' => seq (matchChar x) (matchString s')
  end.

(** One character of a double-quoted literal. *)
Definition matchCharCI (x : rune) : parser :=
  alt (matchChar (toLower x)) (matchChar (toUpper x)).

(** A double-quoted literal. *)
Fixpoint matchStringCI (s : text) : parser :=
  match s with
  | [] => empty
  | x :: s' => seq (matchCharCI x) (matchStringCI s')
  end.

(** [< p > { action }]: the action is recorded after the tokens of [p],
    with the bounds of the capture and the captured text
    [string([]rune(buffer)[begin:end])]. *)
Definition capture (p : parser) (k : nat -> nat -> text -> Action) : parser :=
  fun c =>
    match p c with
    | Match c' a =>
        Match c' (a ++ [k (position c) (position c')
                          (firstn (position c' - position c) (remaining c))])
    | r => r
    end.

(** [p { action }], for an action that uses neither bound. *)
Definition action (p : parser) (a : Action) : parser :=
  fun c =>
    match p c with
    | Match c' acts => Match c' (acts ++ [a])
    | r => r
    end.

Declare Scope peg_scope.
Delimit Scope peg_scope with peg.
Bind Scope peg_scope with parser.
Infix ";;" := seq (at level 61, right associativity) : peg_scope.
Infix "//" := alt (at level 62, right associativity) : peg_scope.
Local Open Scope peg_scope.

Definition lit (s : string) : parser := matchString (runes s).
Definition kw (s : string) : parser := matchStringCI (runes s).
Definition ch (a : ascii) : parser := matchChar (rune_of a).

(** [[[a-z]]] *)
Definition letter : parser := matchClass isLower // matchClass isUpper.
(** [[0-9]] *)
Definition digit : parser := matchClass isDigit.

(** *** Basic building blocks *)

Definition sp : parser := star (ch " " // ch "009" // ch "010").

Definition ident : parser := letter ;; star (letter // digit // ch "_").

Definition push (c : Component) : nat -> nat -> text -> Action :=
  fun b e _ => DoPushComponent b e c.

Definition pushText (f : text -> Component) : nat -> nat -> text -> Action :=
  fun b e substr => DoPushComponent b e (f substr).

Definition Relation : parser := capture ident (pushText NewRelation).
Definition ColumnName : parser := capture ident (pushText NewColumnName).

Definition NumericLiteral : parser :=
  capture (opt (ch "-") ;; plus digit) (pushText NewNumericLiteral).

Definition FloatLiteral : parser :=
  capture (opt (ch "-") ;; plus digit ;; ch "." ;; plus digit)
          (pushText NewFloatLiteral).

Definition Function : parser := capture ident (pushText Ast.FuncName).

Definition TRUE : parser := capture (kw "true") (push (NewBoolLiteral true)).
Definition FALSE : parser := capture (kw "false") (push (NewBoolLiteral false)).
Definition BooleanLiteral : parser := TRUE // FALSE.

Definition Wildcard : parser := capture (ch "*") (push NewWildcard).

Definition StringLiteral : parser :=
  capture (matchChar quote
           ;; star (kw "''" // (notp (kw "'") ;; matchDot))
           ;; matchChar quote)
          (pushText NewStringLiteral).

Definition ISTREAM : parser := capture (kw "ISTREAM") (push (Emit Istream)).
Definition DSTREAM : parser := capture (kw "DSTREAM") (push (Emit Dstream)).
Definition RSTREAM : parser := capture (kw "RSTREAM") (push (Emit Rstream)).
Definition Emitter : parser := ISTREAM // DSTREAM // RSTREAM.

Definition TUPLES : parser := capture (kw "TUPLES") (push (Unit_ Tuples)).
Definition SECONDS : parser := capture (kw "SECONDS") (push (Unit_ Seconds)).
Definition RangeUnit : parser := TUPLES // SECONDS.

Definition SourceSinkName : parser := capture ident (pushText Ast.SourceSinkName).
Definition SourceSinkType : parser := capture ident (pushText Ast.SourceSinkType).
Definition SourceSinkParamKey : parser :=
  capture ident (pushText Ast.SourceSinkParamKey).
Definition SourceSinkParamVal : parser :=
  capture (plus (letter // digit // ch "_")) (pushText Ast.SourceSinkParamVal).

Definition Or : parser := capture (kw "OR") (push (Op Ast.Or)).
Definition And : parser := capture (kw "AND") (push (Op Ast.And)).
Definition Equal : parser := capture (kw "=") (push (Op Ast.Equal)).
Definition Less : parser := capture (kw "<") (push (Op Ast.Less)).
Definition LessOrEqual : parser := capture (kw "<=") (push (Op Ast.LessOrEqual)).
Definition Greater : parser := capture (kw ">") (push (Op Ast.Greater)).
Definition GreaterOrEqual : parser :=
  capture (kw ">=") (push (Op Ast.GreaterOrEqual)).
Definition NotEqual : parser :=
  capture (kw "!=" // kw "<>") (push (Op Ast.NotEqual)).
Definition Plus : parser := capture (kw "+") (push (Op Ast.Plus)).
Definition Minus : parser := capture (kw "-") (push (Op Ast.Minus)).
Definition Multiply : parser := capture (kw "*") (push (Op Ast.Multiply)).
Definition Divide : parser := capture (kw "/") (push (Op Ast.Divide)).
Definition Modulo : parser := capture (kw "%") (push (Op Ast.Modulo)).

Definition Literal : parser := FloatLiteral // NumericLiteral // StringLiteral.

Definition ComparisonOp : parser :=
  Equal // NotEqual // LessOrEqual // Less // GreaterOrEqual // Greater
  // NotEqual.

Definition PlusMinusOp : parser := Plus // Minus.

Definition MultDivOp : parser := Multiply // Divide // Modulo.

(** *** Nested expressions, statement components and statements

    [Expression] is the one rule that is reached from itself (through the
    parenthesised base expression and the parameters of a function
    application).  The rules that lead to it are written over the parser to
    call for a nested expression. *)

Section Rules.

Variable Expression : parser.

Definition FuncParams : parser :=
  capture (Expression ;; sp ;; star (ch "," ;; sp ;; Expression))
          (fun b e _ => DoAssembleExpressions b e).

Definition FuncApp : parser :=
  action (Function ;; sp ;; ch "(" ;; sp ;; FuncParams ;; sp ;; ch ")")
         DoAssembleFuncApp.

Definition baseExpr : parser :=
  (ch "(" ;; sp ;; Expression ;; sp ;; ch ")")
  // BooleanLiteral
  // FuncApp
  // ColumnName
  // Wildcard
  // Literal.

Definition productExpr : parser :=
  capture (baseExpr ;; sp ;; opt (MultDivOp ;; sp ;; baseExpr))
          (fun b e _ => DoAssembleBinaryOperation b e).

Definition termExpr : parser :=
  capture (productExpr ;; sp ;; opt (PlusMinusOp ;; sp ;; productExpr))
          (fun b e _ => DoAssembleBinaryOperation b e).

Definition comparisonExpr : parser :=
  capture (termExpr ;; sp ;; opt (ComparisonOp ;; sp ;; termExpr))
          (fun b e _ => DoAssembleBinaryOperation b e).

Definition andExpr : parser :=
  capture (comparisonExpr ;; sp ;; opt (And ;; sp ;; comparisonExpr))
          (fun b e _ => DoAssembleBinaryOperation b e).

Definition orExpr : parser :=
  capture (andExpr ;; sp ;; opt (Or ;; sp ;; andExpr))
          (fun b e _ => DoAssembleBinaryOperation b e).

End Rules.

(** [Expression <- orExpr], with a budget for the nesting depth. *)
Fixpoint ExpressionN (n : nat) : parser :=
  match n with
  | 0 => fun _ => Diverge
  | S n' => orExpr (ExpressionN n')
  end.

Section Statements.

Variable Expression : parser.

Definition Projection : parser := Expression.

Definition Projections : parser :=
  capture (Projection ;; sp ;; star (ch "," ;; sp ;; Projection))
          (fun b e _ => DoAssembleProjections b e).

Definition EmitProjections : parser :=
  action (Emitter ;; sp ;; ch "(" ;; Projections ;; ch ")")
         DoAssembleEmitProjections.

Definition Relations : parser :=
  Relation ;; sp ;; star (ch "," ;; sp ;; Relation).

Definition Range : parser :=
  action (NumericLiteral ;; sp ;; RangeUnit) DoAssembleRange.

Definition WindowedFrom : parser :=
  capture (opt (kw "FROM" ;; sp ;; Relations ;; sp
                ;; ch "[" ;; sp ;; kw "RANGE" ;; sp ;; Range ;; sp ;; ch "]"))
          (fun b e _ => DoAssembleWindowedFrom b e).

Definition From : parser :=
  capture (opt (kw "FROM" ;; sp ;; Relations))
          (fun b e _ => DoAssembleFrom b e).

Definition Filter : parser :=
  capture (opt (kw "WHERE" ;; sp ;; Expression))
          (fun b e _ => DoAssembleFilter b e).

Definition GroupList : parser :=
  Expression ;; sp ;; star (ch "," ;; sp ;; Expression).

Definition Grouping : parser :=
  capture (opt (kw "GROUP" ;; sp ;; kw "BY" ;; sp ;; GroupList))
          (fun b e _ => DoAssembleGrouping b e).

Definition Having : parser :=
  capture (opt (kw "HAVING" ;; sp ;; Expression))
          (fun b e _ => DoAssembleHaving b e).

Definition SourceSinkParam : parser :=
  action (SourceSinkParamKey ;; ch "=" ;; SourceSinkParamVal)
         DoAssembleSourceSinkParam.

Definition SourceSinkSpecs : parser :=
  capture (opt (kw "WITH" ;; sp ;; SourceSinkParam ;; sp
                ;; star (ch "," ;; sp ;; SourceSinkParam)))
          (fun b e _ => DoAssembleSourceSinkSpecs b e).

Definition SelectStmt : parser :=
  action (kw "SELECT" ;; sp
          ;; Projections ;; sp
          ;; From ;; sp
          ;; Filter ;; sp
          ;; Grouping ;; sp
          ;; Having ;; sp)
         DoAssembleSelect.

Definition CreateStreamAsSelectStmt : parser :=
  action (kw "CREATE" ;; sp ;; kw "STREAM" ;; sp
          ;; Relation ;; sp
          ;; kw "AS" ;; sp ;; kw "SELECT" ;; sp
          ;; EmitProjections ;; sp
          ;; WindowedFrom ;; sp
          ;; Filter ;; sp
          ;; Grouping ;; sp
          ;; Having ;; sp)
         DoAssembleCreateStreamAsSelect.

Definition CreateSourceStmt : parser :=
  action (kw "CREATE" ;; sp ;; kw "SOURCE" ;; sp
          ;; SourceSinkName ;; sp
          ;; kw "TYPE" ;; sp ;; SourceSinkType ;; sp
          ;; SourceSinkSpecs)
         DoAssembleCreateSource.

Definition CreateSinkStmt : parser :=
  action (kw "CREATE" ;; sp ;; kw "SINK" ;; sp
          ;; SourceSinkName ;; sp
          ;; kw "TYPE" ;; sp ;; SourceSinkType ;; sp
          ;; SourceSinkSpecs)
         DoAssembleCreateSink.

Definition CreateStreamFromSourceStmt : parser :=
  action (kw "CREATE" ;; sp ;; kw "STREAM" ;; sp
          ;; Relation ;; sp
          ;; kw "FROM" ;; sp ;; kw "SOURCE" ;; sp
          ;; SourceSinkName)
         DoAssembleCreateStreamFromSource.

Definition CreateStreamFromSourceExtStmt : parser :=
  action (kw "CREATE" ;; sp ;; kw "STREAM" ;; sp
          ;; Relation ;; sp
          ;; kw "FROM" ;; sp ;; SourceSinkType ;; sp ;; kw "SOURCE" ;; sp
          ;; SourceSinkSpecs)
         DoAssembleCreateStreamFromSourceExt.

Definition InsertIntoSelectStmt : parser :=
  action (kw "INSERT" ;; sp ;; kw "INTO" ;; sp
          ;; SourceSinkName ;; sp
          ;; SelectStmt)
         DoAssembleInsertIntoSelect.

(** The parenthesised choice of [Statement]. *)
Definition anyStmt : parser :=
  SelectStmt // CreateStreamAsSelectStmt // CreateSourceStmt
  // CreateStreamFromSourceStmt // CreateStreamFromSourceExtStmt
  // CreateSinkStmt // InsertIntoSelectStmt.

Definition Statement : parser := anyStmt ;; notp matchDot.

End Statements.

(** The budget that is always enough: one more than the length of the
    text (every nested expression starts after at least one character of
    the enclosing one). *)
Definition budget (c : cursor) : nat := S (length (remaining c)).

Definition Expression : parser := fun c => ExpressionN (budget c) c.

Definition start (s : text) : cursor := mkCur 0 s.

(** Modelled from the spec: the single entry point of section 6,
    parse(query text) -> (AST, error).  A text the grammar does not match
    is a syntax error; the recorded actions are then run on an empty
    stack, and the one fragment that survives is the AST. *)
Inductive parsed :=
| NoAnswer
| SyntaxError
| InternalError
| Tree (ast : Component).

(** Modelled from the spec: after the top-level statement rule only one
    fragment, the AST, is on the stack. *)
Definition finish (acts : list Action) : parsed :=
  match Execute acts [] with
  | Done [f] => Tree (comp f)
  | _ => InternalError
  end.

(** Modelled from the spec: a parse, with the budget [n] for nested
    expressions. *)
Definition parseWith (n : nat) (s : text) : parsed :=
  match Statement (ExpressionN n) (start s) with
  | Diverge => NoAnswer
  | Fail => SyntaxError
  | Match _ acts => finish acts
  end.

(** Modelled from the spec: parse(query text). *)
Definition parse (s : text) : parsed := parseWith (S (length s)) s.



(** *** Lexical forms *)

(** The longest prefix of a text in a class, and what is left after it. *)
Fixpoint takeClass (f : rune -> bool) (s : text) : text :=
  match s with
  | x :: s' => if f x then x :: takeClass f s' else []
  | [] => []
  end.

Fixpoint skipClass (f : rune -> bool) (s : text) : text :=
  match s with
  | x :: s' => if f x then skipClass f s' else s
  | [] => []
  end.

Definition startsWith (f : rune -> bool) (s : text) : bool :=
  match s with
  | x :: _ => f x
  | [] => false
  end.

Definition isIdentStart (x : rune) : bool := isLower x || isUpper x.

Definition isIdentPart (x : rune) : bool :=
  (isLower x || isUpper x) || isDigit x || (rune_of "_" =? x)%N.

(** The texts that [ident] takes as a whole: a letter of either case, then
    letters of either case, digits and underscores. *)
Definition identifier (t : text) : bool :=
  match t with
  | x :: t' => isIdentStart x && forallb isIdentPart t'
  | [] => false
  end.

(** The form [a-z][a-z0-9_]*: lower-case letters only. *)
Definition lowerIdentifier (t : text) : bool :=
  match t with
  | x :: t' =>
      isLower x
      && forallb (fun y => isLower y || isDigit y || (rune_of "_" =? y)%N) t'
  | [] => false
  end.

(** The body of a string literal that stands for [v]: every quote of [v]
    is doubled. *)
Fixpoint escape (v : text) : text :=
  match v with
  | x :: v' => if (x =? quote)%N then quote :: quote :: escape v'
               else x :: escape v'
  | [] => []
  end.

(** One step of the body of [StringLiteral]: a doubled quote, or one
    character that is not a quote. *)
Definition stringChar : parser := kw "''" // (notp (kw "'") ;; matchDot).

(** The characters a numeric literal can start with. *)
Definition numStart (x : rune) : bool := (rune_of "-" =? x)%N || isDigit x.

(** What a match of one precedence level is made of: one operand of the
    next-tighter level, then either nothing more, or one operator of the
    level and one more operand; the reduction over the whole span comes
    last. *)
Definition oneOperator (level operand : parser) (ops : list Operator) : Prop :=
  forall c c' acts,
    level c = Match c' acts ->
    exists c1 a1,
      operand c = Match c1 a1
      /\ (acts = a1 ++ [DoAssembleBinaryOperation (position c) (position c')]
          \/ exists op b e c2 a2,
               In op ops
               /\ operand c2 = Match c' a2
               /\ acts = a1 ++ DoPushComponent b e (Op op) :: a2
                            ++ [DoAssembleBinaryOperation (position c)
                                                          (position c')]).

(** What makes a level match an operator application: where an operand,
    blanks, the operator rule, blanks and one more operand match one after
    the other, the level matches all of it, and records the actions of the
    three in that order, then the reduction over the whole span. *)
Definition takesOperator (level operand operator : parser) : Prop :=
  forall c c1 c2 c3 c4 c5 a1 ao a2,
    operand c = Match c1 a1 ->
    sp c1 = Match c2 [] ->
    operator c2 = Match c3 ao ->
    sp c3 = Match c4 [] ->
    operand c4 = Match c5 a2 ->
    level c
    = Match c5 (a1 ++ ao ++ a2
                   ++ [DoAssembleBinaryOperation (position c) (position c5)]).

(** What makes a level match one operand alone: where the operand and the
    blanks after it match and no operator with a second operand follows,
    the level matches the operand and the blanks, and records the
    reduction after the actions of the operand. *)
Definition takesOperand (level operand operator : parser) : Prop :=
  forall c c1 c2 a1,
    operand c = Match c1 a1 ->
    sp c1 = Match c2 [] ->
    (operator ;; sp ;; operand) c2 = Fail ->
    level c
    = Match c2 (a1 ++ [DoAssembleBinaryOperation (position c) (position c2)]).

(** A level fails where its operand fails. *)
Definition failsWith (level operand : parser) : Prop :=
  forall c, operand c = Fail -> level c = Fail.

(** The operator rule that reads an operator. *)
Definition operatorRule (op : Operator) : parser :=
  match op with
  | Ast.Or => Or
  | Ast.And => And
  | Ast.Equal | Ast.Less | Ast.LessOrEqual | Ast.Greater
  | Ast.GreaterOrEqual | Ast.NotEqual => ComparisonOp
  | Ast.Plus | Ast.Minus => PlusMinusOp
  | Ast.Multiply | Ast.Divide | Ast.Modulo => MultDivOp
  end.

(** A spelling of each operator. *)
Definition spelling (op : Operator) : text :=
  runes match op with
        | Ast.Or => "OR"
        | Ast.And => "AND"
        | Ast.Equal => "="
        | Ast.Less => "<"
        | Ast.LessOrEqual => "<="
        | Ast.Greater => ">"
        | Ast.GreaterOrEqual => ">="
        | Ast.NotEqual => "!="
        | Ast.Plus => "+"
        | Ast.Minus => "-"
        | Ast.Multiply => "*"
        | Ast.Divide => "/"
        | Ast.Modulo => "%"
        end.

(** How tight the level of an operator binds: orExpr is the loosest level,
    productExpr the tightest. *)
Definition tightness (op : Operator) : nat :=
  match op with
  | Ast.Or => 1
  | Ast.And => 2
  | Ast.Equal | Ast.Less | Ast.LessOrEqual | Ast.Greater
  | Ast.GreaterOrEqual | Ast.NotEqual => 3
  | Ast.Plus | Ast.Minus => 4
  | Ast.Multiply | Ast.Divide | Ast.Modulo => 5
  end.

(** The spelling of the operator, followed by [rest], starts with a longer
    operator: [<] followed by [=] or [>], and [>] followed by [=]. *)
Definition longer (op : Operator) (rest : text) : bool :=
  match op with
  | Ast.Less =>
      startsWith (fun x => (rune_of "=" =? x)%N || (rune_of ">" =? x)%N) rest
  | Ast.Greater => startsWith (N.eqb (rune_of "=")) rest
  | _ => false
  end.

(** The answer for a statement that selects one expression. *)
Definition selecting (e : Component) : parsed :=
  Tree (Ast.SelectStmt (ProjectionsAST [e]) (FromAST []) (FilterAST None)
                       (GroupingAST []) (HavingAST None)).

(** A parser that records no action. *)
Definition silent (p : parser) : Prop :=
  forall c c' a, p c = Match c' a -> a = [].

(** *** Two texts that differ in the spelling of "not equal" *)

Definition bangEq : text := runes "!=".
Definition ltGt : text := runes "<>".

(** The text holds an even number of quotes.  A doubled quote inside a
    string literal counts twice, so a text that starts outside every string
    literal ends outside every string literal exactly when this holds. *)
Fixpoint evenQuotes (u : text) : bool :=
  match u with
  | [] => true
  | x :: u' => if (quote =? x)%N then negb (evenQuotes u') else evenQuotes u'
  end.

(** The two answers of a parser on two texts: the same outcome, the same
    recorded actions, and cursors related by [R]. *)
Definition twinResult (R : cursor -> cursor -> Prop) (r1 r2 : result) : Prop :=
  match r1, r2 with
  | Diverge, Diverge => True
  | Fail, Fail => True
  | Match c1 a1, Match c2 a2 => a1 = a2 /\ R c1 c2
  | _, _ => False
  end.

(** Two cursors at the same position of [u ++ "!=" ++ r] and
    [u ++ "<>" ++ r], still in front of the operator, after a part [v] of
    [u] in which every string literal that starts also ends. *)
Definition before (r : text) (p : nat) (u : text) (c1 c2 : cursor) : Prop :=
  exists v u',
    u = v ++ u'
    /\ evenQuotes v = true
    /\ c1 = mkCur (p + length v) (u' ++ bangEq ++ r)
    /\ c2 = mkCur (p + length v) (u' ++ ltGt ++ r).

(** Two cursors of the two texts: in front of the operator (outside any
    string literal), or past it, where the texts are the same. *)
Definition twins (c1 c2 : cursor) : Prop :=
  c1 = c2
  \/ exists r p u,
       evenQuotes u = true
       /\ c1 = mkCur p (u ++ bangEq ++ r)
       /\ c2 = mkCur p (u ++ ltGt ++ r).

(** A parser that, started in front of the operator, answers alike on the
    two texts without reaching the operator. *)
Definition local (q : parser) : Prop :=
  forall r p u,
    evenQuotes u = true ->
    twinResult (before r p u)
               (q (mkCur p (u ++ bangEq ++ r))) (q (mkCur p (u ++ ltGt ++ r))).

(** The same, when at least one character comes before the operator. *)
Definition localAfter (q : parser) : Prop :=
  forall r p x u,
    evenQuotes (x :: u) = true ->
    twinResult (before r p (x :: u))
               (q (mkCur p ((x :: u) ++ bangEq ++ r)))
               (q (mkCur p ((x :: u) ++ ltGt ++ r))).

(** A parser that answers alike on the two texts. *)
Definition agrees (q : parser) : Prop :=
  forall c1 c2, twins c1 c2 -> twinResult twins (q c1) (q c2).

(** A character that is neither [!] nor [<] nor a quote. *)
Definition plainChar (x : rune) : bool :=
  negb ((x =? 33)%N || (x =? 60)%N || (x =? quote)%N).

(** A literal none of whose characters, in either case, is [!], [<] or a
    quote. *)
Definition plainText (s : text) : bool :=
  forallb (fun x => plainChar (toLower x) && plainChar (toUpper x)) s.

(** *** Well-behaved parsers *)

(** A match only moves forward: the text that remains is a suffix of the
    text the parser was given, and the position counts what was consumed. *)
Definition advances (p : parser) : Prop :=
  forall c c' a, p c = Match c' a ->
    exists consumed,
      remaining c = consumed ++ remaining c'
      /\ position c' = position c + length consumed.

(** A match consumes at least one character. *)
Definition consumes (p : parser) : Prop :=
  forall c c' a, p c = Match c' a ->
    length (remaining c') < length (remaining c).

(** The parser returns on every text shorter than [L]. *)
Definition totalBelow (L : nat) (p : parser) : Prop :=
  forall c, length (remaining c) < L -> p c <> Diverge.

(** [p'] answers whatever [p] answers, wherever [p] returns. *)
Definition refines (p p' : parser) : Prop :=
  forall c, p c = Diverge \/ p c = p' c.

(** *** The spans handed to the actions *)

(** Where the span of a recorded action lies: between [lo] and [hi].  The
    span of a token and of a reduction over expressions is not empty; the
    span of an optional clause can be. *)
Definition spanOk (lo hi : nat) (a : Action) : Prop :=
  match a with
  | DoPushComponent b e _
  | DoAssembleProjections b e
  | DoAssembleBinaryOperation b e
  | DoAssembleExpressions b e => lo <= b /\ b < e /\ e <= hi
  | DoAssembleWindowedFrom b e
  | DoAssembleFrom b e
  | DoAssembleFilter b e
  | DoAssembleGrouping b e
  | DoAssembleHaving b e
  | DoAssembleSourceSinkSpecs b e => lo <= b /\ b <= e /\ e <= hi
  | _ => True
  end.

(** Every action a match records has its span inside the match. *)
Definition tidy (p : parser) : Prop :=
  forall c c' a, p c = Match c' a ->
    Forall (spanOk (position c) (position c')) a.

(** The span an action carries, if it carries one. *)
Definition spanOf (a : Action) : option (nat * nat) :=
  match a with
  | DoPushComponent b e _
  | DoAssembleProjections b e
  | DoAssembleWindowedFrom b e
  | DoAssembleFrom b e
  | DoAssembleFilter b e
  | DoAssembleGrouping b e
  | DoAssembleHaving b e
  | DoAssembleSourceSinkSpecs b e
  | DoAssembleBinaryOperation b e
  | DoAssembleExpressions b e => Some (b, e)
  | _ => None
  end.

(** An action [later] that is recorded after an action [earlier]: its
    span contains the span of the earlier one, or starts where the
    earlier one has ended. *)
Definition follows (earlier later : Action) : Prop :=
  match spanOf earlier, spanOf later with
  | Some (b1, e1), Some (b2, e2) => (b2 <= b1 /\ e1 <= e2) \/ e1 <= b2
  | _, _ => True
  end.

(** The actions of a match are recorded in that order. *)
Definition nested (p : parser) : Prop :=
  forall c c' a, p c = Match c' a -> ForallOrdPairs follows a.

(** *** Spellings *)

(** [w] spells the double-quoted literal [s]: the same characters, each
    letter in either case. *)
Fixpoint spells (s w : text) : bool :=
  match s, w with
  | [], [] => true
  | x :: s', y :: w' =>
      ((toLower x =? y)%N || (toUpper x =? y)%N) && spells s' w'
  | _, _ => false
  end.

(** The characters [sp] skips: blank, tab and line feed. *)
Definition isBlank (x : rune) : bool :=
  (rune_of " " =? x)%N || (rune_of "009" =? x)%N || (rune_of "010" =? x)%N.

(** The characters a statement can start with: the first letters of
    SELECT, CREATE and INSERT, in either case. *)
Definition statementStart (x : rune) : bool :=
  existsb (N.eqb x) (runes "sScCiI").

(** *** Comma-separated lists of relations *)

(** The text of the further items of a list: for each item a comma,
    blanks, and the name. *)
Fixpoint moreItems (items : list (text * text)) : text :=
  match items with
  | [] => []
  | (ws, r) :: items' => rune_of "," :: ws ++ r ++ moreItems items'
  end.

(** The tokens [Relations] pushes for them, the comma of the first one
    being at position [p]. *)
Fixpoint morePushes (p : nat) (items : list (text * text)) : list Action :=
  match items with
  | [] => []
  | (ws, r) :: items' =>
      DoPushComponent (S p + length ws) (S p + length ws + length r)
                      (Ast.Relation r)
      :: morePushes (S p + length ws + length r) items'
  end.

(** An item: blanks, then an identifier. *)
Definition isItem (it : text * text) : bool :=
  forallb isBlank (fst it) && identifier (snd it).

End Peg.

(** ** The struct decoder: decodeInt (data/decode.go) *)

Module Decode.

Local Open Scope Z_scope.

(** A Go [float64] is an IEEE 754 binary64 number. *)
Definition float64 := spec_float.
Definition prec : Z := 53.
Definition emax : Z := 1024.

Definition error := string.

(** Modelled from the spec: the tagged dynamic values of the runtime value
    system (section 1); their declarations are outside this development,
    decode.go and its test use the constructors below. *)
Inductive TypeID :=
| TypeNull | TypeBool | TypeInt | TypeFloat | TypeString | TypeArray | TypeMap.

Inductive Value :=
| Null
| Bool (b : bool)
| Int (i : Z)
| Float (f : float64)
| String (s : string)
| Array (a : list Value)
| Map (m : list (string * Value)).

Definition Type_ (v : Value) : TypeID :=
  match v with
  | Null => TypeNull
  | Bool _ => TypeBool
  | Int _ => TypeInt
  | Float _ => TypeFloat
  | String _ => TypeString
  | Array _ => TypeArray
  | Map _ => TypeMap
  end.

Definition isTypeFloat (t : TypeID) : bool :=
  match t with TypeFloat => true | _ => false end.

(** The kinds [decode] hands to [decodeInt]. *)
Inductive Kind :=
| KInt | KInt8 | KInt16 | KInt32 | KInt64
| KUint | KUint8 | KUint16 | KUint32 | KUint64.

Definition minInt64 : Z := - 2 ^ 63.
Definition maxInt64 : Z := 2 ^ 63 - 1.

(** Two's complement reduction to [w] bits. *)
Definition wrap (w : Z) (x : Z) : Z :=
  (x + 2 ^ (w - 1)) mod 2 ^ w - 2 ^ (w - 1).

(** What decoding one field comes to: an error is returned, the field is
    set, or the call panics. *)
Inductive decoded :=
| Failed (err : error)
| Stored (field : Z)
| Panics.

(** [reflect.Value.SetInt]: the value is converted to the type of the
    field; on a field that is not of a signed integer kind it panics.
    [intSize] is the width of [int] on the platform. *)
Definition SetInt (intSize : Z) (k : Kind) (x : Z) : decoded :=
  match k with
  | KInt => Stored (wrap intSize x)
  | KInt8 => Stored (wrap 8 x)
  | KInt16 => Stored (wrap 16 x)
  | KInt32 => Stored (wrap 32 x)
  | KInt64 => Stored (wrap 64 x)
  | _ => Panics
  end.

(** The width of a signed integer kind. *)
Definition width (intSize : Z) (k : Kind) : Z :=
  match k with
  | KInt | KUint => intSize
  | KInt8 | KUint8 => 8
  | KInt16 | KUint16 => 16
  | KInt32 | KUint32 => 32
  | KInt64 | KUint64 => 64
  end.

Definition isSigned (k : Kind) : bool :=
  match k with
  | KInt | KInt8 | KInt16 | KInt32 | KInt64 => true
  | _ => false
  end.

(** The integer part of a finite float, towards zero. *)
Definition truncate (f : float64) : option Z :=
  match f with
  | S754_zero _ => Some 0
  | S754_finite s m e => Some (cond_Zopp s (Z.shiftl (Zpos m) e))
  | _ => None
  end.

(** [int64(f)].  When the value does not fit (or [f] is a NaN or an
    infinity) the Go conversion yields an implementation-dependent value,
    [overflow]. *)
Definition toInt64 (overflow : Z) (f : float64) : Z :=
  match truncate f with
  | Some z => if (minInt64 <=? z) && (z <=? maxInt64) then z else overflow
  | None => overflow
  end.

(** [float64(i)], rounding to nearest even. *)
Definition fromInt64 (i : Z) : float64 := binary_normalize prec emax i 0 false.

(** [f == g] on floats. *)
Definition feq (f g : float64) : bool := SFeqb f g.

(** A float whose value is a whole number. *)
Definition isInteger (f : float64) : bool :=
  match f with
  | S754_zero _ => true
  | S754_finite _ m e => (0 <=? e) || (Zpos m mod 2 ^ (- e) =? 0)
  | _ => false
  end.

(** A finite float with a fractional part. *)
Definition fractional (f : float64) : bool :=
  match f with
  | S754_finite _ _ _ => negb (isInteger f)
  | _ => false
  end.

(** A float that is exactly a 64-bit integer. *)
Definition representable (f : float64) : bool :=
  isInteger f
  && match truncate f with
     | Some z => (minInt64 <=? z) && (z <=? maxInt64)
     | None => false
     end.

Section Decoder.

(** The casts of the value system are outside this development; they are
    parameters here.  Each returns its result and an error, as in Go. *)
Variable AsInt : Value -> Z * option error.
Variable ToInt : Value -> Z * option error.
Variable AsFloat : Value -> float64 * option error.

(** Platform: what an out-of-range conversion yields, and the width of
    [int]. *)
Variable overflow : Z.
Variable intSize : Z.

Definition decodeInt (src : Value) (dst : Kind) (weaklyTyped : bool) : decoded :=
  let '(i, err) :=
    if weaklyTyped then ToInt src
    else
      let '(i, err) := AsInt src in
      (* special handling for floats having integer values *)
      match err with
      | Some _ =>
          if isTypeFloat (Type_ src) then
            let '(f, _) := AsFloat src in
            let i := toInt64 overflow f in
            if feq f (fromInt64 i) then (i, None) else (i, err)
          else (i, err)
      | None => (i, err)
      end in
  match err with
  | Some e => Failed e
  | None => SetInt intSize dst i
  end.

End Decoder.

(** Modelled from the spec: the strict casts of the value system (the
    "type-coercion casts" of section 1): AsInt takes an Int and nothing
    else.  The special handling of floats in decodeInt presupposes that
    AsInt reports an error on a Float. *)
Definition castError : error := "unsupported cast"%string.

Definition AsIntStrict (v : Value) : Z * option error :=
  match v with
  | Int i => (i, None)
  | _ => (0, Some castError)
  end.

(** Modelled from the spec: AsFloat takes a Float and nothing else. *)
Definition AsFloatStrict (v : Value) : float64 * option error :=
  match v with
  | Float f => (f, None)
  | _ => (S754_zero false, Some castError)
  end.

End Decode.

(** ** The struct decoder: Decode, decode, decodeStruct (data/decode.go) *)

Module Decoder.

Import Decode.

Local Open Scope string_scope.

(** The external functions that decode.go calls: the casts of the value
    system ([AsBool] ... [AsMap], and the weakly typed [ToBool] ...
    [ToString]), the printed name of a value type, [strings.TrimSpace],
    [strings.ToLower] and [camelcase.Split]; and the platform, as for
    [decodeInt].  Their code is outside this development. *)
Record Library := mkLibrary {
  AsBool : Value -> bool * option error;
  ToBool : Value -> bool * option error;
  AsInt : Value -> Z * option error;
  ToInt : Value -> Z * option error;
  AsFloat : Value -> float64 * option error;
  ToFloat : Value -> float64 * option error;
  AsString : Value -> string * option error;
  ToString : Value -> string * option error;
  AsMap : Value -> list (string * Value) * option error;
  typeString : TypeID -> string;
  TrimSpace : string -> string;
  ToLower : string -> string;
  camelcaseSplit : string -> list string;
  overflow : Z;
  intSize : Z
}.

(** [DecoderConfig]; [Metadata] is a pointer to a [DecoderMetadata]. *)
Record DecoderMetadata := mkMetadata {
  Keys : list string;
  Unused : list string
}.

Record DecoderConfig := mkConfig {
  ErrorUnused : bool;
  Metadata : option DecoderMetadata;
  TagName : string
}.

Record Decoder := mkDecoder { config : DecoderConfig }.

(** [NewDecoder]: a nil config stands for the empty one, an empty tag
    name for "bql" (the config is the caller's own, and the call writes
    the tag name into it; the decoder is given here with the config as
    the call leaves it). *)
Definition NewDecoder (c : option DecoderConfig) : Decoder :=
  let c := match c with
           | None => mkConfig false None EmptyString
           | Some c => c
           end in
  let c := if String.eqb (TagName c) EmptyString
           then mkConfig (ErrorUnused c) (Metadata c) "bql"
           else c in
  mkDecoder c.

(** The kinds of [reflect] that [decode] has no case for. *)
Inductive OtherKind :=
| KUintptr | KComplex64 | KComplex128 | KArray | KChan | KFunc | KPtr
| KUnsafePointer.

(** [reflect.Kind.String]. *)
Definition kindString (k : OtherKind) : string :=
  match k with
  | KUintptr => "uintptr"
  | KComplex64 => "complex64"
  | KComplex128 => "complex128"
  | KArray => "array"
  | KChan => "chan"
  | KFunc => "func"
  | KPtr => "ptr"
  | KUnsafePointer => "unsafe.Pointer"
  end.

(** [reflect.StructField]: the name of the field, its tag as the
    key/value pairs that [StructTag.Get] reads, whether the field is
    exported, and whether it is an embedded field. *)
Record StructField := mkField {
  Name : string;
  Tag : list (string * string);
  Exported : bool;
  Embedded : bool
}.

(** The read-only flags of a [reflect.Value].  [Value.Field] hands the
    sticky flag of the struct down to the field and adds, for a field
    that is not exported, the sticky flag, or the embedded flag when the
    field is embedded (reflect since Go 1.6; before, every field below
    an unexported one was read-only).  A setter panics on a value that
    has either flag. *)
Inductive Access := ReadWrite | EmbedRO | StickyRO.

Definition canSet (a : Access) : bool :=
  match a with ReadWrite => true | _ => false end.

Definition fieldAccess (parent : Access) (f : StructField) : Access :=
  let inherited := match parent with StickyRO => StickyRO | _ => ReadWrite end in
  if Exported f then inherited
  else if Embedded f
       then match inherited with StickyRO => StickyRO | _ => EmbedRO end
       else StickyRO.

(** The destination, a [reflect.Value]: its kind, and for the kinds the
    decoder sets, what it holds. *)
Inductive Dst :=
| DBool (b : bool)
| DInt (k : Kind) (i : Z)
| DFloat32 (f : spec_float)
| DFloat64 (f : float64)
| DString (s : string)
| DInterface (isEmpty : bool)
| DMap
| DSlice
| DStruct (fields : list (StructField * Dst))
| DOther (k : OtherKind).

(** What a call comes to: it returns, with the destination as the call
    left it and the error, or it panics. *)
Inductive run (A : Type) :=
| Returned (dst : A) (err : option error)
| Panicked.

Arguments Returned {A} dst err.
Arguments Panicked {A}.

(** [StructTag.Get]. *)
Fixpoint Get (tag : list (string * string)) (key : string) : string :=
  match tag with
  | [] => EmptyString
  | (k, v) :: tag' => if String.eqb k key then v else Get tag' key
  end.

(** [strings.Split(s, ",")[0]]: the text in front of the first comma. *)
Fixpoint firstOfSplit (s : string) : string :=
  match s with
  | EmptyString => EmptyString
  | String.String c s' =>
      if Ascii.eqb c "," then EmptyString else String.String c (firstOfSplit s')
  end.

(** [m[name]] *)
Fixpoint lookup (name : string) (m : list (string * Value)) : option Value :=
  match m with
  | [] => None
  | (k, v) :: m' => if String.eqb k name then Some v else lookup name m'
  end.

(** [float32(f)], rounding to nearest even. *)
Definition toFloat32 (f : float64) : spec_float :=
  match f with
  | S754_finite s m e => binary_normalize 24 128 (cond_Zopp s (Zpos m)) e s
  | _ => f
  end.

Definition isTypeArray (t : TypeID) : bool :=
  match t with TypeArray => true | _ => false end.

Section Decoding.

Variable L : Library.

(** The loop of [toSnakeCase] over the words, writing to [buf]. *)
Fixpoint writeWords (first : bool) (words : list string) (buf : string)
  : string :=
  match words with
  | [] => buf
  | w :: words' =>
      let buf := if first then buf else buf ++ "_" in
      writeWords false words' (buf ++ ToLower L w)
  end.

Definition toSnakeCase (name : string) : string :=
  writeWords true (camelcaseSplit L name) EmptyString.

(** [d.config.TagName] *)
Variable tagName : string.

(** The key under which [decodeStruct] looks a field up. *)
Definition fieldKey (f : StructField) : string :=
  let name := TrimSpace L (firstOfSplit (Get (Tag f) tagName)) in
  if String.eqb name EmptyString then toSnakeCase (Name f) else name.

(** [dst.SetBool], [dst.SetFloat], [dst.SetString]: each panics on a
    destination that cannot be set or is of another kind. *)
Definition SetBool (a : Access) (dst : Dst) (b : bool) : run Dst :=
  match dst with
  | DBool _ => if canSet a then Returned (DBool b) None else Panicked
  | _ => Panicked
  end.

Definition SetFloat (a : Access) (dst : Dst) (f : float64) : run Dst :=
  match dst with
  | DFloat32 _ => if canSet a then Returned (DFloat32 (toFloat32 f)) None
                  else Panicked
  | DFloat64 _ => if canSet a then Returned (DFloat64 f) None else Panicked
  | _ => Panicked
  end.

Definition SetString (a : Access) (dst : Dst) (s : string) : run Dst :=
  match dst with
  | DString _ => if canSet a then Returned (DString s) None else Panicked
  | _ => Panicked
  end.

Definition decodeBool (src : Value) (dst : Dst) (a : Access)
           (weaklyTyped : bool) : run Dst :=
  let '(b, err) := if weaklyTyped then ToBool L src else AsBool L src in
  match err with
  | Some e => Returned dst (Some e)
  | None => SetBool a dst b
  end.

(** [decodeInt] on a field of an integer kind. *)
Definition decodeIntField (src : Value) (dst : Dst) (a : Access)
           (weaklyTyped : bool) : run Dst :=
  match dst with
  | DInt k _ =>
      match decodeInt (AsInt L) (ToInt L) (AsFloat L) (overflow L) (intSize L)
                      src k weaklyTyped with
      | Failed e => Returned dst (Some e)
      | Stored i => if canSet a then Returned (DInt k i) None else Panicked
      | Panics => Panicked
      end
  | _ => Panicked
  end.

Definition decodeFloat (src : Value) (dst : Dst) (a : Access)
           (weaklyTyped : bool) : run Dst :=
  let '(f, err) := if weaklyTyped then ToFloat L src else AsFloat L src in
  match err with
  | Some e => Returned dst (Some e)
  | None => SetFloat a dst f
  end.

Definition decodeString (src : Value) (dst : Dst) (a : Access)
           (weaklyTyped : bool) : run Dst :=
  let '(s, err) := if weaklyTyped then ToString L src else AsString L src in
  match err with
  | Some e => Returned dst (Some e)
  | None => SetString a dst s
  end.

Definition decodeInterface (src : Value) (dst : Dst) : run Dst :=
  Returned dst (Some "not implemented yet").

Definition decodeMap (src : Value) (dst : Dst) (weaklyTyped : bool) : run Dst :=
  Returned dst (Some "not implemented yet").

Definition decodeSlice (src : Value) (dst : Dst) (weaklyTyped : bool)
  : run Dst :=
  if isTypeArray (Type_ src)
  then Returned dst (Some "not implemented yet")
  else Returned dst (Some ("cannot decode to an array: "
                           ++ typeString L (Type_ src))).

Section Fields.

(** [d.decode(src, dst.Field(i), false)], given the flags of the
    field. *)
Variable decodeField : Value -> Dst -> Access -> run Dst.

(** The loop of [decodeStruct] over the fields, in their order; [a] is
    the access to the struct. *)
Fixpoint decodeFields (m : list (string * Value)) (a : Access)
         (fs : list (StructField * Dst)) : run (list (StructField * Dst)) :=
  match fs with
  | [] => Returned [] None
  | (f, d) :: fs' =>
      match lookup (fieldKey f) m with
      | None =>
          (* TODO: check required *)
          match decodeFields m a fs' with
          | Returned fs'' err => Returned ((f, d) :: fs'') err
          | Panicked => Panicked
          end
      | Some src =>
          match decodeField src d (fieldAccess a f) with
          | Returned d' (Some e) => Returned ((f, d') :: fs') (Some e)
          | Returned d' None =>
              match decodeFields m a fs' with
              | Returned fs'' err => Returned ((f, d') :: fs'') err
              | Panicked => Panicked
              end
          | Panicked => Panicked
          end
      end
  end.

Definition decodeStructWith (src : Value) (dst : Dst) (a : Access)
  : run Dst :=
  let '(m, err) := AsMap L src in
  match err with
  | Some _ => Returned dst (Some "struct can only be decoded from a map")
  | None =>
      match dst with
      | DStruct fields =>
          match decodeFields m a fields with
          | Returned fields' err => Returned (DStruct fields') err
          | Panicked => Panicked
          end
      | _ => Panicked
      end
  end.

End Fields.

Fixpoint decode (src : Value) (dst : Dst) (a : Access) (weaklyTyped : bool)
         {struct dst} : run Dst :=
  match dst with
  | DBool _ => decodeBool src dst a weaklyTyped
  | DInt _ _ =>
      (* TODO: support detecting overflows *)
      decodeIntField src dst a weaklyTyped
  | DFloat32 _ | DFloat64 _ => decodeFloat src dst a weaklyTyped
  | DString _ => decodeString src dst a weaklyTyped
  | DInterface isEmpty =>
      if negb isEmpty
      then Returned dst (Some "only empty interface{} is supported")
      else decodeInterface src dst
  | DMap => decodeMap src dst weaklyTyped
  | DSlice => decodeSlice src dst weaklyTyped
  | DStruct _ =>
      decodeStructWith (fun v d a' => decode v d a' false) src dst a
  | DOther k =>
      Returned dst (Some ("decoder doesn't support the type: " ++ kindString k))
  end.

Definition decodeStruct (src : Value) (dst : Dst) (a : Access) : run Dst :=
  decodeStructWith (fun v d a' => decode v d a' false) src dst a.

End Decoding.

(** The argument [v interface{}] of [Decode]. *)
Inductive Target :=
| NotPointer
| NilPointer
| PointerTo (d : Dst).

Definition isStruct (d : Dst) : bool :=
  match d with DStruct _ => true | _ => false end.

(** [(d *Decoder) Decode]: the struct behind the pointer can be set. *)
Definition DecoderDecode (L : Library) (d : Decoder)
           (m : list (string * Value)) (v : Target) : run Target :=
  match v with
  | NotPointer => Returned v (Some "result must be a pointer to a struct")
  | NilPointer => Returned v (Some "result must be pointer to a struct")
  | PointerTo s =>
      if negb (isStruct s)
      then Returned v (Some "result must be pointer to a struct")
      else
        match decodeStruct L (TagName (config d)) (Map m) s ReadWrite with
        | Returned s' err => Returned (PointerTo s') err
        | Panicked => Panicked
        end
  end.

(** The package-level [Decode]. *)
Definition Decode (L : Library) (m : list (string * Value)) (v : Target)
  : run Target :=
  DecoderDecode L (NewDecoder None) m v.

(** Induction on destinations: a property that holds of every
    destination that is not a struct, and of a struct when it holds of
    the values of its fields, holds of every destination. *)
Section DstInduction.

Variable P : Dst -> Prop.
Hypothesis Hleaf : forall d, isStruct d = false -> P d.
Hypothesis Hstruct :
  forall fs, Forall (fun fd => P (snd fd)) fs -> P (DStruct fs).

Fixpoint Dst_nested_ind (d : Dst) : P d :=
  match d with
  | DStruct fs =>
      @Hstruct fs
        ((fix each (fs : list (StructField * Dst))
            : Forall (fun fd => P (snd fd)) fs :=
            match fs with
            | [] => Forall_nil _
            | (f, d') :: fs' =>
                Forall_cons (f, d') (Dst_nested_ind d') (each fs')
            end) fs)
  | d' => @Hleaf d' eq_refl
  end.

End DstInduction.

(** The destinations [decode] answers with an error, whatever the
    source: interfaces, maps, slices, and the kinds it has no case for. *)
Definition unsupported (d : Dst) : bool :=
  match d with
  | DInterface _ | DMap | DSlice | DOther _ => true
  | _ => false
  end.

(** The library with other weakly typed casts. *)
Definition withWeakCasts (L : Library)
           (toBool : Value -> bool * option error)
           (toInt : Value -> Z * option error)
           (toFloat : Value -> float64 * option error)
           (toString : Value -> string * option error) : Library :=
  mkLibrary (AsBool L) toBool (AsInt L) toInt (AsFloat L) toFloat
            (AsString L) toString (AsMap L) (typeString L) (TrimSpace L)
            (ToLower L) (camelcaseSplit L) (overflow L) (intSize L).

(** A text without a comma. *)
Fixpoint noComma (s : string) : bool :=
  match s with
  | EmptyString => true
  | String.String c s' => negb (Ascii.eqb c ",") && noComma s'
  end.

(** Modelled from the spec: the strict casts of the value system, each
    taking the values of its own type and nothing else. *)
Definition AsBoolStrict (v : Value) : bool * option error :=
  match v with
  | Bool b => (b, None)
  | _ => (false, Some castError)
  end.

Definition AsStringStrict (v : Value) : string * option error :=
  match v with
  | String s => (s, None)
  | _ => (EmptyString, Some castError)
  end.

Definition AsMapStrict (v : Value) : list (string * Value) * option error :=
  match v with
  | Map m => (m, None)
  | _ => ([], Some castError)
  end.

(** Modelled from the spec: the printed names of the value types. *)
Definition typeStringLower (t : TypeID) : string :=
  match t with
  | TypeNull => "null"
  | TypeBool => "bool"
  | TypeInt => "int"
  | TypeFloat => "float"
  | TypeString => "string"
  | TypeArray => "array"
  | TypeMap => "map"
  end.

(** A library for the examples: the strict casts (also where a weakly
    typed cast is asked for) on a 64-bit platform.  The examples use
    names that are one lower-case word with no blanks around it, on which
    [strings.TrimSpace] and [strings.ToLower] change nothing and
    [camelcase.Split] gives the one word. *)
Definition exampleLibrary : Library :=
  mkLibrary AsBoolStrict AsBoolStrict AsIntStrict AsIntStrict
            AsFloatStrict AsFloatStrict AsStringStrict AsStringStrict
            AsMapStrict typeStringLower (fun s => s) (fun s => s)
            (fun s => [s]) minInt64 64.

(** A field as the examples declare it: exported, not embedded, with
    the tag [bql:"tag"]. *)
Definition exampleField (name tag : string) : StructField :=
  mkField name [("bql", tag)] true false.

End Decoder.

(** * Properties *)

Import Peg.
Local Open Scope peg_scope.

(** ** The binary-operation reduction *)

Section BinaryOperation.

Lemma collectFrom_span (b e : nat) (below : parseStack) :
  (match below with f :: _ => inSpan b e f = false | [] => True end) ->
  forall (frags : list ParsedComponent) (acc : list Component),
    forallb (inSpan b e) frags = true ->
    collectFrom b e (rev frags ++ below) acc = (map comp frags ++ acc, below).
Proof.
  intros Hbelow frags.
  induction frags as [|f frags IH] using rev_ind; intros acc Hin.
  - simpl. destruct below as [|g below']; [reflexivity|].
    simpl. now rewrite Hbelow.
  - rewrite forallb_app in Hin. apply andb_prop in Hin as [Hfr Hf].
    simpl in Hf. rewrite andb_true_r in Hf.
    rewrite rev_app_distr. simpl. rewrite Hf.
    rewrite IH by assumption.
    now rewrite map_app, <- app_assoc.
Qed.

Lemma collectElements_span (b e : nat) (frags : list ParsedComponent)
      (below : parseStack) :
  forallb (inSpan b e) frags = true ->
  (match below with f :: _ => inSpan b e f = false | [] => True end) ->
  collectElements b e (rev frags ++ below) = (map comp frags, below).
Proof.
  intros Hin Hbelow. unfold collectElements.
  rewrite collectFrom_span by assumption. now rewrite app_nil_r.
Qed.


End BinaryOperation.

(** The cases of TestAssembleBinaryOperation. *)
Example test_one_item :
  AssembleBinaryOperation 2 3
    (PushComponent 2 3 (Ast.ColumnName (runes "a"))
       (PushComponent 0 2 (Raw (runes "PRE")) []))
  = Done [mkPC 2 3 (Ast.ColumnName (runes "a")); mkPC 0 2 (Raw (runes "PRE"))].
Proof. reflexivity. Qed.

Example test_three_items :
  AssembleBinaryOperation 2 5
    (PushComponent 4 5 (Ast.ColumnName (runes "b"))
       (PushComponent 3 4 (Op Ast.Plus)
          (PushComponent 2 3 (Ast.ColumnName (runes "a"))
             (PushComponent 0 2 (Raw (runes "PRE")) []))))
  = Done [mkPC 2 5 (BinaryOpAST Ast.Plus (Ast.ColumnName (runes "a"))
                                (Ast.ColumnName (runes "b")));
          mkPC 0 2 (Raw (runes "PRE"))].
Proof. reflexivity. Qed.

Example test_no_items :
  AssembleBinaryOperation 4 5 (PushComponent 2 3 (Ast.ColumnName (runes "a")) [])
  = InvariantViolation.
Proof. reflexivity. Qed.

Example test_not_enough_items :
  AssembleBinaryOperation 2 7
    (PushComponent 6 7 (Ast.ColumnName (runes "c"))
       (PushComponent 2 3 (Ast.ColumnName (runes "a")) []))
  = InvariantViolation.
Proof. reflexivity. Qed.

Example test_wrong_items :
  AssembleBinaryOperation 2 7
    (PushComponent 6 7 (Ast.ColumnName (runes "c"))
       (PushComponent 4 5 (Ast.ColumnName (runes "b"))
          (PushComponent 2 3 (Ast.ColumnName (runes "a")) [])))
  = InvariantViolation.
Proof. reflexivity. Qed.

Example test_too_many_items :
  AssembleBinaryOperation 2 8
    (PushComponent 7 8 (Ast.ColumnName (runes "c"))
       (PushComponent 5 6 (Op Ast.Plus)
          (PushComponent 4 5 (Ast.ColumnName (runes "b"))
             (PushComponent 2 3 (Ast.ColumnName (runes "a")) []))))
  = InvariantViolation.
Proof. reflexivity. Qed.

(** C1.  For every stack and target span, AssembleBinaryOperation goes by
    the number of fragments in the span.  With [frags] the fragments of the
    span (bottom first) on top of [below]: one fragment is passed through
    with its payload unchanged; three fragments (operand, operator,
    operand) are replaced by one binary node whose Left, Op and Right are
    the three payloads in their original order, under the target span; any
    other count, and three fragments of another shape, is an invariant
    violation. *)
Theorem AssembleBinaryOperation_by_count :
  forall (b e : nat) (frags : list ParsedComponent) (below : parseStack),
    forallb (inSpan b e) frags = true ->
    (match below with f :: _ => inSpan b e f = false | [] => True end) ->
    (forall f, frags = [f] ->
       AssembleBinaryOperation b e (rev frags ++ below)
       = Done (mkPC b e (comp f) :: below))
    /\ (forall l o r op,
          frags = [l; o; r] ->
          isExpression (comp l) = true -> comp o = Op op ->
          isExpression (comp r) = true ->
          AssembleBinaryOperation b e (rev frags ++ below)
          = Done (mkPC b e (BinaryOpAST op (comp l) (comp r)) :: below))
    /\ (length frags <> 1 -> length frags <> 3 ->
        AssembleBinaryOperation b e (rev frags ++ below) = InvariantViolation)
    /\ (forall l o r,
          frags = [l; o; r] ->
          isExpression (comp l) && isOperator (comp o) && isExpression (comp r)
          = false ->
          AssembleBinaryOperation b e (rev frags ++ below) = InvariantViolation).
Proof.
  intros b e frags below Hin Hbelow.
  unfold AssembleBinaryOperation.
  rewrite (collectElements_span _ _ _ _ Hin Hbelow).
  repeat split.
  - intros f ->. reflexivity.
  - intros l o r op -> Hl Ho Hr. simpl. now rewrite Ho, Hl, Hr.
  - intros H1 H3.
    destruct frags as [|f1 [|f2 [|f3 [|f4 frags]]]]; simpl in *;
      try congruence; try reflexivity.
    + destruct (comp f2); reflexivity.
    + destruct (comp f2); reflexivity.
  - intros l o r -> Hshape. simpl.
    destruct (comp o); simpl in Hshape;
      try reflexivity.
    rewrite andb_true_r in Hshape. now rewrite Hshape.
Qed.

Lemma AssembleBinaryOperation_by_count_witness :
  AssembleBinaryOperation 2 5
    (rev [mkPC 2 3 (Ast.ColumnName (runes "a")); mkPC 3 4 (Op Ast.Plus);
          mkPC 4 5 (Ast.ColumnName (runes "b"))]
     ++ [mkPC 0 2 (Raw (runes "PRE"))])
  = Done [mkPC 2 5 (BinaryOpAST Ast.Plus (Ast.ColumnName (runes "a"))
                                (Ast.ColumnName (runes "b")));
          mkPC 0 2 (Raw (runes "PRE"))].
Proof.
  exact (proj1 (proj2
    (AssembleBinaryOperation_by_count 2 5
       [mkPC 2 3 (Ast.ColumnName (runes "a")); mkPC 3 4 (Op Ast.Plus);
        mkPC 4 5 (Ast.ColumnName (runes "b"))]
       [mkPC 0 2 (Raw (runes "PRE"))] eq_refl eq_refl))
    _ _ _ Ast.Plus eq_refl eq_refl eq_refl eq_refl).
Defined.

(** ** Parsers move forward, return, and do not depend on the budget *)

Section Combinators.

Lemma advances_length (p : parser) :
  advances p ->
  forall c c' a, p c = Match c' a ->
    length (remaining c') <= length (remaining c).
Proof.
  intros Hp c c' a H. destruct (Hp _ _ _ H) as (u & Hu & _).
  rewrite Hu, length_app. lia.
Qed.

Lemma advances_empty : advances empty.
Proof.
  intros c c' a H. injection H as <- _. exists []. simpl. split; [reflexivity|lia].
Qed.

Lemma advances_matchDot : advances matchDot.
Proof.
  intros [n r] c' a. unfold matchDot. simpl.
  destruct r as [|x r]; [discriminate|].
  intros H. injection H as <- _. exists [x]. simpl. split; [reflexivity|lia].
Qed.

Lemma advances_matchClass (f : rune -> bool) : advances (matchClass f).
Proof.
  intros [n r] c' a. unfold matchClass. simpl.
  destruct r as [|x r]; [discriminate|].
  destruct (f x); [|discriminate].
  intros H. injection H as <- _. exists [x]. simpl. split; [reflexivity|lia].
Qed.

Lemma advances_seq (p q : parser) :
  advances p -> advances q -> advances (p ;; q).
Proof.
  intros Hp Hq c c' a. unfold seq.
  destruct (p c) as [| |c1 a1] eqn:E1; try discriminate.
  destruct (q c1) as [| |c2 a2] eqn:E2; try discriminate.
  intros H. injection H as <- _.
  destruct (Hp _ _ _ E1) as (u1 & Hu1 & Hp1).
  destruct (Hq _ _ _ E2) as (u2 & Hu2 & Hp2).
  exists (u1 ++ u2). rewrite Hu1, Hu2, <- app_assoc, length_app.
  split; [reflexivity|lia].
Qed.

Lemma advances_alt (p q : parser) :
  advances p -> advances q -> advances (p // q).
Proof.
  intros Hp Hq c c' a. unfold alt.
  destruct (p c) as [| |c1 a1] eqn:E1; try discriminate.
  - apply Hq.
  - intros H. injection H as <- <-. eapply Hp; eassumption.
Qed.

Lemma advances_opt (p : parser) : advances p -> advances (opt p).
Proof. intros Hp. apply advances_alt; [assumption|apply advances_empty]. Qed.

Lemma advances_notp (p : parser) : advances (notp p).
Proof.
  intros c c' a. unfold notp. destruct (p c); try discriminate.
  apply advances_empty.
Qed.

Lemma advances_starLoop (p : parser) :
  advances p -> forall n, advances (starLoop p n).
Proof.
  intros Hp n. induction n as [|n IH]; intros c c' a; simpl;
    destruct (p c) as [| |c1 a1] eqn:E1; try discriminate;
    try apply advances_empty.
  destruct (starLoop p n c1) as [| |c2 a2] eqn:E2; try discriminate.
  intros H. injection H as <- _.
  destruct (Hp _ _ _ E1) as (u1 & Hu1 & Hp1).
  destruct (IH _ _ _ E2) as (u2 & Hu2 & Hp2).
  exists (u1 ++ u2). rewrite Hu1, Hu2, <- app_assoc, length_app.
  split; [reflexivity|lia].
Qed.

Lemma advances_star (p : parser) : advances p -> advances (star p).
Proof. intros Hp c. unfold star. now apply advances_starLoop. Qed.

Lemma advances_plus (p : parser) : advances p -> advances (plus p).
Proof. intros Hp. apply advances_seq; [|apply advances_star]; assumption. Qed.

Lemma advances_matchChar (x : rune) : advances (matchChar x).
Proof. apply advances_matchClass. Qed.

Lemma advances_matchString (s : text) : advances (matchString s).
Proof.
  induction s as [|x s IH]; simpl;
    [apply advances_empty | apply advances_seq; [apply advances_matchChar|exact IH]].
Qed.

Lemma advances_matchCharCI (x : rune) : advances (matchCharCI x).
Proof. apply advances_alt; apply advances_matchChar. Qed.

Lemma advances_matchStringCI (s : text) : advances (matchStringCI s).
Proof.
  induction s as [|x s IH]; simpl;
    [apply advances_empty | apply advances_seq; [apply advances_matchCharCI|exact IH]].
Qed.

Lemma advances_capture (p : parser) k : advances p -> advances (capture p k).
Proof.
  intros Hp c c' a. unfold capture.
  destruct (p c) as [| |c1 a1] eqn:E1; try discriminate.
  intros H. injection H as <- _. eapply Hp; eassumption.
Qed.

Lemma advances_action (p : parser) x : advances p -> advances (action p x).
Proof.
  intros Hp c c' a. unfold action.
  destruct (p c) as [| |c1 a1] eqn:E1; try discriminate.
  intros H. injection H as <- _. eapply Hp; eassumption.
Qed.

(** Consuming parsers. *)

Lemma consumes_matchDot : consumes matchDot.
Proof.
  intros [n r] c' a. unfold matchDot. simpl.
  destruct r as [|x r]; [discriminate|].
  intros H. injection H as <- _. simpl. lia.
Qed.

Lemma consumes_matchClass (f : rune -> bool) : consumes (matchClass f).
Proof.
  intros [n r] c' a. unfold matchClass. simpl.
  destruct r as [|x r]; [discriminate|].
  destruct (f x); [|discriminate].
  intros H. injection H as <- _. simpl. lia.
Qed.

Lemma consumes_matchChar (x : rune) : consumes (matchChar x).
Proof. apply consumes_matchClass. Qed.

Lemma consumes_seq_l (p q : parser) :
  consumes p -> advances q -> consumes (p ;; q).
Proof.
  intros Hp Hq c c' a. unfold seq.
  destruct (p c) as [| |c1 a1] eqn:E1; try discriminate.
  destruct (q c1) as [| |c2 a2] eqn:E2; try discriminate.
  intros H. injection H as <- _.
  pose proof (Hp _ _ _ E1). pose proof (advances_length Hq _ E2). lia.
Qed.

Lemma consumes_seq_r (p q : parser) :
  advances p -> consumes q -> consumes (p ;; q).
Proof.
  intros Hp Hq c c' a. unfold seq.
  destruct (p c) as [| |c1 a1] eqn:E1; try discriminate.
  destruct (q c1) as [| |c2 a2] eqn:E2; try discriminate.
  intros H. injection H as <- _.
  pose proof (Hq _ _ _ E2). pose proof (advances_length Hp _ E1). lia.
Qed.

Lemma consumes_alt (p q : parser) :
  consumes p -> consumes q -> consumes (p // q).
Proof.
  intros Hp Hq c c' a. unfold alt.
  destruct (p c) as [| |c1 a1] eqn:E1; try discriminate.
  - apply Hq.
  - intros H. injection H as <- <-. eapply Hp; eassumption.
Qed.

Lemma consumes_plus (p : parser) : consumes p -> advances p -> consumes (plus p).
Proof.
  intros Hc Ha. apply consumes_seq_l; [assumption|now apply advances_star].
Qed.

Lemma consumes_matchCharCI (x : rune) : consumes (matchCharCI x).
Proof. apply consumes_alt; apply consumes_matchChar. Qed.

Lemma consumes_matchString (x : rune) (s : text) : consumes (matchString (x :: s)).
Proof.
  simpl. apply consumes_seq_l;
    [apply consumes_matchChar|apply advances_matchString].
Qed.

Lemma consumes_matchStringCI (x : rune) (s : text) :
  consumes (matchStringCI (x :: s)).
Proof.
  simpl. apply consumes_seq_l;
    [apply consumes_matchCharCI|apply advances_matchStringCI].
Qed.

Lemma consumes_capture (p : parser) k : consumes p -> consumes (capture p k).
Proof.
  intros Hp c c' a. unfold capture.
  destruct (p c) as [| |c1 a1] eqn:E1; try discriminate.
  intros H. injection H as <- _. eapply Hp; eassumption.
Qed.

Lemma consumes_action (p : parser) x : consumes p -> consumes (action p x).
Proof.
  intros Hp c c' a. unfold action.
  destruct (p c) as [| |c1 a1] eqn:E1; try discriminate.
  intros H. injection H as <- _. eapply Hp; eassumption.
Qed.

End Combinators.

Section Totality.

Variable L : nat.

Lemma totalBelow_empty : totalBelow L empty.
Proof. intros c _. discriminate. Qed.

Lemma totalBelow_matchDot : totalBelow L matchDot.
Proof. intros c _. unfold matchDot. destruct (remaining c); discriminate. Qed.

Lemma totalBelow_matchClass (f : rune -> bool) : totalBelow L (matchClass f).
Proof.
  intros c _. unfold matchClass.
  destruct (remaining c) as [|x r]; [discriminate|]. destruct (f x); discriminate.
Qed.

Lemma totalBelow_matchChar (x : rune) : totalBelow L (matchChar x).
Proof. apply totalBelow_matchClass. Qed.

Lemma totalBelow_seq (p q : parser) :
  totalBelow L p -> advances p -> totalBelow L q -> totalBelow L (p ;; q).
Proof.
  intros Hp Ha Hq c Hc. unfold seq.
  destruct (p c) as [| |c1 a1] eqn:E1; try discriminate.
  - now apply Hp in E1.
  - pose proof (advances_length Ha _ E1).
    destruct (q c1) as [| |c2 a2] eqn:E2; try discriminate.
    apply Hq in E2; [contradiction|lia].
Qed.

Lemma totalBelow_alt (p q : parser) :
  totalBelow L p -> totalBelow L q -> totalBelow L (p // q).
Proof.
  intros Hp Hq c Hc. unfold alt.
  destruct (p c) as [| |c1 a1] eqn:E1; try discriminate.
  - now apply Hp in E1.
  - now apply Hq.
Qed.

Lemma totalBelow_opt (p : parser) : totalBelow L p -> totalBelow L (opt p).
Proof. intros Hp. apply totalBelow_alt; [assumption|apply totalBelow_empty]. Qed.

Lemma totalBelow_notp (p : parser) : totalBelow L p -> totalBelow L (notp p).
Proof.
  intros Hp c Hc. unfold notp.
  destruct (p c) as [| |c1 a1] eqn:E1; try discriminate.
  now apply Hp in E1.
Qed.

Lemma totalBelow_starLoop (p : parser) :
  totalBelow L p -> consumes p ->
  forall n c, length (remaining c) <= n -> length (remaining c) < L ->
              starLoop p n c <> Diverge.
Proof.
  intros Hp Hc n. induction n as [|n IH]; intros c Hn HL; simpl;
    destruct (p c) as [| |c1 a1] eqn:E1; try discriminate;
    try (now apply Hp in E1).
  - apply Hc in E1. lia.
  - pose proof (Hc _ _ _ E1).
    destruct (starLoop p n c1) as [| |c2 a2] eqn:E2; try discriminate.
    apply IH in E2; [contradiction|lia|lia].
Qed.

Lemma totalBelow_star (p : parser) :
  totalBelow L p -> consumes p -> totalBelow L (star p).
Proof.
  intros Hp Hc c HL. unfold star. now apply totalBelow_starLoop.
Qed.

Lemma totalBelow_plus (p : parser) :
  totalBelow L p -> consumes p -> advances p -> totalBelow L (plus p).
Proof.
  intros Hp Hc Ha. apply totalBelow_seq; [assumption|assumption|].
  now apply totalBelow_star.
Qed.

Lemma totalBelow_matchString (s : text) : totalBelow L (matchString s).
Proof.
  induction s as [|x s IH]; simpl; [apply totalBelow_empty|].
  apply totalBelow_seq;
    [apply totalBelow_matchChar|apply advances_matchChar|exact IH].
Qed.

Lemma totalBelow_matchCharCI (x : rune) : totalBelow L (matchCharCI x).
Proof. apply totalBelow_alt; apply totalBelow_matchChar. Qed.

Lemma totalBelow_matchStringCI (s : text) : totalBelow L (matchStringCI s).
Proof.
  induction s as [|x s IH]; simpl; [apply totalBelow_empty|].
  apply totalBelow_seq;
    [apply totalBelow_matchCharCI|apply advances_matchCharCI|exact IH].
Qed.

Lemma totalBelow_capture (p : parser) k :
  totalBelow L p -> totalBelow L (capture p k).
Proof.
  intros Hp c Hc. unfold capture.
  destruct (p c) as [| |c1 a1] eqn:E1; try discriminate.
  now apply Hp in E1.
Qed.

Lemma totalBelow_action (p : parser) x :
  totalBelow L p -> totalBelow L (action p x).
Proof.
  intros Hp c Hc. unfold action.
  destruct (p c) as [| |c1 a1] eqn:E1; try discriminate.
  now apply Hp in E1.
Qed.

End Totality.

(** After a parser that consumes, the rest of a sequence only has to
    return on shorter texts. *)
Lemma totalBelow_guarded (L : nat) (p q : parser) :
  totalBelow (S L) p -> consumes p -> totalBelow L q ->
  totalBelow (S L) (p ;; q).
Proof.
  intros Hp Hc Hq c HL. unfold seq.
  destruct (p c) as [| |c1 a1] eqn:E1; try discriminate.
  - now apply Hp in E1.
  - pose proof (Hc _ _ _ E1).
    destruct (q c1) as [| |c2 a2] eqn:E2; try discriminate.
    apply Hq in E2; [contradiction|lia].
Qed.

Section Refinement.

Lemma refines_refl (p : parser) : refines p p.
Proof. intros c. now right. Qed.

Lemma refines_seq (p p' q q' : parser) :
  refines p p' -> refines q q' -> refines (p ;; q) (p' ;; q').
Proof.
  intros Hp Hq c. unfold seq.
  destruct (Hp c) as [-> | <-]; [now left|].
  destruct (p c) as [| |c1 a1]; [now left|now right|].
  destruct (Hq c1) as [-> | <-]; [now left|now right].
Qed.

Lemma refines_alt (p p' q q' : parser) :
  refines p p' -> refines q q' -> refines (p // q) (p' // q').
Proof.
  intros Hp Hq c. unfold alt.
  destruct (Hp c) as [-> | <-]; [now left|].
  destruct (p c) as [| |c1 a1]; [now left| |now right].
  apply Hq.
Qed.

Lemma refines_opt (p p' : parser) : refines p p' -> refines (opt p) (opt p').
Proof. intros Hp. apply refines_alt; [assumption|apply refines_refl]. Qed.

Lemma refines_notp (p p' : parser) : refines p p' -> refines (notp p) (notp p').
Proof.
  intros Hp c. unfold notp.
  destruct (Hp c) as [-> | <-]; [now left|now right].
Qed.

Lemma refines_starLoop (p p' : parser) :
  refines p p' -> forall n, refines (starLoop p n) (starLoop p' n).
Proof.
  intros Hp n. induction n as [|n IH]; intros c; simpl.
  - destruct (Hp c) as [-> | <-]; [now left|now right].
  - destruct (Hp c) as [-> | <-]; [now left|].
    destruct (p c) as [| |c1 a1]; [now left|now right|].
    destruct (IH c1) as [-> | <-]; [now left|now right].
Qed.

Lemma refines_star (p p' : parser) : refines p p' -> refines (star p) (star p').
Proof. intros Hp c. unfold star. now apply refines_starLoop. Qed.

Lemma refines_capture (p p' : parser) k :
  refines p p' -> refines (capture p k) (capture p' k).
Proof.
  intros Hp c. unfold capture.
  destruct (Hp c) as [-> | <-]; [now left|now right].
Qed.

Lemma refines_action (p p' : parser) x :
  refines p p' -> refines (action p x) (action p' x).
Proof.
  intros Hp c. unfold action.
  destruct (Hp c) as [-> | <-]; [now left|now right].
Qed.

Lemma refines_trans (p q r : parser) :
  refines p q -> refines q r -> refines p r.
Proof.
  intros Hpq Hqr c.
  destruct (Hpq c) as [-> | ->]; [now left|apply Hqr].
Qed.

End Refinement.

(** Proof search over the shape of a rule: a combinator is handled by its
    lemma, a rule name is unfolded. *)

Ltac head t := lazymatch t with ?f _ => head f | _ => t end.

Ltac unfold_rule p := let h := head p in unfold h.

Ltac advances_tac :=
  lazymatch goal with
  | H : advances ?p |- advances ?p => exact H
  | |- advances (seq _ _) => apply advances_seq; advances_tac
  | |- advances (alt _ _) => apply advances_alt; advances_tac
  | |- advances (opt _) => apply advances_opt; advances_tac
  | |- advances (notp _) => apply advances_notp
  | |- advances (star _) => apply advances_star; advances_tac
  | |- advances (plus _) => apply advances_plus; advances_tac
  | |- advances (capture _ _) => apply advances_capture; advances_tac
  | |- advances (action _ _) => apply advances_action; advances_tac
  | |- advances matchDot => apply advances_matchDot
  | |- advances (matchClass _) => apply advances_matchClass
  | |- advances (matchChar _) => apply advances_matchChar
  | |- advances (matchString _) => apply advances_matchString
  | |- advances (matchStringCI _) => apply advances_matchStringCI
  | |- advances empty => apply advances_empty
  | |- advances ?p => unfold_rule p; advances_tac
  end.

Ltac consumes_tac :=
  lazymatch goal with
  | H : consumes ?p |- consumes ?p => exact H
  | |- consumes (seq _ _) =>
      first [ solve [apply consumes_seq_l; [consumes_tac | advances_tac]]
            | solve [apply consumes_seq_r; [advances_tac | consumes_tac]] ]
  | |- consumes (alt _ _) => apply consumes_alt; consumes_tac
  | |- consumes (plus _) => apply consumes_plus; [consumes_tac | advances_tac]
  | |- consumes (capture _ _) => apply consumes_capture; consumes_tac
  | |- consumes (action _ _) => apply consumes_action; consumes_tac
  | |- consumes matchDot => apply consumes_matchDot
  | |- consumes (matchClass _) => apply consumes_matchClass
  | |- consumes (matchChar _) => apply consumes_matchChar
  | |- consumes (matchString ?s) =>
      let s' := eval cbv in s in
      change (consumes (matchString s')); apply consumes_matchString
  | |- consumes (matchStringCI ?s) =>
      let s' := eval cbv in s in
      change (consumes (matchStringCI s')); apply consumes_matchStringCI
  | |- consumes ?p => unfold_rule p; consumes_tac
  end.

Ltac total_tac :=
  lazymatch goal with
  | H : totalBelow ?L ?p |- totalBelow ?L ?p => exact H
  | |- totalBelow (S _) (seq _ _) =>
      first [ solve [apply totalBelow_seq; [total_tac | advances_tac | total_tac]]
            | solve [apply totalBelow_guarded;
                     [total_tac | consumes_tac | total_tac]] ]
  | |- totalBelow _ (seq _ _) =>
      apply totalBelow_seq; [total_tac | advances_tac | total_tac]
  | |- totalBelow _ (alt _ _) => apply totalBelow_alt; total_tac
  | |- totalBelow _ (opt _) => apply totalBelow_opt; total_tac
  | |- totalBelow _ (notp _) => apply totalBelow_notp; total_tac
  | |- totalBelow _ (star _) =>
      apply totalBelow_star; [total_tac | consumes_tac]
  | |- totalBelow _ (plus _) =>
      apply totalBelow_plus; [total_tac | consumes_tac | advances_tac]
  | |- totalBelow _ (capture _ _) => apply totalBelow_capture; total_tac
  | |- totalBelow _ (action _ _) => apply totalBelow_action; total_tac
  | |- totalBelow _ matchDot => apply totalBelow_matchDot
  | |- totalBelow _ (matchClass _) => apply totalBelow_matchClass
  | |- totalBelow _ (matchChar _) => apply totalBelow_matchChar
  | |- totalBelow _ (matchString _) => apply totalBelow_matchString
  | |- totalBelow _ (matchStringCI _) => apply totalBelow_matchStringCI
  | |- totalBelow _ empty => apply totalBelow_empty
  | |- totalBelow _ ?p => unfold_rule p; total_tac
  end.

Ltac refines_tac :=
  lazymatch goal with
  | |- refines ?p ?q =>
      first
        [ constr_eq p q; apply refines_refl
        | is_var p; assumption
        | lazymatch goal with
          | |- refines (seq _ _) (seq _ _) => apply refines_seq; refines_tac
          | |- refines (alt _ _) (alt _ _) => apply refines_alt; refines_tac
          | |- refines (opt _) (opt _) => apply refines_opt; refines_tac
          | |- refines (notp _) (notp _) => apply refines_notp; refines_tac
          | |- refines (star _) (star _) => apply refines_star; refines_tac
          | |- refines (capture _ _) (capture _ _) =>
              apply refines_capture; refines_tac
          | |- refines (action _ _) (action _ _) =>
              apply refines_action; refines_tac
          | |- refines ?p _ => unfold_rule p; refines_tac
          end ]
  end.

Section RulesBehave.

Variable E : parser.
Hypothesis advances_E : advances E.

Lemma advances_orExpr : advances (orExpr E).
Proof. advances_tac. Qed.

Lemma advances_Statement : advances (Statement E).
Proof. advances_tac. Qed.

Lemma totalBelow_baseExpr (L : nat) :
  totalBelow L E -> totalBelow (S L) (baseExpr E).
Proof. intros HE. total_tac. Qed.

Lemma totalBelow_orExpr (L : nat) :
  totalBelow L E -> totalBelow (S L) (orExpr E).
Proof.
  intros HE. pose proof (totalBelow_baseExpr HE) as Hbase.
  assert (Ha : advances (baseExpr E)) by advances_tac.
  total_tac.
Qed.

Lemma totalBelow_Statement (L : nat) :
  totalBelow L E -> totalBelow L (Statement E).
Proof. intros HE. total_tac. Qed.

End RulesBehave.

Lemma refines_orExpr (E E' : parser) :
  refines E E' -> refines (orExpr E) (orExpr E').
Proof. intros HE. refines_tac. Qed.

Lemma refines_Statement (E E' : parser) :
  refines E E' -> refines (Statement E) (Statement E').
Proof. intros HE. refines_tac. Qed.

Lemma advances_ExpressionN (n : nat) : advances (ExpressionN n).
Proof.
  induction n as [|n IH]; simpl.
  - intros c c' a H. discriminate.
  - now apply advances_orExpr.
Qed.

(** The budget [n] is enough for every text shorter than [n]. *)
Lemma totalBelow_ExpressionN (n : nat) : totalBelow n (ExpressionN n).
Proof.
  induction n as [|n IH]; simpl.
  - intros c Hc. lia.
  - apply totalBelow_orExpr; [apply advances_ExpressionN|exact IH].
Qed.

Lemma refines_ExpressionN_S (n : nat) :
  refines (ExpressionN n) (ExpressionN (S n)).
Proof.
  induction n as [|n IH].
  - intros c. now left.
  - change (refines (orExpr (ExpressionN n)) (orExpr (ExpressionN (S n)))).
    now apply refines_orExpr.
Qed.

Lemma refines_ExpressionN (n m : nat) :
  n <= m -> refines (ExpressionN n) (ExpressionN m).
Proof.
  induction 1 as [|m Hle IH]; [apply refines_refl|].
  eapply refines_trans; [exact IH|apply refines_ExpressionN_S].
Qed.

(** [Expression] returns on every text. *)
Lemma Expression_returns (c : cursor) : Expression c <> Diverge.
Proof.
  unfold Expression, budget. apply totalBelow_ExpressionN. lia.
Qed.

Lemma Statement_returns (s : text) (n : nat) :
  length s < n -> Statement (ExpressionN n) (start s) <> Diverge.
Proof.
  intros Hn.
  apply (totalBelow_Statement (@advances_ExpressionN n)
           (@totalBelow_ExpressionN n)).
  exact Hn.
Qed.

Lemma parseWith_more (s : text) (n m : nat) :
  n <= m -> parseWith n s <> NoAnswer -> parseWith m s = parseWith n s.
Proof.
  intros Hle Hn. unfold parseWith in *.
  destruct (refines_Statement (refines_ExpressionN Hle) (start s)) as [H | H].
  - rewrite H in Hn. congruence.
  - now rewrite H.
Qed.

Lemma finish_answers (acts : list Action) : finish acts <> NoAnswer.
Proof.
  unfold finish. destruct (Execute acts []) as [[|f [|g ps]]|]; discriminate.
Qed.

(** ** Determinism *)

(** C9.  Parsing is a function of the text alone: the parser returns on
    every text, with an AST or with an error, and whatever budget a run is
    given, a run that returns gives that same answer. *)
Theorem parse_deterministic :
  forall (s : text),
    parse s <> NoAnswer
    /\ (forall n, length s < n -> parseWith n s = parse s)
    /\ (forall n m, parseWith n s <> NoAnswer -> parseWith m s <> NoAnswer ->
                    parseWith n s = parseWith m s).
Proof.
  intros s.
  assert (Hret : forall n, length s < n -> parseWith n s <> NoAnswer).
  { intros n Hn. unfold parseWith.
    pose proof (Statement_returns s Hn) as Hs.
    destruct (Statement (ExpressionN n) (start s));
      [congruence | discriminate | apply finish_answers]. }
  assert (Hsame : forall n, parseWith n s <> NoAnswer -> parseWith n s = parse s).
  { intros n Hn. unfold parse.
    destruct (Nat.le_gt_cases n (S (length s))) as [Hle | Hgt].
    - symmetry. now apply parseWith_more.
    - apply parseWith_more; [lia|]. apply Hret. lia. }
  repeat split.
  - apply Hret. lia.
  - intros n Hn. apply Hsame. now apply Hret.
  - intros n m Hn Hm. now rewrite (Hsame n Hn), (Hsame m Hm).
Qed.

Lemma parse_deterministic_witness :
  parseWith 40 (runes "SELECT a FROM s") = parseWith 70 (runes "SELECT a FROM s").
Proof.
  apply (proj2 (proj2 (parse_deterministic (runes "SELECT a FROM s")))).
  - vm_compute. discriminate.
  - vm_compute. discriminate.
Defined.

(** ** Full consumption *)

Lemma start_consumed (p : parser) (s : text) (c : cursor) (acts : list Action) :
  advances p -> p (start s) = Match c acts -> remaining c = [] ->
  c = mkCur (length s) [].
Proof.
  intros Hp H Hnil. destruct (Hp _ _ _ H) as (u & Hu & Hpos).
  destruct c as [n r]. simpl in *. subst r.
  rewrite app_nil_r in Hu. subst u. now rewrite Hpos.
Qed.

Lemma Statement_inv (E : parser) (c c' : cursor) (acts : list Action) :
  Statement E c = Match c' acts ->
  anyStmt E c = Match c' acts /\ remaining c' = [].
Proof.
  unfold Statement, seq, notp, matchDot.
  destruct (anyStmt E c) as [| |c1 a1]; try discriminate.
  destruct (remaining c1) as [|x r] eqn:Hr; try discriminate.
  intros H. injection H as <- <-. now rewrite app_nil_r.
Qed.

(** C4.  A top-level parse succeeds only if one statement consumes the
    entire text: when the parse returns an AST the statement rule has
    matched up to the end of the text, and when a statement matches but
    characters remain after it the parse is a syntax error (no AST). *)
Theorem full_consumption :
  forall (s : text),
    (forall ast, parse s = Tree ast ->
       exists acts,
         Statement (ExpressionN (S (length s))) (start s)
         = Match (mkCur (length s) []) acts)
    /\ (forall c acts,
          anyStmt (ExpressionN (S (length s))) (start s) = Match c acts ->
          remaining c <> [] -> parse s = SyntaxError).
Proof.
  intros s. split.
  - intros ast. unfold parse, parseWith.
    destruct (Statement (ExpressionN (S (length s))) (start s))
      as [| |c acts] eqn:Hs; try discriminate.
    intros _. exists acts.
    destruct (Statement_inv _ _ Hs) as [_ Hnil].
    pose proof (@start_consumed _ s c acts
                  (advances_Statement (@advances_ExpressionN (S (length s))))
                  Hs Hnil) as Hc.
    now rewrite <- Hc.
  - intros c acts Hany Hrest. unfold parse, parseWith, Statement, seq.
    rewrite Hany. unfold notp, matchDot.
    destruct (remaining c); [contradiction|reflexivity].
Qed.

Lemma full_consumption_witness :
  parse (runes "SELECT * FROM s;;") = SyntaxError.
Proof.
  eapply (proj2 (full_consumption (runes "SELECT * FROM s;;"))).
  - vm_compute. reflexivity.
  - discriminate.
Defined.

(** ** Optional clauses *)

Section OptionalClauses.


Lemma seq_fail_first (p q : parser) (c : cursor) :
  p c = Fail -> (p ;; q) c = Fail.
Proof. intros H. unfold seq. now rewrite H. Qed.











Lemma seq_inv (p q : parser) (c c' : cursor) (acts : list Action) :
  (p ;; q) c = Match c' acts ->
  exists c1 a1 a2, p c = Match c1 a1 /\ q c1 = Match c' a2 /\ acts = a1 ++ a2.
Proof.
  unfold seq. destruct (p c) as [| |c1 a1]; try discriminate.
  destruct (q c1) as [| |c2 a2] eqn:Hq; try discriminate.
  intros H. injection H as <- <-. now exists c1, a1, a2.
Qed.


Lemma capture_inv (p : parser) k (c c' : cursor) (acts : list Action) :
  capture p k c = Match c' acts ->
  exists pre,
    p c = Match c' pre
    /\ acts = pre ++ [k (position c) (position c')
                        (firstn (position c' - position c) (remaining c))].
Proof.
  unfold capture. destruct (p c) as [| |c1 a1]; try discriminate.
  intros H. injection H as <- <-. now exists a1.
Qed.


End OptionalClauses.





(** ** Precedence levels *)

(** Comparisons of two given characters are evaluated; those with a
    character of the text are left for rewriting. *)
Ltac eqb_closed :=
  repeat match goal with
         | |- context [N.eqb ?a ?b] =>
             let v := eval vm_compute in (N.eqb a b) in
             match v with
             | true => change (N.eqb a b) with true
             | false => change (N.eqb a b) with false
             end
         end.

Section Levels.

Lemma silent_matchClass (f : rune -> bool) : silent (matchClass f).
Proof.
  intros c c' a. unfold matchClass.
  destruct (remaining c) as [|x r]; [discriminate|].
  destruct (f x); [|discriminate]. intros H. now injection H as _ <-.
Qed.

Lemma silent_empty : silent empty.
Proof. intros c c' a H. now injection H as _ <-. Qed.

Lemma silent_seq (p q : parser) : silent p -> silent q -> silent (p ;; q).
Proof.
  intros Hp Hq c c' a H.
  apply seq_inv in H as (c1 & a1 & a2 & H1 & H2 & ->).
  now rewrite (Hp _ _ _ H1), (Hq _ _ _ H2).
Qed.

Lemma silent_alt (p q : parser) : silent p -> silent q -> silent (p // q).
Proof.
  intros Hp Hq c c' a. unfold alt.
  destruct (p c) as [| |c1 a1] eqn:H1; try discriminate.
  - apply Hq.
  - intros H. injection H as <- <-. eapply Hp; eassumption.
Qed.

Lemma silent_starLoop (p : parser) :
  silent p -> forall n, silent (starLoop p n).
Proof.
  intros Hp n. induction n as [|n IH]; intros c c' a; simpl;
    destruct (p c) as [| |c1 a1] eqn:H1; try discriminate;
    try apply silent_empty.
  destruct (starLoop p n c1) as [| |c2 a2] eqn:H2; try discriminate.
  intros H. injection H as _ <-.
  now rewrite (Hp _ _ _ H1), (IH _ _ _ H2).
Qed.

Lemma silent_star (p : parser) : silent p -> silent (star p).
Proof. intros Hp c. unfold star. now apply silent_starLoop. Qed.

Lemma silent_matchStringCI (s : text) : silent (matchStringCI s).
Proof.
  induction s as [|x s IH]; simpl; [apply silent_empty|].
  apply silent_seq; [|exact IH].
  apply silent_alt; apply silent_matchClass.
Qed.

Lemma silent_sp : silent sp.
Proof.
  apply silent_star. repeat apply silent_alt; apply silent_matchClass.
Qed.

(** An operator rule records the push of its tag and nothing else. *)
Lemma operator_inv (s : string) (op : Operator) (c c' : cursor) (a : list Action) :
  capture (kw s) (push (Op op)) c = Match c' a ->
  a = [DoPushComponent (position c) (position c') (Op op)].
Proof.
  intros H. apply capture_inv in H as (pre & H & ->).
  now rewrite (silent_matchStringCI _ _ H).
Qed.

Lemma level_inv (x o : parser) k (c c' : cursor) (acts : list Action) :
  capture (x ;; sp ;; opt (o ;; sp ;; x)) k c = Match c' acts ->
  exists c1 a1,
    x c = Match c1 a1
    /\ (acts = a1 ++ [k (position c) (position c')
                        (firstn (position c' - position c) (remaining c))]
        \/ exists co co' ao c2 a2,
             o co = Match co' ao
             /\ x c2 = Match c' a2
             /\ acts = a1 ++ ao ++ a2
                          ++ [k (position c) (position c')
                                (firstn (position c' - position c) (remaining c))]).
Proof.
  intros H. apply capture_inv in H as (pre & H & ->).
  apply seq_inv in H as (c1 & a1 & a2 & Hx & H & ->).
  apply seq_inv in H as (c2 & a3 & a4 & Hsp & H & ->).
  rewrite (silent_sp _ Hsp). simpl.
  exists c1, a1. split; [assumption|].
  unfold opt, alt in H.
  destruct ((o ;; sp ;; x) c2) as [| |c3 a5] eqn:Ho; try discriminate.
  - injection H as <- <-. left. now rewrite app_nil_r.
  - injection H as <- <-. right.
    apply seq_inv in Ho as (c4 & ao & a6 & Ho & H & ->).
    apply seq_inv in H as (c5 & a7 & a8 & Hsp' & H & ->).
    rewrite (silent_sp _ Hsp'). simpl.
    exists c2, c4, ao, c5, a8. repeat split; try assumption.
    now rewrite <- !app_assoc.
Qed.

Lemma Or_inv (c c' : cursor) (a : list Action) :
  Or c = Match c' a ->
  exists op, In op [Ast.Or]
             /\ a = [DoPushComponent (position c) (position c') (Op op)].
Proof. intros H. apply operator_inv in H. exists Ast.Or. simpl. tauto. Qed.

Lemma And_inv (c c' : cursor) (a : list Action) :
  And c = Match c' a ->
  exists op, In op [Ast.And]
             /\ a = [DoPushComponent (position c) (position c') (Op op)].
Proof. intros H. apply operator_inv in H. exists Ast.And. simpl. tauto. Qed.

Lemma NotEqual_inv (c c' : cursor) (a : list Action) :
  NotEqual c = Match c' a ->
  a = [DoPushComponent (position c) (position c') (Op Ast.NotEqual)].
Proof.
  intros H. apply capture_inv in H as (pre & H & ->).
  assert (Hs : silent (kw "!=" // kw "<>"))
    by (apply silent_alt; apply silent_matchStringCI).
  now rewrite (Hs _ _ _ H).
Qed.

Ltac alt_cases H :=
  unfold alt in H;
  repeat match type of H with
         | match ?p ?c with _ => _ end = _ =>
             let Hp := fresh "Hp" in
             destruct (p c) eqn:Hp; try discriminate
         end.

Ltac op_case H :=
  first [ apply operator_inv in H | apply NotEqual_inv in H ];
  rewrite H; eexists; split; [|reflexivity]; simpl; tauto.

Ltac op_cases H :=
  alt_cases H;
  first [ op_case H
        | match goal with
          | Hm : _ = Match _ _ |- _ => rewrite H in Hm; op_case Hm
          end ].

Lemma ComparisonOp_inv (c c' : cursor) (a : list Action) :
  ComparisonOp c = Match c' a ->
  exists op,
    In op [Ast.Equal; Ast.NotEqual; Ast.LessOrEqual; Ast.Less;
           Ast.GreaterOrEqual; Ast.Greater]
    /\ a = [DoPushComponent (position c) (position c') (Op op)].
Proof.
  unfold ComparisonOp. intros H. op_cases H.
Qed.

Lemma PlusMinusOp_inv (c c' : cursor) (a : list Action) :
  PlusMinusOp c = Match c' a ->
  exists op, In op [Ast.Plus; Ast.Minus]
             /\ a = [DoPushComponent (position c) (position c') (Op op)].
Proof.
  unfold PlusMinusOp. intros H. op_cases H.
Qed.

Lemma MultDivOp_inv (c c' : cursor) (a : list Action) :
  MultDivOp c = Match c' a ->
  exists op, In op [Ast.Multiply; Ast.Divide; Ast.Modulo]
             /\ a = [DoPushComponent (position c) (position c') (Op op)].
Proof.
  unfold MultDivOp. intros H. op_cases H.
Qed.

Lemma oneOperator_level (x o : parser) (ops : list Operator) :
  (forall c c' a, o c = Match c' a ->
     exists op, In op ops
                /\ a = [DoPushComponent (position c) (position c') (Op op)]) ->
  oneOperator
    (capture (x ;; sp ;; opt (o ;; sp ;; x))
             (fun b e _ => DoAssembleBinaryOperation b e))
    x ops.
Proof.
  intros Ho c c' acts H.
  apply level_inv in H as (c1 & a1 & Hx & [-> | H]).
  - exists c1, a1. split; [assumption|now left].
  - destruct H as (co & co' & ao & c2 & a2 & Hop & Hx2 & ->).
    apply Ho in Hop as (op & Hin & ->).
    exists c1, a1. split; [assumption|right].
    now exists op, (position co), (position co'), c2, a2.
Qed.

(** The other direction: what a level matches. *)

Lemma level_takesOperator (x o : parser) :
  takesOperator
    (capture (x ;; sp ;; opt (o ;; sp ;; x))
             (fun b e _ => DoAssembleBinaryOperation b e))
    x o.
Proof.
  intros c c1 c2 c3 c4 c5 a1 ao a2 H1 H2 H3 H4 H5.
  unfold capture, seq, opt, alt.
  rewrite H1. cbv beta iota. rewrite H2. cbv beta iota.
  rewrite H3. cbv beta iota. rewrite H4. cbv beta iota.
  rewrite H5. cbv beta iota.
  f_equal. cbn [app]. now rewrite <- !app_assoc.
Qed.

Lemma level_takesOperand (x o : parser) :
  takesOperand
    (capture (x ;; sp ;; opt (o ;; sp ;; x))
             (fun b e _ => DoAssembleBinaryOperation b e))
    x o.
Proof.
  intros c c1 c2 a1 H1 H2 H3.
  unfold capture, seq, opt, alt. unfold seq in H3.
  rewrite H1. cbv beta iota. rewrite H2. cbv beta iota.
  rewrite H3. cbv beta iota. unfold empty.
  f_equal. cbn [app]. now rewrite app_nil_r.
Qed.

Lemma level_failsWith (x o : parser) :
  failsWith
    (capture (x ;; sp ;; opt (o ;; sp ;; x))
             (fun b e _ => DoAssembleBinaryOperation b e))
    x.
Proof.
  intros c H. unfold capture, seq. now rewrite H.
Qed.

(** Each operator rule reads the spelling of its operators. *)
Lemma operatorRule_spelling (op : Operator) (p : nat) (rest : text) :
  longer op rest = false ->
  operatorRule op (mkCur p (spelling op ++ rest))
  = Match (mkCur (length (spelling op) + p) rest)
          [DoPushComponent p (length (spelling op) + p) (Op op)].
Proof.
  intros H. destruct op; try reflexivity.
  - destruct rest as [|x rest]; [reflexivity|].
    cbn [longer startsWith] in H. apply orb_false_elim in H as [H1 H2].
    cbv -[N.eqb] in H1, H2.
    repeat (progress (cbv -[N.eqb Nat.sub firstn]; eqb_closed;
                      rewrite ?H1, ?H2)).
    reflexivity.
  - destruct rest as [|x rest]; [reflexivity|].
    cbn [longer startsWith] in H. cbv -[N.eqb] in H.
    repeat (progress (cbv -[N.eqb Nat.sub firstn]; eqb_closed; rewrite ?H)).
    reflexivity.
Qed.

End Levels.

(** C3.  Each binary precedence level (or, and, comparison, additive,
    multiplicative) matches one operand of the next-tighter level,
    optionally followed by one operator of the level and one more operand:
    at most one operator application per level per nesting.  In both
    directions: a match of a level is made of one operand, or of an
    operand, one operator of the level and one more operand; and where
    operand, operator and operand follow one another the level matches the
    three, where only an operand is found the level matches it alone, and
    where no operand is found the level fails.  Every operator is read by
    the rule of its level and becomes the node of its two operands; of two
    operators of different levels the one of the tighter level is the
    inner node, in whichever order they are written; a second operator of
    the same level is not taken without parentheses.  So
    "a + 3 = b OR a = b AND b > 0" has OR as its outermost node, a
    comparison on the left and an AND of comparisons on the right, with +
    below =. *)
Theorem one_operator_per_level :
  (forall E : parser,
      oneOperator (orExpr E) (andExpr E) [Ast.Or]
      /\ oneOperator (andExpr E) (comparisonExpr E) [Ast.And]
      /\ oneOperator (comparisonExpr E) (termExpr E)
           [Ast.Equal; Ast.NotEqual; Ast.LessOrEqual; Ast.Less;
            Ast.GreaterOrEqual; Ast.Greater]
      /\ oneOperator (termExpr E) (productExpr E) [Ast.Plus; Ast.Minus]
      /\ oneOperator (productExpr E) (baseExpr E)
           [Ast.Multiply; Ast.Divide; Ast.Modulo])
  /\ (forall E : parser,
        (takesOperator (orExpr E) (andExpr E) Or
         /\ takesOperand (orExpr E) (andExpr E) Or
         /\ failsWith (orExpr E) (andExpr E))
        /\ (takesOperator (andExpr E) (comparisonExpr E) And
            /\ takesOperand (andExpr E) (comparisonExpr E) And
            /\ failsWith (andExpr E) (comparisonExpr E))
        /\ (takesOperator (comparisonExpr E) (termExpr E) ComparisonOp
            /\ takesOperand (comparisonExpr E) (termExpr E) ComparisonOp
            /\ failsWith (comparisonExpr E) (termExpr E))
        /\ (takesOperator (termExpr E) (productExpr E) PlusMinusOp
            /\ takesOperand (termExpr E) (productExpr E) PlusMinusOp
            /\ failsWith (termExpr E) (productExpr E))
        /\ (takesOperator (productExpr E) (baseExpr E) MultDivOp
            /\ takesOperand (productExpr E) (baseExpr E) MultDivOp
            /\ failsWith (productExpr E) (baseExpr E)))
  /\ (forall (op : Operator) (p : nat) (rest : text),
        longer op rest = false ->
        operatorRule op (mkCur p (spelling op ++ rest))
        = Match (mkCur (length (spelling op) + p) rest)
                [DoPushComponent p (length (spelling op) + p) (Op op)])
  /\ (forall op : Operator,
        parse (runes "SELECT a " ++ spelling op ++ runes " b")
        = selecting (BinaryOpAST op (Ast.ColumnName (runes "a"))
                                 (Ast.ColumnName (runes "b"))))
  /\ (forall op1 op2 : Operator,
        tightness op1 < tightness op2 ->
        parse (runes "SELECT a " ++ spelling op1 ++ runes " b "
                     ++ spelling op2 ++ runes " c")
        = selecting
            (BinaryOpAST op1 (Ast.ColumnName (runes "a"))
                         (BinaryOpAST op2 (Ast.ColumnName (runes "b"))
                                      (Ast.ColumnName (runes "c"))))
        /\ parse (runes "SELECT a " ++ spelling op2 ++ runes " b "
                        ++ spelling op1 ++ runes " c")
           = selecting
               (BinaryOpAST op1
                            (BinaryOpAST op2 (Ast.ColumnName (runes "a"))
                                         (Ast.ColumnName (runes "b")))
                            (Ast.ColumnName (runes "c"))))
  /\ (forall op1 op2 : Operator,
        tightness op1 = tightness op2 ->
        parse (runes "SELECT a " ++ spelling op1 ++ runes " b "
                     ++ spelling op2 ++ runes " c")
        = SyntaxError)
  /\ parse (runes "SELECT a + 3 = b OR a = b AND b > 0")
     = Tree (Ast.SelectStmt
               (ProjectionsAST
                  [BinaryOpAST Ast.Or
                     (BinaryOpAST Ast.Equal
                        (BinaryOpAST Ast.Plus (Ast.ColumnName (runes "a"))
                                     (Ast.NumericLiteral (runes "3")))
                        (Ast.ColumnName (runes "b")))
                     (BinaryOpAST Ast.And
                        (BinaryOpAST Ast.Equal (Ast.ColumnName (runes "a"))
                                     (Ast.ColumnName (runes "b")))
                        (BinaryOpAST Ast.Greater (Ast.ColumnName (runes "b"))
                                     (Ast.NumericLiteral (runes "0"))))])
               (FromAST []) (FilterAST None) (GroupingAST []) (HavingAST None))
  /\ parse (runes "SELECT a + b + c") = SyntaxError
  /\ parse (runes "SELECT (a + b) + c")
     = Tree (Ast.SelectStmt
               (ProjectionsAST
                  [BinaryOpAST Ast.Plus
                     (BinaryOpAST Ast.Plus (Ast.ColumnName (runes "a"))
                                  (Ast.ColumnName (runes "b")))
                     (Ast.ColumnName (runes "c"))])
               (FromAST []) (FilterAST None) (GroupingAST []) (HavingAST None)).
Proof.
  split; [|split; [|split; [|split; [|split; [|split; [|split; [|split]]]]]]].
  - intros E. repeat split.
    + apply oneOperator_level, Or_inv.
    + apply oneOperator_level, And_inv.
    + apply oneOperator_level, ComparisonOp_inv.
    + apply oneOperator_level, PlusMinusOp_inv.
    + apply oneOperator_level, MultDivOp_inv.
  - intros E.
    repeat match goal with |- _ /\ _ => split end;
      first [ apply level_takesOperator
            | apply level_takesOperand
            | apply level_failsWith ].
  - exact operatorRule_spelling.
  - intros op. destruct op; vm_compute; reflexivity.
  - intros op1 op2 H.
    destruct op1, op2; cbn [tightness] in H; try (exfalso; lia);
      split; vm_compute; reflexivity.
  - intros op1 op2 H.
    destruct op1, op2; cbn [tightness] in H; try discriminate H;
      vm_compute; reflexivity.
  - vm_compute. reflexivity.
  - vm_compute. reflexivity.
  - vm_compute. reflexivity.
Qed.

Lemma one_operator_per_level_witness :
  (longer Ast.Less (runes " b") = false
   /\ ComparisonOp (mkCur 2 (runes "<" ++ runes " b"))
      = Match (mkCur 3 (runes " b")) [DoPushComponent 2 3 (Op Ast.Less)])
  /\ (tightness Ast.Plus < tightness Ast.Multiply
      /\ parse (runes "SELECT a * b + c")
         = selecting
             (BinaryOpAST Ast.Plus
                          (BinaryOpAST Ast.Multiply
                                       (Ast.ColumnName (runes "a"))
                                       (Ast.ColumnName (runes "b")))
                          (Ast.ColumnName (runes "c"))))
  /\ (tightness Ast.Multiply = tightness Ast.Modulo
      /\ parse (runes "SELECT a * b % c") = SyntaxError).
Proof.
  pose proof one_operator_per_level as (_ & _ & Hop & _ & Hlt & Heq & _).
  split; [|split].
  - split; [reflexivity|]. exact (Hop Ast.Less 2 (runes " b") eq_refl).
  - split; [cbn [tightness]; lia|].
    refine (proj2 (Hlt Ast.Plus Ast.Multiply _)). cbn [tightness]. lia.
  - split; [reflexivity|]. exact (Heq Ast.Multiply Ast.Modulo eq_refl).
Defined.

(** ** Lexical atoms *)

Unset Implicit Arguments.

Section Lexical.

Lemma starLoop_ext (p q : parser) :
  (forall c, p c = q c) -> forall n c, starLoop p n c = starLoop q n c.
Proof.
  intros Hpq n. induction n as [|n IH]; intros c; simpl; rewrite Hpq;
    [reflexivity|].
  destruct (q c) as [| |c1 a1]; try reflexivity. now rewrite IH.
Qed.

Lemma alt_matchClass (f g : rune -> bool) (c : cursor) :
  (matchClass f // matchClass g) c = matchClass (fun x => f x || g x) c.
Proof.
  unfold alt, matchClass. destruct (remaining c) as [|x r]; [reflexivity|].
  destruct (f x); [reflexivity|]. simpl. destruct (g x); reflexivity.
Qed.

Lemma alt_class_ext (p q : parser) (f g : rune -> bool) :
  (forall c, p c = matchClass f c) -> (forall c, q c = matchClass g c) ->
  forall c, (p // q) c = matchClass (fun x => f x || g x) c.
Proof.
  intros Hp Hq c. rewrite <- alt_matchClass. unfold alt.
  now rewrite Hp, Hq.
Qed.

(** [p*] over a character class takes the longest prefix in the class. *)
Lemma starLoop_class (f : rune -> bool) (s : text) :
  forall n p,
    length s <= n ->
    starLoop (matchClass f) n (mkCur p s)
    = Match (mkCur (p + length (takeClass f s)) (skipClass f s)) [].
Proof.
  induction s as [|x s IH]; intros n p Hn.
  - destruct n; simpl; now rewrite Nat.add_0_r.
  - destruct n as [|n]; [simpl in Hn; lia|].
    simpl. unfold matchClass at 1. simpl.
    destruct (f x) eqn:Hx.
    + rewrite IH by (simpl in Hn; lia). simpl.
      do 2 f_equal. lia.
    + simpl. now rewrite Nat.add_0_r.
Qed.

Lemma star_class (q : parser) (f : rune -> bool) :
  (forall c, q c = matchClass f c) ->
  forall p s,
    star q (mkCur p s)
    = Match (mkCur (p + length (takeClass f s)) (skipClass f s)) [].
Proof.
  intros Hq p s. unfold star.
  rewrite (starLoop_ext _ _ Hq). now apply starLoop_class.
Qed.

Lemma skipClass_app (f : rune -> bool) (ds rest : text) :
  forallb f ds = true -> startsWith f rest = false ->
  skipClass f (ds ++ rest) = rest.
Proof.
  intros Hds Hrest. induction ds as [|x ds IH]; simpl in *.
  - destruct rest as [|y rest]; [reflexivity|]. simpl in *. now rewrite Hrest.
  - apply andb_prop in Hds as [-> Hds]. now apply IH.
Qed.

Lemma takeClass_app (f : rune -> bool) (ds rest : text) :
  forallb f ds = true -> startsWith f rest = false ->
  takeClass f (ds ++ rest) = ds.
Proof.
  intros Hds Hrest. induction ds as [|x ds IH]; simpl in *.
  - destruct rest as [|y rest]; [reflexivity|]. simpl in *. now rewrite Hrest.
  - apply andb_prop in Hds as [-> Hds]. f_equal. now apply IH.
Qed.

Lemma take_skip (f : rune -> bool) (s : text) :
  takeClass f s ++ skipClass f s = s.
Proof.
  induction s as [|x s IH]; simpl; [reflexivity|].
  destruct (f x); simpl; [now rewrite IH|reflexivity].
Qed.

Lemma skipClass_nil (f : rune -> bool) (s : text) :
  skipClass f s = [] <-> forallb f s = true.
Proof.
  induction s as [|x s IH]; simpl; [tauto|].
  destruct (f x); simpl; [exact IH|]. split; discriminate.
Qed.

(** The same, over a text that splits into class characters and a rest
    that does not start with one. *)
Lemma star_class_app (q : parser) (f : rune -> bool) :
  (forall c, q c = matchClass f c) ->
  forall p ds rest,
    forallb f ds = true -> startsWith f rest = false ->
    star q (mkCur p (ds ++ rest)) = Match (mkCur (p + length ds) rest) [].
Proof.
  intros Hq p ds rest Hds Hrest.
  now rewrite (@star_class q f Hq), skipClass_app, takeClass_app.
Qed.

Lemma letter_class (c : cursor) : letter c = matchClass isIdentStart c.
Proof. apply alt_matchClass. Qed.

Lemma identPart_class (c : cursor) :
  (letter // digit // ch "_") c = matchClass isIdentPart c.
Proof.
  unfold isIdentPart.
  rewrite (@alt_class_ext _ _ _ _ letter_class
             (@alt_class_ext _ _ _ _ (fun c => eq_refl (digit c))
                             (fun c => eq_refl (ch "_" c)))).
  unfold matchClass. destruct (remaining c) as [|x r]; [reflexivity|].
  now rewrite orb_assoc.
Qed.

(** [ident] takes the longest run of identifier characters after a
    letter, and needs the letter. *)
Lemma ident_spec (p : nat) (s : text) :
  ident (mkCur p s)
  = match s with
    | x :: s' =>
        if isIdentStart x
        then Match (mkCur (S p + length (takeClass isIdentPart s'))
                          (skipClass isIdentPart s')) []
        else Fail
    | [] => Fail
    end.
Proof.
  unfold ident, seq. rewrite letter_class. unfold matchClass. simpl.
  destruct s as [|x s']; [reflexivity|].
  destruct (isIdentStart x); [|reflexivity].
  now rewrite (@star_class _ _ identPart_class).
Qed.

Lemma ident_whole (t : text) :
  ident (start t) = Match (mkCur (length t) []) [] <-> identifier t = true.
Proof.
  unfold start. rewrite ident_spec. destruct t as [|x t]; simpl.
  - split; discriminate.
  - destruct (isIdentStart x); simpl; [|split; discriminate].
    rewrite <- skipClass_nil. split.
    + intros H. injection H; auto.
    + intros Hs. pose proof (take_skip isIdentPart t) as Hts.
      rewrite Hs, app_nil_r in Hts. now rewrite Hts, Hs.
Qed.

Lemma capture_ident_whole (K : text -> Component) (t : text) :
  capture ident (pushText K) (start t)
  = Match (mkCur (length t) []) [DoPushComponent 0 (length t) (K t)]
  <-> identifier t = true.
Proof.
  rewrite <- ident_whole. unfold capture. split.
  - destruct (ident (start t)) as [| |c a] eqn:Hi; try discriminate.
    intros H. injection H as -> H.
    destruct a as [|x a]; [reflexivity|].
    destruct a; discriminate.
  - intros ->. unfold pushText. simpl.
    now rewrite Nat.sub_0_r, firstn_all.
Qed.

Lemma ident_app (p : nat) (t rest : text) :
  identifier t = true -> startsWith isIdentPart rest = false ->
  ident (mkCur p (t ++ rest)) = Match (mkCur (p + length t) rest) [].
Proof.
  intros Ht Hrest. rewrite ident_spec.
  destruct t as [|x t]; [discriminate|]. simpl in *.
  apply andb_prop in Ht as [-> Ht].
  rewrite skipClass_app, takeClass_app by assumption.
  do 2 f_equal. lia.
Qed.

End Lexical.

(** C6 (as the grammar has it).  At every identifier position (relation
    name, column name, function name, source/sink name, source/sink type,
    parameter key) a text is taken as one whole token if and only if it is
    an ASCII letter of either case followed by ASCII letters of either
    case, digits and underscores ([[a-z]] is a case-insensitive class);
    the component pushed carries that text.  Inside a longer text the
    token ends at the first character that cannot continue it. *)
Theorem identifier_positions :
  forall t : text,
    (ident (start t) = Match (mkCur (length t) []) [] <-> identifier t = true)
    /\ (Relation (start t)
        = Match (mkCur (length t) [])
                [DoPushComponent 0 (length t) (Ast.Relation t)]
        <-> identifier t = true)
    /\ (ColumnName (start t)
        = Match (mkCur (length t) [])
                [DoPushComponent 0 (length t) (Ast.ColumnName t)]
        <-> identifier t = true)
    /\ (Function (start t)
        = Match (mkCur (length t) [])
                [DoPushComponent 0 (length t) (Ast.FuncName t)]
        <-> identifier t = true)
    /\ (SourceSinkName (start t)
        = Match (mkCur (length t) [])
                [DoPushComponent 0 (length t) (Ast.SourceSinkName t)]
        <-> identifier t = true)
    /\ (SourceSinkType (start t)
        = Match (mkCur (length t) [])
                [DoPushComponent 0 (length t) (Ast.SourceSinkType t)]
        <-> identifier t = true)
    /\ (SourceSinkParamKey (start t)
        = Match (mkCur (length t) [])
                [DoPushComponent 0 (length t) (Ast.SourceSinkParamKey t)]
        <-> identifier t = true)
    /\ (forall p rest,
          identifier t = true -> startsWith isIdentPart rest = false ->
          ident (mkCur p (t ++ rest)) = Match (mkCur (p + length t) rest) []).
Proof.
  intros t. repeat split;
    try (apply ident_whole); try (apply (capture_ident_whole _ t));
    try (apply (proj2 (capture_ident_whole _ t))).
  intros p rest. apply ident_app.
Qed.

Lemma identifier_positions_witness :
  ident (mkCur 7 (runes "Abc_1" ++ runes " FROM s"))
  = Match (mkCur (7 + 5) (runes " FROM s")) [].
Proof.
  apply (proj2 (proj2 (proj2 (proj2 (proj2 (proj2 (proj2
           (identifier_positions (runes "Abc_1"))))))))); reflexivity.
Defined.

(** The claim as written, lower-case letters only, fails on the grammar:
    an upper-case name is taken as an identifier. *)
Lemma uppercase_identifier_accepted :
  ColumnName (start (runes "Abc"))
  = Match (mkCur 3 []) [DoPushComponent 0 3 (Ast.ColumnName (runes "Abc"))]
  /\ lowerIdentifier (runes "Abc") = false
  /\ parse (runes "SELECT Abc FROM S")
     = Tree (Ast.SelectStmt (ProjectionsAST [Ast.ColumnName (runes "Abc")])
                            (FromAST [Ast.Relation (runes "S")])
                            (FilterAST None) (GroupingAST []) (HavingAST None)).
Proof. repeat split; vm_compute; reflexivity. Qed.

(** ** Numeric literals *)

Section Stepping.

Lemma matchChar_hit (x : rune) (p : nat) (r : text) :
  matchChar x (mkCur p (x :: r)) = Match (mkCur (S p) r) [].
Proof. unfold matchChar, matchClass. simpl. now rewrite N.eqb_refl. Qed.

Lemma matchChar_miss (x y : rune) (p : nat) (r : text) :
  (x =? y)%N = false -> matchChar x (mkCur p (y :: r)) = Fail.
Proof. intros H. unfold matchChar, matchClass. simpl. now rewrite H. Qed.

Lemma seq_step (p q : parser) (c c1 : cursor) :
  p c = Match c1 [] -> (p ;; q) c = q c1.
Proof. intros H. unfold seq. rewrite H. now destruct (q c1). Qed.

Lemma alt_fail (p q : parser) (c : cursor) :
  p c = Fail -> (p // q) c = q c.
Proof. intros H. unfold alt. now rewrite H. Qed.

Lemma alt_Match (p q : parser) (c c' : cursor) (a : list Action) :
  p c = Match c' a -> (p // q) c = Match c' a.
Proof. intros H. unfold alt. now rewrite H. Qed.

Lemma capture_Fail (p : parser) k (c : cursor) :
  p c = Fail -> capture p k c = Fail.
Proof. intros H. unfold capture. now rewrite H. Qed.

Lemma action_Fail (p : parser) a (c : cursor) :
  p c = Fail -> action p a c = Fail.
Proof. intros H. unfold action. now rewrite H. Qed.

Lemma capture_Match (p : parser) k (c c' : cursor) (a : list Action) :
  p c = Match c' a ->
  capture p k c
  = Match c' (a ++ [k (position c) (position c')
                      (firstn (position c' - position c) (remaining c))]).
Proof. intros H. unfold capture. now rewrite H. Qed.

Lemma firstn_length_app (l r : text) : firstn (length l) (l ++ r) = l.
Proof. induction l as [|x l IH]; simpl; [reflexivity|now rewrite IH]. Qed.

Lemma matchCharCI_miss (x y : rune) (p : nat) (r : text) :
  (toLower x =? y)%N = false -> (toUpper x =? y)%N = false ->
  matchCharCI x (mkCur p (y :: r)) = Fail.
Proof.
  intros Hl Hu. unfold matchCharCI.
  rewrite alt_fail by now apply matchChar_miss.
  now apply matchChar_miss.
Qed.

End Stepping.

Section Numbers.

Lemma numStart_other (x : rune) :
  numStart x = true ->
  forall y : rune, numStart y = false -> (y =? x)%N = false.
Proof. intros Hx y Hy. apply N.eqb_neq. intros ->. congruence. Qed.

Lemma numStart_not_letter (x : rune) :
  numStart x = true -> isIdentStart x = false.
Proof.
  unfold numStart, isDigit, isIdentStart, isLower, isUpper.
  change (rune_of "-") with 45%N.
  intros H. apply orb_prop in H as [H | H].
  - apply N.eqb_eq in H. now subst x.
  - apply andb_prop in H as [H1 H2].
    apply N.leb_le in H1. apply N.leb_le in H2.
    apply orb_false_intro; apply andb_false_intro1; apply N.leb_gt; lia.
Qed.

Lemma digit_other (x : rune) :
  isDigit x = true ->
  forall y : rune, isDigit y = false -> (y =? x)%N = false.
Proof. intros Hx y Hy. apply N.eqb_neq. intros ->. congruence. Qed.

Lemma digit_numStart (x : rune) : isDigit x = true -> numStart x = true.
Proof. intros H. unfold numStart. rewrite H. apply orb_true_r. Qed.

Lemma plus_digit (p : nat) (d : rune) (ds rest : text) :
  isDigit d = true -> forallb isDigit ds = true ->
  startsWith isDigit rest = false ->
  plus digit (mkCur p (d :: ds ++ rest)) = Match (mkCur (S p + length ds) rest) [].
Proof.
  intros Hd Hds Hrest. unfold plus.
  rewrite (@seq_step digit (star digit) _ (mkCur (S p) (ds ++ rest))).
  - now apply (@star_class_app digit isDigit (fun c => eq_refl)).
  - unfold digit, matchClass. simpl. now rewrite Hd.
Qed.

(** The optional sign in front of a digit. *)
Lemma sign_step (neg : bool) (p : nat) (d : rune) (r : text) :
  isDigit d = true ->
  let sign := if neg then [rune_of "-"] else [] in
  opt (ch "-") (mkCur p (sign ++ d :: r))
  = Match (mkCur (p + length sign) (d :: r)) [].
Proof.
  intros Hd sign. subst sign. unfold opt, ch. destruct neg; simpl.
  - rewrite (alt_Match _ _ _ _ _ (matchChar_hit _ p (d :: r))).
    do 2 f_equal. lia.
  - rewrite alt_fail.
    + unfold empty. now rewrite Nat.add_0_r.
    + apply matchChar_miss.
      apply (digit_other _ Hd). reflexivity.
Qed.

Lemma FloatLiteral_spec (neg : bool) (p : nat) (d1 d2 : rune)
      (ds1 ds2 rest : text) :
  isDigit d1 = true -> forallb isDigit ds1 = true ->
  isDigit d2 = true -> forallb isDigit ds2 = true ->
  startsWith isDigit rest = false ->
  let sign := if neg then [rune_of "-"] else [] in
  let lit := sign ++ (d1 :: ds1) ++ rune_of "." :: d2 :: ds2 in
  FloatLiteral (mkCur p (lit ++ rest))
  = Match (mkCur (p + length lit) rest)
          [DoPushComponent p (p + length lit) (Ast.FloatLiteral lit)].
Proof.
  intros H1 Hs1 H2 Hs2 Hrest sign lit.
  assert (Hin : (opt (ch "-") ;; plus digit ;; ch "." ;; plus digit)
                  (mkCur p (lit ++ rest))
                = Match (mkCur (p + length lit) rest) []).
  { subst lit. rewrite <- !app_assoc. simpl.
    rewrite (seq_step _ _ _ _ (sign_step neg p _ _ H1)).
    rewrite (seq_step _ _ _ _
               (plus_digit _ d1 ds1 (46%N :: d2 :: ds2 ++ rest) H1 Hs1 eq_refl)).
    unfold ch at 1.
    rewrite (seq_step _ _ _ _ (matchChar_hit _ _ _)).
    rewrite (plus_digit _ _ _ _ H2 Hs2 Hrest).
    do 2 f_equal. subst sign. destruct neg; simpl;
      rewrite ?length_app; simpl; lia. }
  unfold FloatLiteral. rewrite (capture_Match _ _ _ _ _ Hin). simpl.
  unfold pushText.
  replace (p + length lit - p) with (length lit) by lia.
  now rewrite firstn_length_app.
Qed.

(** An integer literal alone would stop in front of the point. *)
Lemma NumericLiteral_spec (neg : bool) (p : nat) (d : rune) (ds rest : text) :
  isDigit d = true -> forallb isDigit ds = true ->
  startsWith isDigit rest = false ->
  let sign := if neg then [rune_of "-"] else [] in
  let lit := sign ++ d :: ds in
  NumericLiteral (mkCur p (lit ++ rest))
  = Match (mkCur (p + length lit) rest)
          [DoPushComponent p (p + length lit) (Ast.NumericLiteral lit)].
Proof.
  intros Hd Hds Hrest sign lit.
  assert (Hin : (opt (ch "-") ;; plus digit) (mkCur p (lit ++ rest))
                = Match (mkCur (p + length lit) rest) []).
  { subst lit. rewrite <- !app_assoc. simpl.
    rewrite (seq_step _ _ _ _ (sign_step neg p _ _ Hd)).
    rewrite (plus_digit _ _ _ _ Hd Hds Hrest).
    do 2 f_equal. subst sign. destruct neg; simpl;
      rewrite ?length_app; simpl; lia. }
  unfold NumericLiteral. rewrite (capture_Match _ _ _ _ _ Hin). simpl.
  unfold pushText.
  replace (p + length lit - p) with (length lit) by lia.
  now rewrite firstn_length_app.
Qed.

(** On a sign or a digit every alternative of [baseExpr] before [Literal]
    fails. *)
Lemma baseExpr_Literal (E : parser) (p : nat) (x : rune) (r : text) :
  numStart x = true ->
  baseExpr E (mkCur p (x :: r)) = Literal (mkCur p (x :: r)).
Proof.
  intros Hx. pose proof (numStart_other _ Hx) as Hne.
  pose proof (numStart_not_letter _ Hx) as Hletter.
  assert (Hident : ident (mkCur p (x :: r)) = Fail)
    by (rewrite ident_spec; now rewrite Hletter).
  unfold baseExpr.
  rewrite alt_fail
    by (apply seq_fail_first, matchChar_miss, Hne; reflexivity).
  rewrite alt_fail.
  2:{ unfold BooleanLiteral, TRUE, FALSE.
      rewrite alt_fail;
        apply capture_Fail; unfold kw; simpl;
        apply seq_fail_first, matchCharCI_miss; apply Hne; reflexivity. }
  rewrite alt_fail
    by (apply action_Fail, seq_fail_first, capture_Fail, Hident).
  rewrite alt_fail by (apply capture_Fail, Hident).
  rewrite alt_fail
    by (apply capture_Fail, matchChar_miss, Hne; reflexivity).
  reflexivity.
Qed.

End Numbers.

(** C5.  [FloatLiteral] comes before [NumericLiteral] in [Literal]: on
    every text that begins with a decimal-float form (an optional minus,
    digits, a point, digits) the literal rule, and the base expression
    above it, match the whole form and push one float literal; the integer
    rule on its own would stop in front of the point. *)
Theorem float_before_integer :
  forall (E : parser) (neg : bool) (p : nat) (d1 d2 rest : text),
    d1 <> [] -> forallb isDigit d1 = true ->
    d2 <> [] -> forallb isDigit d2 = true ->
    startsWith isDigit rest = false ->
    let sign := if neg then [rune_of "-"] else [] in
    let lit := sign ++ d1 ++ rune_of "." :: d2 in
    let c := mkCur p (lit ++ rest) in
    let float :=
      Match (mkCur (p + length lit) rest)
            [DoPushComponent p (p + length lit) (Ast.FloatLiteral lit)] in
    Literal c = float
    /\ baseExpr E c = float
    /\ NumericLiteral c
       = Match (mkCur (p + length (sign ++ d1)) (rune_of "." :: d2 ++ rest))
               [DoPushComponent p (p + length (sign ++ d1))
                                (Ast.NumericLiteral (sign ++ d1))].
Proof.
  intros E neg p d1 d2 rest Hn1 Hd1 Hn2 Hd2 Hrest sign lit c float.
  destruct d1 as [|x1 ds1]; [contradiction|].
  destruct d2 as [|x2 ds2]; [contradiction|].
  simpl in Hd1, Hd2.
  apply andb_prop in Hd1 as [Hx1 Hds1]. apply andb_prop in Hd2 as [Hx2 Hds2].
  assert (HL : Literal c = float).
  { unfold Literal. apply alt_Match.
    apply (FloatLiteral_spec neg p _ _ _ _ _ Hx1 Hds1 Hx2 Hds2 Hrest). }
  repeat split.
  - exact HL.
  - rewrite <- HL. subst c lit sign.
    destruct neg; simpl.
    + now apply baseExpr_Literal.
    + apply baseExpr_Literal. now apply digit_numStart.
  - subst c lit.
    replace ((sign ++ (x1 :: ds1) ++ rune_of "." :: x2 :: ds2) ++ rest)
      with ((sign ++ x1 :: ds1) ++ rune_of "." :: (x2 :: ds2) ++ rest)
      by (now rewrite <- !app_assoc).
    apply (NumericLiteral_spec neg p _ _ _ Hx1 Hds1). reflexivity.
Qed.

Lemma float_before_integer_witness :
  baseExpr (ExpressionN 0) (mkCur 7 (runes "3.14" ++ runes " FROM s"))
  = Match (mkCur (7 + 4) (runes " FROM s"))
          [DoPushComponent 7 (7 + 4) (Ast.FloatLiteral (runes "3.14"))].
Proof.
  apply (proj1 (proj2
    (float_before_integer (ExpressionN 0) false 7 (runes "3")
       (runes "14") (runes " FROM s")
       ltac:(discriminate) eq_refl ltac:(discriminate) eq_refl eq_refl))).
Defined.

(** ** String literals *)

Section Strings.

Lemma starLoop_step (q : parser) (n : nat) (c c' : cursor) :
  q c = Match c' [] -> starLoop q (S n) c = starLoop q n c'.
Proof. intros H. simpl. rewrite H. now destruct (starLoop q n c'). Qed.

Lemma starLoop_stop (q : parser) (n : nat) (c : cursor) :
  q c = Fail -> starLoop q n c = Match c [].
Proof. intros H. destruct n; simpl; now rewrite H. Qed.

Lemma matchCharCI_quote (p : nat) (x : rune) (r : text) :
  matchCharCI quote (mkCur p (x :: r))
  = if (quote =? x)%N then Match (mkCur (S p) r) [] else Fail.
Proof.
  unfold matchCharCI, alt, matchChar, matchClass.
  change (toLower quote) with quote. change (toUpper quote) with quote.
  cbn [remaining position]. now destruct (quote =? x)%N.
Qed.

Lemma stringChar_escaped (p : nat) (r : text) :
  stringChar (mkCur p (quote :: quote :: r)) = Match (mkCur (S (S p)) r) [].
Proof. reflexivity. Qed.

Lemma stringChar_plain (p : nat) (x : rune) (r : text) :
  (quote =? x)%N = false ->
  stringChar (mkCur p (x :: r)) = Match (mkCur (S p) r) [].
Proof.
  intros Hx. unfold stringChar, kw.
  change (runes "''") with [quote; quote].
  change (runes "'") with [quote].
  cbn [matchStringCI].
  rewrite alt_fail
    by (apply seq_fail_first; now rewrite matchCharCI_quote, Hx).
  unfold seq at 1, notp, seq. now rewrite matchCharCI_quote, Hx.
Qed.

Lemma stringChar_closing (p : nat) (r : text) :
  startsWith (N.eqb quote) r = false ->
  stringChar (mkCur p (quote :: r)) = Fail.
Proof.
  intros Hr. unfold stringChar, kw.
  change (runes "''") with [quote; quote].
  change (runes "'") with [quote].
  cbn [matchStringCI].
  rewrite alt_fail.
  - unfold seq at 1, notp, seq. now rewrite matchCharCI_quote.
  - unfold seq at 1. rewrite matchCharCI_quote. cbn.
    destruct r as [|y r]; [reflexivity|].
    unfold seq. rewrite matchCharCI_quote. cbn [startsWith] in Hr.
    now rewrite Hr.
Qed.

Lemma stringChar_end (p : nat) : stringChar (mkCur p []) = Fail.
Proof. reflexivity. Qed.

Lemma length_escape (v : text) : length v <= length (escape v).
Proof.
  induction v as [|x v IH]; simpl; [lia|].
  destruct (x =? quote)%N; simpl; lia.
Qed.

(** The body loop runs over the escaped value and stops in front of the
    closing quote. *)
Lemma string_body (v rest : text) :
  startsWith (N.eqb quote) rest = false ->
  forall n p,
    length (escape v ++ quote :: rest) <= n ->
    starLoop stringChar n (mkCur p (escape v ++ quote :: rest))
    = Match (mkCur (p + length (escape v)) (quote :: rest)) [].
Proof.
  intros Hrest. induction v as [|x v IH]; intros n p Hn.
  - simpl. rewrite starLoop_stop by now apply stringChar_closing.
    now rewrite Nat.add_0_r.
  - simpl in *. destruct (x =? quote)%N eqn:Hx.
    + simpl in *. destruct n as [|n]; [lia|].
      rewrite (starLoop_step _ _ _ _ (stringChar_escaped _ _)).
      rewrite IH by lia. do 2 f_equal. lia.
    + simpl in *. destruct n as [|n]; [lia|].
      rewrite N.eqb_sym in Hx.
      rewrite (starLoop_step _ _ _ _ (stringChar_plain _ _ _ Hx)).
      rewrite IH by lia. do 2 f_equal. lia.
Qed.

Lemma unescape_escape (v : text) : unescape (escape v) = v.
Proof.
  induction v as [|x v IH]; [reflexivity|].
  simpl. destruct (x =? quote)%N eqn:Hx.
  - apply N.eqb_eq in Hx. subst x.
    cbn [unescape]. rewrite N.eqb_refl. simpl. now rewrite IH.
  - destruct (escape v) as [|b t] eqn:Hv.
    + simpl in IH. now subst v.
    + cbn [unescape]. rewrite Hx. simpl. cbn [unescape] in IH. now rewrite IH.
Qed.

Lemma NewStringLiteral_escape (v : text) :
  NewStringLiteral (quote :: escape v ++ [quote]) = Ast.StringLiteral v.
Proof.
  unfold NewStringLiteral. simpl tl.
  now rewrite removelast_last, unescape_escape.
Qed.

Lemma StringLiteral_spec (p : nat) (v rest : text) :
  startsWith (N.eqb quote) rest = false ->
  let lit := quote :: escape v ++ [quote] in
  StringLiteral (mkCur p (lit ++ rest))
  = Match (mkCur (p + length lit) rest)
          [DoPushComponent p (p + length lit) (Ast.StringLiteral v)].
Proof.
  intros Hrest lit.
  assert (Hin : (matchChar quote ;; star stringChar ;; matchChar quote)
                  (mkCur p (lit ++ rest))
                = Match (mkCur (p + length lit) rest) []).
  { subst lit. simpl. rewrite <- app_assoc. simpl.
    rewrite (seq_step _ _ _ _ (matchChar_hit _ _ _)).
    rewrite (seq_step _ _ _ _ (string_body v rest Hrest _ _ (le_n _)
                                : star stringChar _ = _)).
    rewrite matchChar_hit. do 2 f_equal. rewrite length_app. simpl. lia. }
  unfold StringLiteral. fold stringChar.
  rewrite (capture_Match _ _ _ _ _ Hin).
  unfold pushText. cbn [app position remaining].
  replace (p + length lit - p) with (length lit) by lia.
  rewrite firstn_length_app. subst lit.
  now rewrite NewStringLiteral_escape.
Qed.

End Strings.

(** C7.  A string literal is delimited by single quotes and writes a
    quote of its value as two quotes.  For every value, the literal that
    stands for it is matched as a whole by [StringLiteral], and the
    component pushed is the string literal with that value: delimiters
    removed, each doubled quote one quote.  'it''s' has the value it's. *)
Theorem string_literal_value :
  forall (v rest : text) (p : nat),
    startsWith (N.eqb quote) rest = false ->
    let lit := quote :: escape v ++ [quote] in
    NewStringLiteral lit = Ast.StringLiteral v
    /\ StringLiteral (mkCur p (lit ++ rest))
       = Match (mkCur (p + length lit) rest)
               [DoPushComponent p (p + length lit) (Ast.StringLiteral v)]
    /\ NewStringLiteral (runes "'it''s'") = Ast.StringLiteral (runes "it's")
    /\ parse (runes "SELECT 'it''s'")
       = Tree (Ast.SelectStmt
                 (ProjectionsAST [Ast.StringLiteral (runes "it's")])
                 (FromAST []) (FilterAST None) (GroupingAST []) (HavingAST None)).
Proof.
  intros v rest p Hrest lit. repeat split.
  - apply NewStringLiteral_escape.
  - now apply StringLiteral_spec.
Qed.

Lemma string_literal_value_witness :
  StringLiteral (mkCur 7 ((quote :: escape (runes "it's") ++ [quote])
                          ++ runes " FROM s"))
  = Match (mkCur (7 + length (quote :: escape (runes "it's") ++ [quote]))
                 (runes " FROM s"))
          [DoPushComponent 7
             (7 + length (quote :: escape (runes "it's") ++ [quote]))
             (Ast.StringLiteral (runes "it's"))].
Proof.
  apply (proj1 (proj2
           (string_literal_value (runes "it's") (runes " FROM s") 7 eq_refl))).
Defined.

(** ** The two spellings of "not equal" *)

Section Twins.

Lemma evenQuotes_app (v u : text) :
  evenQuotes (v ++ u)
  = if evenQuotes v then evenQuotes u else negb (evenQuotes u).
Proof.
  induction v as [|x v IH]; [reflexivity|]. cbn [app evenQuotes].
  rewrite IH.
  destruct (quote =? x)%N, (evenQuotes v), (evenQuotes u); reflexivity.
Qed.

Lemma evenQuotes_rest (v u : text) :
  evenQuotes v = true -> evenQuotes (v ++ u) = true -> evenQuotes u = true.
Proof. intros Hv H. now rewrite evenQuotes_app, Hv in H. Qed.

Lemma evenQuotes_both (v u : text) :
  evenQuotes v = true -> evenQuotes u = true -> evenQuotes (v ++ u) = true.
Proof. intros Hv Hu. now rewrite evenQuotes_app, Hv. Qed.

Lemma evenQuotes_one (x : rune) :
  (quote =? x)%N = false -> evenQuotes [x] = true.
Proof. intros H. cbn [evenQuotes]. now rewrite H. Qed.

Lemma evenQuotes_tail (x : rune) (u : text) :
  (quote =? x)%N = false -> evenQuotes (x :: u) = true -> evenQuotes u = true.
Proof. intros H. cbn [evenQuotes]. now rewrite H. Qed.

Lemma twinResult_mono (R R' : cursor -> cursor -> Prop) (r1 r2 : result) :
  (forall c1 c2, R c1 c2 -> R' c1 c2) ->
  twinResult R r1 r2 -> twinResult R' r1 r2.
Proof.
  intros HR. destruct r1, r2; simpl; try tauto.
  intros [Ha Hc]. split; [assumption|now apply HR].
Qed.

Lemma before_start (r : text) (p : nat) (u : text) :
  before r p u (mkCur p (u ++ bangEq ++ r)) (mkCur p (u ++ ltGt ++ r)).
Proof. exists [], u. simpl. now rewrite Nat.add_0_r. Qed.

Lemma before_next (r : text) (p : nat) (v u : text) (c1 c2 : cursor) :
  evenQuotes v = true ->
  before r (p + length v) u c1 c2 -> before r p (v ++ u) c1 c2.
Proof.
  intros Hv (v' & u' & -> & Hv' & -> & ->). exists (v ++ v'), u'.
  rewrite app_assoc, length_app, Nat.add_assoc. repeat split.
  now apply evenQuotes_both.
Qed.

Lemma before_one (r : text) (p : nat) (x : rune) (u : text) (c1 c2 : cursor) :
  (quote =? x)%N = false ->
  before r (S p) u c1 c2 -> before r p (x :: u) c1 c2.
Proof.
  intros Hx H. apply (before_next r p [x] u); [now apply evenQuotes_one|].
  cbn [length]. now replace (p + 1) with (S p) by lia.
Qed.

Lemma before_twins (r : text) (p : nat) (u : text) (c1 c2 : cursor) :
  evenQuotes u = true -> before r p u c1 c2 -> twins c1 c2.
Proof.
  intros Hu (v & u' & -> & Hv & -> & ->). right.
  exists r, (p + length v), u'. repeat split.
  now apply (evenQuotes_rest v u').
Qed.

Lemma local_empty : local empty.
Proof. intros r p u Hu. simpl. split; [reflexivity|apply before_start]. Qed.

Lemma local_matchClass (f : rune -> bool) :
  f 33%N = false -> f 60%N = false -> f quote = false ->
  local (matchClass f).
Proof.
  intros H1 H2 H3 r p u Hu. unfold matchClass. destruct u as [|x u]; simpl.
  - now rewrite H1, H2.
  - destruct (f x) eqn:Hx; simpl; [|exact I]. split; [reflexivity|].
    apply before_one; [|apply before_start].
    destruct (N.eqb_spec quote x) as [<-|_]; [congruence|reflexivity].
Qed.

Lemma local_seq (q1 q2 : parser) : local q1 -> local q2 -> local (q1 ;; q2).
Proof.
  intros H1 H2 r p u Hu. unfold seq. specialize (H1 r p u Hu).
  destruct (q1 (mkCur p (u ++ bangEq ++ r))) as [| |c1 a1],
           (q1 (mkCur p (u ++ ltGt ++ r))) as [| |c2 a2];
    simpl in H1; try tauto.
  destruct H1 as [<- (v & u' & -> & Hv & -> & ->)].
  specialize (H2 r (p + length v) u' (evenQuotes_rest _ _ Hv Hu)).
  destruct (q2 (mkCur (p + length v) (u' ++ bangEq ++ r))) as [| |d1 b1],
           (q2 (mkCur (p + length v) (u' ++ ltGt ++ r))) as [| |d2 b2];
    simpl in H2; simpl; try tauto.
  destruct H2 as [<- Hb]. split; [reflexivity|now apply before_next].
Qed.

Lemma local_alt (q1 q2 : parser) : local q1 -> local q2 -> local (q1 // q2).
Proof.
  intros H1 H2 r p u Hu. unfold alt. specialize (H1 r p u Hu).
  destruct (q1 (mkCur p (u ++ bangEq ++ r))) as [| |c1 a1],
           (q1 (mkCur p (u ++ ltGt ++ r))) as [| |c2 a2];
    simpl in H1; simpl; try tauto.
  now apply H2.
Qed.

Lemma local_opt (q : parser) : local q -> local (opt q).
Proof. intros H. apply local_alt; [assumption|apply local_empty]. Qed.

Lemma local_notp (q : parser) : local q -> local (notp q).
Proof.
  intros H r p u Hu. unfold notp. specialize (H r p u Hu).
  destruct (q (mkCur p (u ++ bangEq ++ r))) as [| |c1 a1],
           (q (mkCur p (u ++ ltGt ++ r))) as [| |c2 a2];
    simpl in H; simpl; try tauto.
  split; [reflexivity|apply before_start].
Qed.

Lemma local_starLoop (q : parser) :
  local q ->
  forall n r p u,
    evenQuotes u = true ->
    twinResult (before r p u)
               (starLoop q n (mkCur p (u ++ bangEq ++ r)))
               (starLoop q n (mkCur p (u ++ ltGt ++ r))).
Proof.
  intros H n. induction n as [|n IH]; intros r p u Hu; cbn [starLoop];
    specialize (H r p u Hu);
    destruct (q (mkCur p (u ++ bangEq ++ r))) as [| |c1 a1],
             (q (mkCur p (u ++ ltGt ++ r))) as [| |c2 a2];
    simpl in H; simpl; try tauto;
    try (split; [reflexivity|apply before_start]).
  destruct H as [<- (v & u' & -> & Hv & -> & ->)].
  specialize (IH r (p + length v) u' (evenQuotes_rest _ _ Hv Hu)).
  destruct (starLoop q n (mkCur (p + length v) (u' ++ bangEq ++ r)))
    as [| |d1 b1],
    (starLoop q n (mkCur (p + length v) (u' ++ ltGt ++ r))) as [| |d2 b2];
    simpl in IH; simpl; try tauto.
  destruct IH as [<- Hb]. split; [reflexivity|now apply before_next].
Qed.

Lemma twin_length (u r : text) :
  length (u ++ bangEq ++ r) = length (u ++ ltGt ++ r).
Proof. now rewrite !length_app. Qed.

Lemma local_star (q : parser) : local q -> local (star q).
Proof.
  intros H r p u Hu. unfold star. cbn [remaining].
  rewrite twin_length. now apply local_starLoop.
Qed.

Lemma local_plus (q : parser) : local q -> local (plus q).
Proof. intros H. apply local_seq; [assumption|now apply local_star]. Qed.

Lemma firstn_before (v u t : text) (p : nat) :
  firstn (p + length v - p) ((v ++ u) ++ t) = v.
Proof.
  replace (p + length v - p) with (length v) by lia.
  rewrite <- app_assoc. apply firstn_length_app.
Qed.

Lemma local_capture (q : parser) k : local q -> local (capture q k).
Proof.
  intros H r p u Hu. unfold capture. specialize (H r p u Hu).
  destruct (q (mkCur p (u ++ bangEq ++ r))) as [| |c1 a1],
           (q (mkCur p (u ++ ltGt ++ r))) as [| |c2 a2];
    simpl in H; simpl; try tauto.
  destruct H as [<- (v & u' & -> & Hv & -> & ->)].
  split; [|now exists v, u'].
  cbn [position remaining]. now rewrite !firstn_before.
Qed.

Lemma local_action (q : parser) a : local q -> local (action q a).
Proof.
  intros H r p u Hu. unfold action. specialize (H r p u Hu).
  destruct (q (mkCur p (u ++ bangEq ++ r))) as [| |c1 a1],
           (q (mkCur p (u ++ ltGt ++ r))) as [| |c2 a2];
    simpl in H; simpl; try tauto.
  destruct H as [<- Hb]. now split.
Qed.

Lemma local_matchChar (x : rune) : plainChar x = true -> local (matchChar x).
Proof.
  intros H. unfold plainChar in H. apply negb_true_iff in H.
  apply orb_false_elim in H as [H H3]. apply orb_false_elim in H as [H1 H2].
  apply local_matchClass; assumption.
Qed.

Lemma local_matchCharCI (x : rune) :
  plainChar (toLower x) && plainChar (toUpper x) = true ->
  local (matchCharCI x).
Proof.
  intros H. apply andb_prop in H as [H1 H2].
  apply local_alt; now apply local_matchChar.
Qed.

Lemma local_matchStringCI (s : text) :
  plainText s = true -> local (matchStringCI s).
Proof.
  induction s as [|x s IH]; simpl; intros H; [apply local_empty|].
  apply andb_prop in H as [Hx Hs].
  apply local_seq; [now apply local_matchCharCI|now apply IH].
Qed.

(** A text with an odd number of quotes, read as the inside of a string
    literal: the characters of the literal stop at a quote of that text,
    after an even number of quotes, whatever follows the text, provided it
    does not start with a quote. *)
Lemma string_scan (k : nat) :
  forall u : text,
    length u <= k ->
    evenQuotes u = false ->
    exists v w,
      u = v ++ quote :: w
      /\ evenQuotes v = true
      /\ forall (t : text) (n p : nat),
           startsWith (N.eqb quote) t = false ->
           length (u ++ t) <= n ->
           starLoop stringChar n (mkCur p (u ++ t))
           = Match (mkCur (p + length v) (quote :: w ++ t)) [].
Proof.
  induction k as [|k IH]; intros u Hk Hu.
  - destruct u; [discriminate Hu|cbn [length] in Hk; lia].
  - destruct u as [|x u]; [discriminate Hu|].
    cbn [evenQuotes] in Hu. cbn [length] in Hk.
    destruct (quote =? x)%N eqn:Hx.
    + apply N.eqb_eq in Hx. subst x. apply negb_false_iff in Hu.
      destruct u as [|y u].
      * exists [], []. repeat split. intros t n p Ht Hn. cbn [app length].
        rewrite starLoop_stop by (now apply stringChar_closing).
        now rewrite Nat.add_0_r.
      * cbn [evenQuotes] in Hu. cbn [length] in Hk.
        destruct (quote =? y)%N eqn:Hy.
        -- apply N.eqb_eq in Hy. subst y. apply negb_true_iff in Hu.
           destruct (IH u ltac:(lia) Hu) as (v & w & -> & Hv & Hrun).
           exists (quote :: quote :: v), w. repeat split.
           ++ cbn [evenQuotes]. rewrite N.eqb_refl, Hv. reflexivity.
           ++ intros t n p Ht Hn. cbn [app length] in *.
              destruct n as [|n]; [lia|].
              rewrite (starLoop_step _ _ _ _ (stringChar_escaped _ _)).
              rewrite Hrun by (assumption || lia).
              do 2 f_equal. lia.
        -- exists [], (y :: u). repeat split. intros t n p Ht Hn.
           cbn [app length].
           rewrite starLoop_stop
             by (apply stringChar_closing; cbn [app startsWith]; exact Hy).
           now rewrite Nat.add_0_r.
    + destruct (IH u ltac:(lia) Hu) as (v & w & -> & Hv & Hrun).
      exists (x :: v), w. repeat split.
      * cbn [evenQuotes]. now rewrite Hx.
      * intros t n p Ht Hn. cbn [app length] in *.
        destruct n as [|n]; [lia|].
        rewrite (starLoop_step _ _ _ _ (stringChar_plain _ _ _ Hx)).
        rewrite Hrun by (assumption || lia).
        do 2 f_equal. lia.
Qed.

(** In front of the operator and outside a string literal, a string
    literal that starts also ends in front of the operator: the text up to
    the operator holds an even number of quotes, so the quote that opens
    the literal is followed by one that closes it. *)
Lemma local_StringLiteral : local StringLiteral.
Proof.
  assert (Hq : forall c, matchChar quote c = Fail -> StringLiteral c = Fail).
  { intros c H. unfold StringLiteral. apply capture_Fail, seq_fail_first, H. }
  intros r p u Hu. destruct u as [|x u].
  - rewrite !Hq by reflexivity. exact I.
  - cbn [evenQuotes] in Hu. destruct (quote =? x)%N eqn:Hx.
    2:{ rewrite !Hq by (apply matchChar_miss, Hx). exact I. }
    apply N.eqb_eq in Hx. subst x. apply negb_true_iff in Hu.
    destruct (string_scan (length u) u (le_n _) Hu)
      as (v & w & -> & Hv & Hrun).
    set (lit := quote :: v ++ [quote]).
    assert (Hsplit : forall t : text,
               (quote :: v ++ quote :: w) ++ t = lit ++ w ++ t).
    { intros t. unfold lit. cbn [app]. f_equal.
      now rewrite <- !app_assoc. }
    assert (Hlit : forall t : text,
               startsWith (N.eqb quote) t = false ->
               StringLiteral (mkCur p ((quote :: v ++ quote :: w) ++ t))
               = Match (mkCur (p + length lit) (w ++ t))
                       [DoPushComponent p (p + length lit)
                                        (NewStringLiteral lit)]).
    { intros t Ht.
      assert (Hin : (matchChar quote ;; star stringChar ;; matchChar quote)
                      (mkCur p ((quote :: v ++ quote :: w) ++ t))
                    = Match (mkCur (p + length lit) (w ++ t)) []).
      { cbn [app]. rewrite (seq_step _ _ _ _ (matchChar_hit _ _ _)).
        assert (Hs : star stringChar (mkCur (S p) ((v ++ quote :: w) ++ t))
                     = Match (mkCur (S p + length v) (quote :: w ++ t)) [])
          by (apply Hrun; [exact Ht|apply le_n]).
        rewrite (seq_step _ _ _ _ Hs).
        rewrite matchChar_hit. do 2 f_equal. unfold lit.
        cbn [length]. rewrite length_app. cbn [length]. lia. }
      unfold StringLiteral. fold stringChar.
      rewrite (capture_Match _ _ _ _ _ Hin). unfold pushText.
      cbn [position remaining].
      replace (p + length lit - p) with (length lit) by lia.
      rewrite Hsplit. now rewrite firstn_length_app. }
    rewrite !Hlit by reflexivity. cbn [twinResult].
    split; [reflexivity|].
    exists lit, w. repeat split.
    + unfold lit. cbn [app]. f_equal. now rewrite <- app_assoc.
    + unfold lit. cbn [evenQuotes]. rewrite N.eqb_refl.
      rewrite evenQuotes_app, Hv. cbn [evenQuotes]. now rewrite N.eqb_refl.
Qed.

(** With a character in front of the operator. *)

Lemma localAfter_local (q : parser) : local q -> localAfter q.
Proof. intros H r p x u Hu. now apply H. Qed.

Lemma localAfter_alt (q1 q2 : parser) :
  localAfter q1 -> localAfter q2 -> localAfter (q1 // q2).
Proof.
  intros H1 H2 r p x u Hu. unfold alt. specialize (H1 r p x u Hu).
  destruct (q1 (mkCur p ((x :: u) ++ bangEq ++ r))) as [| |c1 a1],
           (q1 (mkCur p ((x :: u) ++ ltGt ++ r))) as [| |c2 a2];
    simpl in H1; simpl; try tauto.
  now apply H2.
Qed.

Lemma localAfter_capture (q : parser) k :
  localAfter q -> localAfter (capture q k).
Proof.
  intros H r p x u Hu. unfold capture. specialize (H r p x u Hu).
  destruct (q (mkCur p ((x :: u) ++ bangEq ++ r))) as [| |c1 a1],
           (q (mkCur p ((x :: u) ++ ltGt ++ r))) as [| |c2 a2];
    cbn [twinResult] in *; try tauto.
  destruct H as [<- (v & u' & Hv & He & -> & ->)].
  split; [|now exists v, u'].
  cbn [position remaining]. rewrite Hv. now rewrite !firstn_before.
Qed.

Lemma matchCharCI_first (a x : rune) (p : nat) (t : text) :
  matchCharCI a (mkCur p (x :: t))
  = if ((toLower a =? x) || (toUpper a =? x))%N
    then Match (mkCur (S p) t) [] else Fail.
Proof.
  unfold matchCharCI, matchChar. rewrite alt_matchClass. reflexivity.
Qed.

(** A literal whose first character is not a quote and whose characters
    after the first are plain: its first character is compared with a
    character that the two texts share. *)
Lemma localAfter_literal (a : rune) (s : text) :
  (quote =? toLower a)%N = false -> (quote =? toUpper a)%N = false ->
  plainText s = true -> localAfter (matchStringCI (a :: s)).
Proof.
  intros Hl Hup Hs r p x u Hu. cbn [matchStringCI]. unfold seq.
  cbn [app]. rewrite !matchCharCI_first.
  destruct ((toLower a =? x) || (toUpper a =? x))%N eqn:Ha; [|exact I].
  assert (Hx : (quote =? x)%N = false).
  { apply orb_prop in Ha as [Ha|Ha]; apply N.eqb_eq in Ha; now subst x. }
  pose proof (local_matchStringCI s Hs r (S p) u
                (evenQuotes_tail x u Hx Hu)) as H.
  destruct (matchStringCI s (mkCur (S p) (u ++ bangEq ++ r))) as [| |c1 a1],
           (matchStringCI s (mkCur (S p) (u ++ ltGt ++ r))) as [| |c2 a2];
    simpl in H; simpl; try tauto.
  destruct H as [<- Hb]. split; [reflexivity|].
  now apply before_one.
Qed.

Lemma localAfter_ComparisonOp : localAfter ComparisonOp.
Proof.
  unfold ComparisonOp, Equal, NotEqual, LessOrEqual, Less, GreaterOrEqual,
    Greater, kw.
  repeat apply localAfter_alt; apply localAfter_capture;
    repeat apply localAfter_alt; apply localAfter_literal; reflexivity.
Qed.

(** Parsers that answer alike. *)

Lemma twins_same (c : cursor) (q : parser) : twinResult twins (q c) (q c).
Proof. destruct (q c); simpl; try tauto. split; [reflexivity|now left]. Qed.

Lemma twins_position (c1 c2 : cursor) :
  twins c1 c2 -> position c1 = position c2.
Proof. intros [-> | (r & p & u & _ & -> & ->)]; reflexivity. Qed.

Lemma twins_length (c1 c2 : cursor) :
  twins c1 c2 -> length (remaining c1) = length (remaining c2).
Proof.
  intros [-> | (r & p & u & _ & -> & ->)]; [reflexivity|apply twin_length].
Qed.

Lemma agrees_local (q : parser) : local q -> agrees q.
Proof.
  intros H c1 c2 [-> | (r & p & u & Hu & -> & ->)]; [apply twins_same|].
  apply (twinResult_mono (before r p u)); [|now apply H].
  intros d1 d2. now apply before_twins.
Qed.

Lemma agrees_seq (q1 q2 : parser) : agrees q1 -> agrees q2 -> agrees (q1 ;; q2).
Proof.
  intros H1 H2 c1 c2 Hc. unfold seq. specialize (H1 c1 c2 Hc).
  destruct (q1 c1) as [| |d1 a1], (q1 c2) as [| |d2 a2];
    simpl in H1; simpl; try tauto.
  destruct H1 as [<- Hd]. specialize (H2 d1 d2 Hd).
  destruct (q2 d1) as [| |e1 b1], (q2 d2) as [| |e2 b2];
    simpl in H2; simpl; try tauto.
  destruct H2 as [<- He]. now split.
Qed.

Lemma agrees_alt (q1 q2 : parser) : agrees q1 -> agrees q2 -> agrees (q1 // q2).
Proof.
  intros H1 H2 c1 c2 Hc. unfold alt. specialize (H1 c1 c2 Hc).
  destruct (q1 c1) as [| |d1 a1], (q1 c2) as [| |d2 a2];
    simpl in H1; simpl; try tauto.
  now apply H2.
Qed.

Lemma agrees_empty : agrees empty.
Proof. intros c1 c2 Hc. simpl. now split. Qed.

Lemma agrees_opt (q : parser) : agrees q -> agrees (opt q).
Proof. intros H. apply agrees_alt; [assumption|apply agrees_empty]. Qed.

Lemma agrees_notp (q : parser) : agrees q -> agrees (notp q).
Proof.
  intros H c1 c2 Hc. unfold notp. specialize (H c1 c2 Hc).
  destruct (q c1) as [| |d1 a1], (q c2) as [| |d2 a2];
    simpl in H; simpl; try tauto.
Qed.

Lemma agrees_starLoop (q : parser) :
  agrees q -> forall n, agrees (starLoop q n).
Proof.
  intros H n. induction n as [|n IH]; intros c1 c2 Hc; cbn [starLoop];
    specialize (H c1 c2 Hc);
    destruct (q c1) as [| |d1 a1], (q c2) as [| |d2 a2];
    simpl in H; simpl; try tauto.
  destruct H as [<- Hd]. specialize (IH d1 d2 Hd).
  destruct (starLoop q n d1) as [| |e1 b1], (starLoop q n d2) as [| |e2 b2];
    simpl in IH; simpl; try tauto.
  destruct IH as [<- He]. now split.
Qed.

Lemma agrees_star (q : parser) : agrees q -> agrees (star q).
Proof.
  intros H c1 c2 Hc. unfold star. rewrite (twins_length c1 c2 Hc).
  now apply agrees_starLoop.
Qed.

(** A capture whose action does not use the captured text. *)
Lemma agrees_capture (q : parser) k :
  (forall b e t t', k b e t = k b e t') ->
  agrees q -> agrees (capture q k).
Proof.
  intros Hk H c1 c2 Hc. unfold capture. specialize (H c1 c2 Hc).
  destruct (q c1) as [| |d1 a1], (q c2) as [| |d2 a2];
    simpl in H; simpl; try tauto.
  destruct H as [<- Hd]. split; [|assumption].
  rewrite (twins_position c1 c2 Hc), (twins_position d1 d2 Hd).
  f_equal. f_equal. apply Hk.
Qed.

Lemma agrees_action (q : parser) a : agrees q -> agrees (action q a).
Proof.
  intros H c1 c2 Hc. unfold action. specialize (H c1 c2 Hc).
  destruct (q c1) as [| |d1 a1], (q c2) as [| |d2 a2];
    simpl in H; simpl; try tauto.
  destruct H as [<- Hd]. now split.
Qed.

(** The comparison operator is where the two texts are told apart, and
    where they come together again. *)
Lemma agrees_ComparisonOp : agrees ComparisonOp.
Proof.
  intros c1 c2 [-> | (r & p & u & Hu & -> & ->)]; [apply twins_same|].
  destruct u as [|x u].
  - simpl. split; [reflexivity|now left].
  - apply (twinResult_mono (before r p (x :: u))).
    + intros d1 d2. now apply before_twins.
    + now apply localAfter_ComparisonOp.
Qed.

Lemma agrees_end : agrees (notp matchDot).
Proof.
  intros c1 c2 [-> | (r & p & u & Hu & -> & ->)]; [apply twins_same|].
  unfold notp, matchDot. cbn [remaining].
  destruct u as [|x u]; exact I.
Qed.

End Twins.


Ltac local_tac :=
  lazymatch goal with
  | |- local (seq _ _) => apply local_seq; local_tac
  | |- local (alt _ _) => apply local_alt; local_tac
  | |- local (opt _) => apply local_opt; local_tac
  | |- local (notp _) => apply local_notp; local_tac
  | |- local (star _) => apply local_star; local_tac
  | |- local (plus _) => apply local_plus; local_tac
  | |- local (capture _ _) => apply local_capture; local_tac
  | |- local (action _ _) => apply local_action; local_tac
  | |- local (matchClass _) => apply local_matchClass; reflexivity
  | |- local (matchChar _) => apply local_matchChar; reflexivity
  | |- local (matchStringCI _) => apply local_matchStringCI; reflexivity
  | |- local empty => apply local_empty
  | |- local StringLiteral => apply local_StringLiteral
  | |- local ?q => unfold_rule q; local_tac
  end.

Ltac agrees_tac :=
  lazymatch goal with
  | H : agrees ?q |- agrees ?q => exact H
  | |- agrees ComparisonOp => apply agrees_ComparisonOp
  | |- agrees (notp matchDot) => apply agrees_end
  | |- agrees ?q =>
      first
        [ solve [apply agrees_local; local_tac]
        | lazymatch goal with
          | |- agrees (seq _ _) => apply agrees_seq; agrees_tac
          | |- agrees (alt _ _) => apply agrees_alt; agrees_tac
          | |- agrees (opt _) => apply agrees_opt; agrees_tac
          | |- agrees (notp _) => apply agrees_notp; agrees_tac
          | |- agrees (star _) => apply agrees_star; agrees_tac
          | |- agrees (capture _ _) =>
              apply agrees_capture; [intros; reflexivity | agrees_tac]
          | |- agrees (action _ _) => apply agrees_action; agrees_tac
          | |- agrees ?q' => unfold_rule q'; agrees_tac
          end ]
  end.

Section RulesAgree.

Variable E : parser.
Hypothesis agrees_E : agrees E.

Lemma agrees_baseExpr : agrees (baseExpr E).
Proof. agrees_tac. Qed.

Lemma agrees_productExpr : agrees (productExpr E).
Proof. pose proof agrees_baseExpr. agrees_tac. Qed.

Lemma agrees_termExpr : agrees (termExpr E).
Proof. pose proof agrees_productExpr. agrees_tac. Qed.

Lemma agrees_comparisonExpr : agrees (comparisonExpr E).
Proof. pose proof agrees_termExpr. agrees_tac. Qed.

Lemma agrees_andExpr : agrees (andExpr E).
Proof. pose proof agrees_comparisonExpr. agrees_tac. Qed.

Lemma agrees_orExpr : agrees (orExpr E).
Proof. pose proof agrees_andExpr. agrees_tac. Qed.

Lemma agrees_Statement : agrees (Statement E).
Proof. agrees_tac. Qed.

End RulesAgree.

Lemma agrees_ExpressionN (n : nat) : agrees (ExpressionN n).
Proof.
  induction n as [|n IH].
  - intros c1 c2 _. exact I.
  - change (agrees (orExpr (ExpressionN n))). now apply agrees_orExpr.
Qed.

(** Two texts that differ in the spelling of one "not equal", written
    outside any string literal (after an even number of quotes), get the
    same answer. *)
Lemma parse_twins (l r : text) :
  evenQuotes l = true -> parse (l ++ bangEq ++ r) = parse (l ++ ltGt ++ r).
Proof.
  intros Hl. unfold parse. rewrite (twin_length l r).
  set (n := S (length (l ++ ltGt ++ r))). unfold parseWith.
  assert (Ht : twins (start (l ++ bangEq ++ r)) (start (l ++ ltGt ++ r)))
    by (right; now exists r, 0, l).
  pose proof (agrees_Statement (ExpressionN n) (agrees_ExpressionN n) _ _ Ht)
    as H.
  destruct (Statement (ExpressionN n) (start (l ++ bangEq ++ r)))
    as [| |c1 a1],
    (Statement (ExpressionN n) (start (l ++ ltGt ++ r))) as [| |c2 a2];
    simpl in H; try tauto.
  now destruct H as [<- _].
Qed.

(** C8.  != and <> are synonyms: wherever a comparison operator is read,
    either spelling is matched over the same two characters and pushes the
    same NotEqual tag, so the recorded actions coincide; and two texts that
    are identical except that one writes != where the other writes <> get
    the same answer from the parser: the same AST, carrying NotEqual, or
    the same error.  The text in front of the operator is any text with an
    even number of quotes, so it may hold string literals; after an odd
    number of quotes the two characters are inside a string literal, where
    they are not an operator but part of the value, and the two texts
    differ in that value. *)
Theorem not_equal_synonyms :
  (forall (p : nat) (rest : text),
      let pushed :=
        Match (mkCur (S (S p)) rest)
              [DoPushComponent p (S (S p)) (Op Ast.NotEqual)] in
      NotEqual (mkCur p (bangEq ++ rest)) = pushed
      /\ NotEqual (mkCur p (ltGt ++ rest)) = pushed
      /\ ComparisonOp (mkCur p (bangEq ++ rest)) = pushed
      /\ ComparisonOp (mkCur p (ltGt ++ rest)) = pushed)
  /\ (forall l r : text,
        evenQuotes l = true ->
        parse (l ++ bangEq ++ r) = parse (l ++ ltGt ++ r))
  /\ parse (runes "SELECT a FROM s WHERE a != b")
     = Tree (Ast.SelectStmt
               (ProjectionsAST [Ast.ColumnName (runes "a")])
               (FromAST [Ast.Relation (runes "s")])
               (FilterAST
                  (Some (BinaryOpAST Ast.NotEqual (Ast.ColumnName (runes "a"))
                                     (Ast.ColumnName (runes "b")))))
               (GroupingAST []) (HavingAST None))
  /\ parse (runes "SELECT a FROM s WHERE a = 'x' AND b <> c")
     = Tree (Ast.SelectStmt
               (ProjectionsAST [Ast.ColumnName (runes "a")])
               (FromAST [Ast.Relation (runes "s")])
               (FilterAST
                  (Some (BinaryOpAST
                           Ast.And
                           (BinaryOpAST Ast.Equal
                                        (Ast.ColumnName (runes "a"))
                                        (Ast.StringLiteral (runes "x")))
                           (BinaryOpAST Ast.NotEqual
                                        (Ast.ColumnName (runes "b"))
                                        (Ast.ColumnName (runes "c"))))))
               (GroupingAST []) (HavingAST None))
  /\ evenQuotes (runes "SELECT a FROM s WHERE a = '") = false
  /\ parse (runes "SELECT a FROM s WHERE a = '" ++ bangEq ++ runes "'")
     <> parse (runes "SELECT a FROM s WHERE a = '" ++ ltGt ++ runes "'").
Proof.
  split; [|split; [|split; [|split; [|split]]]].
  - intros p rest pushed. repeat split.
  - exact parse_twins.
  - vm_compute. reflexivity.
  - vm_compute. reflexivity.
  - reflexivity.
  - vm_compute. discriminate.
Qed.

Lemma not_equal_synonyms_witness :
  evenQuotes (runes "SELECT a FROM s WHERE a = 'x' AND b ") = true
  /\ parse (runes "SELECT a FROM s WHERE a = 'x' AND b "
            ++ bangEq ++ runes " c")
     = parse (runes "SELECT a FROM s WHERE a = 'x' AND b "
              ++ ltGt ++ runes " c").
Proof.
  split; [reflexivity|].
  apply (proj1 (proj2 not_equal_synonyms)). reflexivity.
Defined.

(** * Further properties of the grammar *)

(** ** Spans of the recorded actions *)

Section Spans.

Lemma spanOk_widen (lo hi lo' hi' : nat) (a : Action) :
  lo' <= lo -> hi <= hi' -> spanOk lo hi a -> spanOk lo' hi' a.
Proof. intros Hlo Hhi. destruct a; simpl; trivial; lia. Qed.

Lemma spans_widen (lo hi lo' hi' : nat) (acts : list Action) :
  lo' <= lo -> hi <= hi' ->
  Forall (spanOk lo hi) acts -> Forall (spanOk lo' hi') acts.
Proof.
  intros Hlo Hhi. apply Forall_impl. intros a. now apply spanOk_widen.
Qed.

Lemma advances_position (p : parser) :
  advances p -> forall c c' a, p c = Match c' a -> position c <= position c'.
Proof. intros Hp c c' a H. destruct (Hp _ _ _ H) as (u & _ & Hpos). lia. Qed.

Lemma consumes_position (p : parser) :
  advances p -> consumes p ->
  forall c c' a, p c = Match c' a -> position c < position c'.
Proof.
  intros Ha Hc c c' a H. destruct (Ha _ _ _ H) as (u & Hu & Hpos).
  pose proof (Hc _ _ _ H) as Hlen. rewrite Hu, length_app in Hlen. lia.
Qed.

Lemma tidy_silent (p : parser) : silent p -> tidy p.
Proof. intros Hp c c' a H. rewrite (Hp _ _ _ H). constructor. Qed.

Lemma tidy_empty : tidy empty.
Proof. apply tidy_silent, silent_empty. Qed.

Lemma tidy_matchClass (f : rune -> bool) : tidy (matchClass f).
Proof. apply tidy_silent, silent_matchClass. Qed.

Lemma tidy_matchChar (x : rune) : tidy (matchChar x).
Proof. apply tidy_matchClass. Qed.

Lemma tidy_matchStringCI (s : text) : tidy (matchStringCI s).
Proof. apply tidy_silent, silent_matchStringCI. Qed.

Lemma tidy_matchDot : tidy matchDot.
Proof.
  intros c c' a. unfold matchDot. destruct (remaining c); [discriminate|].
  intros H. injection H as <- <-. constructor.
Qed.

Lemma tidy_notp (p : parser) : tidy (notp p).
Proof.
  intros c c' a. unfold notp. destruct (p c); try discriminate.
  intros H. injection H as <- <-. constructor.
Qed.

Lemma tidy_seq (p q : parser) :
  advances p -> advances q -> tidy p -> tidy q -> tidy (p ;; q).
Proof.
  intros Hap Haq Hp Hq c c' a. unfold seq.
  destruct (p c) as [| |c1 a1] eqn:E1; try discriminate.
  destruct (q c1) as [| |c2 a2] eqn:E2; try discriminate.
  intros H. injection H as <- <-.
  pose proof (advances_position p Hap _ _ _ E1).
  pose proof (advances_position q Haq _ _ _ E2).
  apply Forall_app. split.
  - apply (spans_widen (position c) (position c1)); [lia|lia|].
    apply (Hp _ _ _ E1).
  - apply (spans_widen (position c1) (position c2)); [lia|lia|].
    apply (Hq _ _ _ E2).
Qed.

Lemma tidy_alt (p q : parser) : tidy p -> tidy q -> tidy (p // q).
Proof.
  intros Hp Hq c c' a. unfold alt.
  destruct (p c) as [| |c1 a1] eqn:E1; try discriminate.
  - apply Hq.
  - intros H. injection H as <- <-. apply (Hp _ _ _ E1).
Qed.

Lemma tidy_opt (p : parser) : tidy p -> tidy (opt p).
Proof. intros Hp. apply tidy_alt; [assumption|apply tidy_empty]. Qed.

Lemma tidy_starLoop (p : parser) :
  advances p -> tidy p -> forall n, tidy (starLoop p n).
Proof.
  intros Ha Hp n. induction n as [|n IH]; intros c c' a; simpl;
    destruct (p c) as [| |c1 a1] eqn:E1; try discriminate;
    try (intros H; injection H as <- <-; constructor).
  destruct (starLoop p n c1) as [| |c2 a2] eqn:E2; try discriminate.
  intros H. injection H as <- <-.
  pose proof (advances_position p Ha _ _ _ E1).
  pose proof (advances_position _ (advances_starLoop Ha n) _ _ _ E2).
  apply Forall_app. split.
  - apply (spans_widen (position c) (position c1)); [lia|lia|].
    apply (Hp _ _ _ E1).
  - apply (spans_widen (position c1) (position c2)); [lia|lia|].
    apply (IH _ _ _ E2).
Qed.

Lemma tidy_star (p : parser) : advances p -> tidy p -> tidy (star p).
Proof. intros Ha Hp c. unfold star. now apply tidy_starLoop. Qed.

Lemma tidy_plus (p : parser) : advances p -> tidy p -> tidy (plus p).
Proof.
  intros Ha Hp. apply tidy_seq; try assumption;
    [now apply advances_star | now apply tidy_star].
Qed.

(** A capture whose action may receive an empty span. *)
Lemma tidy_capture_clause (p : parser) k :
  (forall b e t, b <= e -> spanOk b e (k b e t)) ->
  advances p -> tidy p -> tidy (capture p k).
Proof.
  intros Hk Ha Hp c c' a. unfold capture.
  destruct (p c) as [| |c1 a1] eqn:E1; try discriminate.
  intros H. injection H as <- <-.
  apply Forall_app. split; [apply (Hp _ _ _ E1)|].
  constructor; [|constructor].
  apply Hk, (advances_position p Ha _ _ _ E1).
Qed.

(** A capture around a parser that consumes: the span is not empty. *)
Lemma tidy_capture_token (p : parser) k :
  (forall b e t, b < e -> spanOk b e (k b e t)) ->
  advances p -> consumes p -> tidy p -> tidy (capture p k).
Proof.
  intros Hk Ha Hc Hp c c' a. unfold capture.
  destruct (p c) as [| |c1 a1] eqn:E1; try discriminate.
  intros H. injection H as <- <-.
  apply Forall_app. split; [apply (Hp _ _ _ E1)|].
  constructor; [|constructor].
  apply Hk, (consumes_position p Ha Hc _ _ _ E1).
Qed.

Lemma tidy_action (p : parser) (x : Action) :
  (forall lo hi, spanOk lo hi x) -> tidy p -> tidy (action p x).
Proof.
  intros Hx Hp c c' a. unfold action.
  destruct (p c) as [| |c1 a1] eqn:E1; try discriminate.
  intros H. injection H as <- <-.
  apply Forall_app. split; [apply (Hp _ _ _ E1)|].
  constructor; [apply Hx|constructor].
Qed.

End Spans.

Ltac span_side := intros; unfold push, pushText; simpl; lia.

Ltac tidy_tac :=
  lazymatch goal with
  | H : tidy ?p |- tidy ?p => exact H
  | |- tidy (seq _ _) =>
      apply tidy_seq; [advances_tac | advances_tac | tidy_tac | tidy_tac]
  | |- tidy (alt _ _) => apply tidy_alt; tidy_tac
  | |- tidy (opt _) => apply tidy_opt; tidy_tac
  | |- tidy (notp _) => apply tidy_notp
  | |- tidy (star _) => apply tidy_star; [advances_tac | tidy_tac]
  | |- tidy (plus _) => apply tidy_plus; [advances_tac | tidy_tac]
  | |- tidy (capture _ _) =>
      first
        [ apply tidy_capture_clause; [solve [span_side] | advances_tac | tidy_tac]
        | apply tidy_capture_token;
          [solve [span_side] | advances_tac | consumes_tac | tidy_tac] ]
  | |- tidy (action _ _) => apply tidy_action; [intros; exact I | tidy_tac]
  | |- tidy matchDot => apply tidy_matchDot
  | |- tidy (matchClass _) => apply tidy_matchClass
  | |- tidy (matchChar _) => apply tidy_matchChar
  | |- tidy (matchStringCI _) => apply tidy_matchStringCI
  | |- tidy empty => apply tidy_empty
  | |- tidy ?p => unfold_rule p; tidy_tac
  end.

Section RulesTidy.

Variable E : parser.
Hypothesis advances_E : advances E.

Lemma consumes_baseExpr : consumes (baseExpr E).
Proof. consumes_tac. Qed.

Lemma consumes_orExpr : consumes (orExpr E).
Proof. pose proof consumes_baseExpr. consumes_tac. Qed.

Hypothesis consumes_E : consumes E.
Hypothesis tidy_E : tidy E.

Lemma tidy_baseExpr : tidy (baseExpr E).
Proof. tidy_tac. Qed.

Lemma tidy_orExpr : tidy (orExpr E).
Proof.
  pose proof tidy_baseExpr. pose proof consumes_baseExpr.
  assert (advances (baseExpr E)) by advances_tac.
  tidy_tac.
Qed.

Lemma tidy_Statement : tidy (Statement E).
Proof. tidy_tac. Qed.

End RulesTidy.

Lemma consumes_ExpressionN (n : nat) : consumes (ExpressionN n).
Proof.
  destruct n as [|n]; simpl.
  - intros c c' a H. discriminate.
  - apply consumes_orExpr, advances_ExpressionN.
Qed.

Lemma tidy_ExpressionN (n : nat) : tidy (ExpressionN n).
Proof.
  induction n as [|n IH]; simpl.
  - intros c c' a H. discriminate.
  - apply tidy_orExpr;
      [apply advances_ExpressionN | apply consumes_ExpressionN | exact IH].
Qed.

(** X1.  Every action that a matched statement records has its span
    inside the text: 0 <= begin <= end <= length.  The span of a pushed
    token, of a binary-operation reduction, of a projection list and of a
    parameter list is never empty; only the reductions of the optional
    clauses can receive an empty span. *)
Theorem recorded_spans_inside_text :
  forall (s : text) (n : nat) (c : cursor) (acts : list Action),
    Statement (ExpressionN n) (start s) = Match c acts ->
    c = mkCur (length s) [] /\ Forall (spanOk 0 (length s)) acts.
Proof.
  intros s n c acts H.
  assert (Hc : c = mkCur (length s) []).
  { destruct (@Statement_inv _ _ _ _ H) as [_ Hnil].
    apply (@start_consumed _ s c acts
             (advances_Statement (@advances_ExpressionN n)) H Hnil). }
  split; [exact Hc|].
  pose proof (tidy_Statement _ (@advances_ExpressionN n)
                (consumes_ExpressionN n) (tidy_ExpressionN n) _ _ _ H) as Ht.
  now rewrite Hc in Ht.
Qed.

Lemma recorded_spans_inside_text_witness :
  exists acts,
    Statement (ExpressionN 20) (start (runes "SELECT a + 1 FROM s"))
    = Match (mkCur 19 []) acts
    /\ Forall (spanOk 0 19) acts.
Proof.
  eexists. split; [vm_compute; reflexivity|].
  apply (proj2 (recorded_spans_inside_text
                  (runes "SELECT a + 1 FROM s") 20 (mkCur 19 []) _
                  ltac:(vm_compute; reflexivity))).
Defined.

(** ** The order of the recorded spans *)

Section Nesting.

Lemma ForallOrdPairs_app (A : Type) (R : A -> A -> Prop) (l1 l2 : list A) :
  ForallOrdPairs R l1 -> ForallOrdPairs R l2 ->
  (forall a b, In a l1 -> In b l2 -> R a b) ->
  ForallOrdPairs R (l1 ++ l2).
Proof.
  intros H1 H2 Hcross. induction H1 as [|a l1 Ha H1 IH]; [exact H2|].
  cbn [app]. constructor.
  - apply Forall_app. split; [exact Ha|].
    apply Forall_forall. intros b Hb. apply Hcross; [now left|exact Hb].
  - apply IH. intros x y Hx Hy. apply Hcross; [now right|exact Hy].
Qed.

Lemma spanOk_bounds (lo hi : nat) (a : Action) :
  spanOk lo hi a ->
  match spanOf a with
  | Some (b, e) => lo <= b /\ e <= hi
  | None => True
  end.
Proof. destruct a; cbn [spanOk spanOf]; trivial; lia. Qed.

(** What one part records ends before what the next part records
    starts. *)
Lemma follows_parts (lo mid hi : nat) (a1 a2 : list Action) :
  Forall (spanOk lo mid) a1 -> Forall (spanOk mid hi) a2 ->
  forall a b, In a a1 -> In b a2 -> follows a b.
Proof.
  intros H1 H2 a b Ha Hb.
  pose proof (spanOk_bounds _ _ _ (proj1 (Forall_forall _ _) H1 a Ha)) as Ba.
  pose proof (spanOk_bounds _ _ _ (proj1 (Forall_forall _ _) H2 b Hb)) as Bb.
  unfold follows. destruct (spanOf a) as [[b1 e1]|]; [|exact I].
  destruct (spanOf b) as [[b2 e2]|]; [|exact I]. right. lia.
Qed.

Lemma nested_silent (p : parser) : silent p -> nested p.
Proof. intros Hp c c' a H. rewrite (Hp _ _ _ H). constructor. Qed.

Lemma nested_matchDot : nested matchDot.
Proof.
  intros c c' a. unfold matchDot. destruct (remaining c); [discriminate|].
  intros H. injection H as <- <-. constructor.
Qed.

Lemma nested_notp (p : parser) : nested (notp p).
Proof.
  intros c c' a. unfold notp. destruct (p c); try discriminate.
  intros H. injection H as <- <-. constructor.
Qed.

Lemma nested_seq (p q : parser) :
  tidy p -> tidy q -> nested p -> nested q -> nested (p ;; q).
Proof.
  intros Tp Tq Hp Hq c c' a. unfold seq.
  destruct (p c) as [| |c1 a1] eqn:E1; try discriminate.
  destruct (q c1) as [| |c2 a2] eqn:E2; try discriminate.
  intros H. injection H as <- <-.
  apply ForallOrdPairs_app;
    [apply (Hp _ _ _ E1) | apply (Hq _ _ _ E2) |].
  apply (follows_parts _ _ _ _ _ (Tp _ _ _ E1) (Tq _ _ _ E2)).
Qed.

Lemma nested_alt (p q : parser) : nested p -> nested q -> nested (p // q).
Proof.
  intros Hp Hq c c' a. unfold alt.
  destruct (p c) as [| |c1 a1] eqn:E1; try discriminate.
  - apply Hq.
  - intros H. injection H as <- <-. apply (Hp _ _ _ E1).
Qed.

Lemma nested_opt (p : parser) : nested p -> nested (opt p).
Proof.
  intros Hp. apply nested_alt; [assumption|].
  apply nested_silent, silent_empty.
Qed.

Lemma nested_starLoop (p : parser) :
  advances p -> tidy p -> nested p -> forall n, nested (starLoop p n).
Proof.
  intros Ha Tp Hp n. induction n as [|n IH]; intros c c' a; simpl;
    destruct (p c) as [| |c1 a1] eqn:E1; try discriminate;
    try (intros H; injection H as <- <-; constructor).
  destruct (starLoop p n c1) as [| |c2 a2] eqn:E2; try discriminate.
  intros H. injection H as <- <-.
  apply ForallOrdPairs_app;
    [apply (Hp _ _ _ E1) | apply (IH _ _ _ E2) |].
  apply (follows_parts _ _ _ _ _ (Tp _ _ _ E1)
                       (tidy_starLoop p Ha Tp n _ _ _ E2)).
Qed.

Lemma nested_star (p : parser) :
  advances p -> tidy p -> nested p -> nested (star p).
Proof. intros Ha Tp Hp c. unfold star. now apply nested_starLoop. Qed.

Lemma nested_plus (p : parser) :
  advances p -> tidy p -> nested p -> nested (plus p).
Proof.
  intros Ha Tp Hp. apply nested_seq; try assumption;
    [now apply tidy_star | now apply nested_star].
Qed.

(** The action of a capture comes after everything recorded inside the
    capture, and its span contains theirs. *)
Lemma nested_capture (p : parser) k :
  (forall b e t, spanOf (k b e t) = Some (b, e)) ->
  tidy p -> nested p -> nested (capture p k).
Proof.
  intros Hk Tp Hp c c' a. unfold capture.
  destruct (p c) as [| |c1 a1] eqn:E1; try discriminate.
  intros H. injection H as <- <-.
  apply ForallOrdPairs_app;
    [apply (Hp _ _ _ E1) | repeat constructor |].
  intros x y Hx [<- | []].
  pose proof (spanOk_bounds _ _ _
                (proj1 (Forall_forall _ _) (Tp _ _ _ E1) x Hx)) as Bx.
  unfold follows. rewrite Hk.
  destruct (spanOf x) as [[b1 e1]|]; [|exact I]. left. lia.
Qed.

Lemma nested_action (p : parser) (x : Action) :
  spanOf x = None -> nested p -> nested (action p x).
Proof.
  intros Hx Hp c c' a. unfold action.
  destruct (p c) as [| |c1 a1] eqn:E1; try discriminate.
  intros H. injection H as <- <-.
  apply ForallOrdPairs_app;
    [apply (Hp _ _ _ E1) | repeat constructor |].
  intros y z _ [<- | []]. unfold follows. rewrite Hx.
  now destruct (spanOf y) as [[b1 e1]|].
Qed.

End Nesting.

Ltac nested_tac :=
  lazymatch goal with
  | H : nested ?p |- nested ?p => exact H
  | |- nested (seq _ _) =>
      apply nested_seq; [tidy_tac | tidy_tac | nested_tac | nested_tac]
  | |- nested (alt _ _) => apply nested_alt; nested_tac
  | |- nested (opt _) => apply nested_opt; nested_tac
  | |- nested (notp _) => apply nested_notp
  | |- nested (star _) =>
      apply nested_star; [advances_tac | tidy_tac | nested_tac]
  | |- nested (plus _) =>
      apply nested_plus; [advances_tac | tidy_tac | nested_tac]
  | |- nested (capture _ _) =>
      apply nested_capture; [intros; reflexivity | tidy_tac | nested_tac]
  | |- nested (action _ _) => apply nested_action; [reflexivity | nested_tac]
  | |- nested matchDot => apply nested_matchDot
  | |- nested (matchClass _) => apply nested_silent, silent_matchClass
  | |- nested (matchChar _) => apply nested_silent, silent_matchClass
  | |- nested (matchStringCI _) => apply nested_silent, silent_matchStringCI
  | |- nested empty => apply nested_silent, silent_empty
  | |- nested ?p => unfold_rule p; nested_tac
  end.

Section RulesNested.

Variable E : parser.
Hypothesis advances_E : advances E.
Hypothesis consumes_E : consumes E.
Hypothesis tidy_E : tidy E.
Hypothesis nested_E : nested E.

Lemma nested_baseExpr : nested (baseExpr E).
Proof. nested_tac. Qed.

Lemma nested_orExpr : nested (orExpr E).
Proof.
  pose proof nested_baseExpr.
  pose proof (tidy_baseExpr E advances_E consumes_E tidy_E).
  pose proof (consumes_baseExpr E advances_E).
  assert (advances (baseExpr E)) by advances_tac.
  nested_tac.
Qed.

Lemma nested_Statement : nested (Statement E).
Proof. nested_tac. Qed.

End RulesNested.

Lemma nested_ExpressionN (n : nat) : nested (ExpressionN n).
Proof.
  induction n as [|n IH]; simpl.
  - intros c c' a H. discriminate.
  - apply nested_orExpr;
      [apply advances_ExpressionN | apply consumes_ExpressionN
       | apply tidy_ExpressionN | exact IH].
Qed.

(** X2.  The spans that a matched statement records are nested or
    disjoint, and recorded inside-out and left to right: of two recorded
    actions, the span of the later one either contains the span of the
    earlier one or starts where the earlier one has ended.  No two
    recorded spans overlap in part. *)
Theorem recorded_spans_nested :
  forall (s : text) (n : nat) (c : cursor) (acts : list Action),
    Statement (ExpressionN n) (start s) = Match c acts ->
    ForallOrdPairs follows acts.
Proof.
  intros s n c acts H.
  apply (nested_Statement _ (@advances_ExpressionN n)
           (consumes_ExpressionN n) (tidy_ExpressionN n)
           (nested_ExpressionN n) _ _ _ H).
Qed.

Lemma recorded_spans_nested_witness :
  exists acts,
    Statement (ExpressionN 20) (start (runes "SELECT a + 1 FROM s"))
    = Match (mkCur 19 []) acts
    /\ ForallOrdPairs follows acts.
Proof.
  eexists. split; [vm_compute; reflexivity|].
  apply (recorded_spans_nested
           (runes "SELECT a + 1 FROM s") 20 (mkCur 19 []) _
           ltac:(vm_compute; reflexivity)).
Defined.

(** ** Stepping through a text *)

Section Steps.

Lemma blank_class (c : cursor) :
  (ch " " // ch "009" // ch "010") c = matchClass isBlank c.
Proof.
  unfold isBlank.
  rewrite (@alt_class_ext _ _ _ _ (fun c => eq_refl (ch " " c))
             (@alt_class_ext _ _ _ _ (fun c => eq_refl (ch "009" c))
                             (fun c => eq_refl (ch "010" c)))).
  unfold matchClass. destruct (remaining c) as [|x r]; [reflexivity|].
  now rewrite orb_assoc.
Qed.

Lemma sp_app (p : nat) (ws rest : text) :
  forallb isBlank ws = true -> startsWith isBlank rest = false ->
  sp (mkCur p (ws ++ rest)) = Match (mkCur (p + length ws) rest) [].
Proof.
  intros Hws Hrest. unfold sp.
  now apply (@star_class_app _ isBlank blank_class).
Qed.

Lemma spells_length (s : text) :
  forall w, spells s w = true -> length w = length s.
Proof.
  induction s as [|x s IH]; intros [|y w] H; try discriminate;
    [reflexivity|].
  cbn [spells] in H. apply andb_prop in H as [_ H].
  cbn [length]. now rewrite (IH _ H).
Qed.

Lemma matchCharCI_spelled (x y : rune) (p : nat) (r : text) :
  ((toLower x =? y)%N || (toUpper x =? y)%N) = true ->
  matchCharCI x (mkCur p (y :: r)) = Match (mkCur (S p) r) [].
Proof.
  intros H. unfold matchCharCI.
  destruct (toLower x =? y)%N eqn:Hl.
  - apply N.eqb_eq in Hl. subst y. apply alt_Match, matchChar_hit.
  - rewrite alt_fail by now apply matchChar_miss.
    cbn [orb] in H. apply N.eqb_eq in H. subst y. apply matchChar_hit.
Qed.

(** A double-quoted literal matches each of its spellings. *)
Lemma matchStringCI_spells (s : text) :
  forall (w : text) (p : nat) (rest : text),
    spells s w = true ->
    matchStringCI s (mkCur p (w ++ rest)) = Match (mkCur (p + length w) rest) [].
Proof.
  induction s as [|x s IH]; intros [|y w] p rest H; try discriminate.
  - cbn [matchStringCI app length]. unfold empty. now rewrite Nat.add_0_r.
  - cbn [spells] in H. apply andb_prop in H as [Hxy Hw].
    cbn [matchStringCI app length].
    rewrite (seq_step _ _ _ (mkCur (S p) (w ++ rest)))
      by now apply matchCharCI_spelled.
    rewrite (IH _ _ _ Hw). do 2 f_equal. lia.
Qed.

Lemma kw_first_miss (k : rune) (ks : text) (p : nat) (x : rune) (r : text) :
  (toLower k =? x)%N = false -> (toUpper k =? x)%N = false ->
  matchStringCI (k :: ks) (mkCur p (x :: r)) = Fail.
Proof.
  intros Hl Hu. cbn [matchStringCI].
  now apply seq_fail_first, matchCharCI_miss.
Qed.

Lemma capture_ident_app (K : text -> Component) (p : nat) (t rest : text) :
  identifier t = true -> startsWith isIdentPart rest = false ->
  capture ident (pushText K) (mkCur p (t ++ rest))
  = Match (mkCur (p + length t) rest)
          [DoPushComponent p (p + length t) (K t)].
Proof.
  intros Ht Hrest.
  rewrite (capture_Match _ _ _ _ _ (ident_app p t rest Ht Hrest)).
  unfold pushText. cbn [app position remaining].
  replace (p + length t - p) with (length t) by lia.
  now rewrite firstn_length_app.
Qed.

Lemma identStart_not_blank (x : rune) :
  isIdentStart x = true -> isBlank x = false.
Proof.
  unfold isIdentStart, isLower, isUpper, isBlank.
  change (rune_of " ") with 32%N. change (rune_of "009") with 9%N.
  change (rune_of "010") with 10%N.
  intros H. apply orb_prop in H.
  repeat (apply orb_false_intro); apply N.eqb_neq; intros <-;
    destruct H as [H | H]; discriminate.
Qed.

Lemma identifier_not_blank (t rest : text) :
  identifier t = true -> startsWith isBlank (t ++ rest) = false.
Proof.
  destruct t as [|x t]; [discriminate|]. cbn [identifier app startsWith].
  intros H. apply andb_prop in H as [H _]. now apply identStart_not_blank.
Qed.

Lemma seq_Match (q1 q2 : parser) (c c1 : cursor) (a1 : list Action) :
  q1 c = Match c1 a1 ->
  (q1 ;; q2) c
  = match q2 c1 with
    | Match c2 a2 => Match c2 (a1 ++ a2)
    | r => r
    end.
Proof. intros H. unfold seq. now rewrite H. Qed.

Lemma starLoop_step_acts (q : parser) (n : nat) (c c' : cursor)
      (a : list Action) :
  q c = Match c' a ->
  starLoop q (S n) c
  = match starLoop q n c' with
    | Match c'' a' => Match c'' (a ++ a')
    | r => r
    end.
Proof. intros H. cbn [starLoop]. now rewrite H. Qed.

Lemma kw_step (K w rest : text) (p : nat) (q : parser) :
  spells K w = true ->
  (matchStringCI K ;; q) (mkCur p (w ++ rest)) = q (mkCur (p + length w) rest).
Proof. intros H. apply seq_step. now apply matchStringCI_spells. Qed.

Lemma sp_step (ws rest : text) (p : nat) (q : parser) :
  forallb isBlank ws = true -> startsWith isBlank rest = false ->
  (sp ;; q) (mkCur p (ws ++ rest)) = q (mkCur (p + length ws) rest).
Proof. intros Hws Hrest. apply seq_step. now apply sp_app. Qed.

(** The first character of a spelling is the first character of the
    literal, in one of the two cases. *)
Lemma spells_first (k : rune) (K w rest : text) (f : rune -> bool) :
  spells (k :: K) w = true ->
  f (toLower k) = false -> f (toUpper k) = false ->
  startsWith f (w ++ rest) = false.
Proof.
  destruct w as [|y w]; [discriminate|]. cbn [spells app startsWith].
  intros H Hl Hu. apply andb_prop in H as [H _].
  apply orb_prop in H as [H | H]; apply N.eqb_eq in H; now subst y.
Qed.

(** A literal does not match a spelling of a literal with another first
    letter. *)
Lemma kw_other_first (s : rune) (S' : text) (k : rune) (K w rest : text)
      (p : nat) :
  spells (k :: K) w = true ->
  ((toLower s =? toLower k) || (toLower s =? toUpper k)
   || (toUpper s =? toLower k) || (toUpper s =? toUpper k))%N = false ->
  matchStringCI (s :: S') (mkCur p (w ++ rest)) = Fail.
Proof.
  destruct w as [|y w]; [discriminate|]. cbn [spells app].
  intros H Hne. apply andb_prop in H as [H _].
  repeat (apply orb_false_elim in Hne as [Hne ?]).
  apply kw_first_miss;
    apply orb_prop in H as [H | H]; apply N.eqb_eq in H; now subst y.
Qed.

Lemma blank_not_identPart (ws rest : text) :
  forallb isBlank ws = true -> ws <> [] ->
  startsWith isIdentPart (ws ++ rest) = false.
Proof.
  destruct ws as [|x ws]; [congruence|]. intros Hws _.
  cbn [app startsWith]. cbn [forallb] in Hws.
  apply andb_prop in Hws as [Hx _].
  unfold isBlank in Hx.
  change (rune_of " ") with 32%N in Hx.
  change (rune_of "009") with 9%N in Hx.
  change (rune_of "010") with 10%N in Hx.
  repeat (apply orb_prop in Hx as [Hx | Hx]);
    apply N.eqb_eq in Hx; subst x; reflexivity.
Qed.

Lemma plus_digit_fail (p : nat) (rest : text) :
  startsWith isDigit rest = false -> plus digit (mkCur p rest) = Fail.
Proof.
  intros H. unfold plus. apply seq_fail_first.
  unfold digit, matchClass. cbn [remaining].
  destruct rest as [|y r]; [reflexivity|].
  cbn [startsWith] in H. now rewrite H.
Qed.

Lemma blank_is (x : rune) :
  isBlank x = true -> x = 32%N \/ x = 9%N \/ x = 10%N.
Proof.
  unfold isBlank.
  change (rune_of " ") with 32%N. change (rune_of "009") with 9%N.
  change (rune_of "010") with 10%N.
  intros H. repeat (apply orb_prop in H as [H | H]);
    apply N.eqb_eq in H; auto.
Qed.

(** After blanks: a test that no blank passes fails on the text if it
    fails on what follows the blanks. *)
Lemma after_blanks (f : rune -> bool) (ws rest : text) :
  forallb isBlank ws = true ->
  f 32%N = false -> f 9%N = false -> f 10%N = false ->
  startsWith f rest = false ->
  startsWith f (ws ++ rest) = false.
Proof.
  intros Hws H32 H9 H10 Hrest. destruct ws as [|x ws]; [exact Hrest|].
  cbn [app startsWith]. cbn [forallb] in Hws.
  apply andb_prop in Hws as [Hx _].
  destruct (blank_is x Hx) as [-> | [-> | ->]]; assumption.
Qed.

End Steps.

(** ** Comparison operators *)

(** X3.  The last alternative of ComparisonOp, the second NotEqual, is
    never the one that matches: at every position the rule answers as the
    six alternatives before it do. *)
Theorem ComparisonOp_last_alternative_unused :
  forall c : cursor,
    ComparisonOp c
    = (Equal // NotEqual // LessOrEqual // Less // GreaterOrEqual // Greater) c.
Proof.
  intros c. unfold ComparisonOp, alt.
  destruct (Equal c); try reflexivity.
  destruct (NotEqual c) eqn:HN; try reflexivity.
  destruct (LessOrEqual c); try reflexivity.
  destruct (Less c); try reflexivity.
  destruct (GreaterOrEqual c); try reflexivity.
  destruct (Greater c); reflexivity.
Qed.

(** X4.  ComparisonOp takes the longest operator at the position: [<=],
    [<>] and [>=] are read as one operator of two characters, never as
    [<] or [>] followed by something; [<] and [>] alone are read when the
    next character does not extend them. *)
Theorem ComparisonOp_longest_operator :
  forall (p : nat) (rest : text),
    ComparisonOp (mkCur p (runes "=" ++ rest))
    = Match (mkCur (S p) rest) [DoPushComponent p (S p) (Op Ast.Equal)]
    /\ ComparisonOp (mkCur p (runes "!=" ++ rest))
       = Match (mkCur (S (S p)) rest)
               [DoPushComponent p (S (S p)) (Op Ast.NotEqual)]
    /\ ComparisonOp (mkCur p (runes "<>" ++ rest))
       = Match (mkCur (S (S p)) rest)
               [DoPushComponent p (S (S p)) (Op Ast.NotEqual)]
    /\ ComparisonOp (mkCur p (runes "<=" ++ rest))
       = Match (mkCur (S (S p)) rest)
               [DoPushComponent p (S (S p)) (Op Ast.LessOrEqual)]
    /\ ComparisonOp (mkCur p (runes ">=" ++ rest))
       = Match (mkCur (S (S p)) rest)
               [DoPushComponent p (S (S p)) (Op Ast.GreaterOrEqual)]
    /\ (startsWith (fun x => (rune_of "=" =? x) || (rune_of ">" =? x))%N rest
        = false ->
        ComparisonOp (mkCur p (runes "<" ++ rest))
        = Match (mkCur (S p) rest) [DoPushComponent p (S p) (Op Ast.Less)])
    /\ (startsWith (N.eqb (rune_of "=")) rest = false ->
        ComparisonOp (mkCur p (runes ">" ++ rest))
        = Match (mkCur (S p) rest) [DoPushComponent p (S p) (Op Ast.Greater)])
    /\ (startsWith (N.eqb (rune_of "=")) rest = false ->
        ComparisonOp (mkCur p (runes "!" ++ rest)) = Fail).
Proof.
  intros p rest. repeat split; try reflexivity.
  - intros H. destruct rest as [|y r]; [reflexivity|].
    cbn [startsWith] in H. apply orb_false_elim in H as [H1 H2].
    cbv -[N.eqb] in H1, H2.
    repeat (progress (cbv -[N.eqb]; eqb_closed; rewrite ?H1, ?H2)).
    reflexivity.
  - intros H. destruct rest as [|y r]; [reflexivity|].
    cbn [startsWith] in H.
    cbv -[N.eqb] in H.
    repeat (progress (cbv -[N.eqb]; eqb_closed; rewrite ?H)).
    reflexivity.
  - intros H. destruct rest as [|y r]; [reflexivity|].
    cbn [startsWith] in H.
    cbv -[N.eqb] in H.
    repeat (progress (cbv -[N.eqb]; eqb_closed; rewrite ?H)).
    reflexivity.
Qed.

Lemma ComparisonOp_longest_operator_witness :
  ComparisonOp (mkCur 2 (runes "<" ++ runes " b"))
  = Match (mkCur 3 (runes " b")) [DoPushComponent 2 3 (Op Ast.Less)].
Proof.
  apply (proj1 (proj2 (proj2 (proj2 (proj2 (proj2
           (ComparisonOp_longest_operator 2 (runes " b")))))))).
  reflexivity.
Defined.

(** ** White space *)

(** X5.  [sp] never fails and records nothing: it skips the longest run
    of blanks, tabs and line feeds at the position, and stops in front of
    any other character (a carriage return is not skipped). *)
Theorem sp_skips_blanks :
  forall (p : nat) (s : text),
    sp (mkCur p s)
    = Match (mkCur (p + length (takeClass isBlank s)) (skipClass isBlank s)) []
    /\ startsWith isBlank (skipClass isBlank s) = false
    /\ isBlank 13%N = false.
Proof.
  intros p s. split; [|split].
  - unfold sp. apply (@star_class _ isBlank blank_class).
  - induction s as [|x s IH]; [reflexivity|].
    cbn [skipClass]. destruct (isBlank x) eqn:Hx; [exact IH|].
    cbn [startsWith]. exact Hx.
  - reflexivity.
Qed.

(** ** Parameter values *)

Lemma SourceSinkParamVal_run (p : nat) (s : text) :
  SourceSinkParamVal (mkCur p s)
  = if startsWith isIdentPart s
    then Match (mkCur (p + length (takeClass isIdentPart s))
                      (skipClass isIdentPart s))
               [DoPushComponent p (p + length (takeClass isIdentPart s))
                  (Ast.SourceSinkParamVal (takeClass isIdentPart s))]
    else Fail.
Proof.
  unfold SourceSinkParamVal, capture, plus, seq.
  rewrite identPart_class. unfold matchClass.
  destruct s as [|x s]; [reflexivity|].
  cbn [remaining position startsWith takeClass skipClass].
  destruct (isIdentPart x) eqn:Hx; [|reflexivity].
  rewrite (@star_class _ _ identPart_class).
  cbn [app length position remaining]. unfold pushText.
  replace (S p + length (takeClass isIdentPart s))
    with (p + S (length (takeClass isIdentPart s))) by lia.
  replace (p + S (length (takeClass isIdentPart s)) - p)
    with (S (length (takeClass isIdentPart s))) by lia.
  assert (Hf : firstn (S (length (takeClass isIdentPart s))) (x :: s)
               = x :: takeClass isIdentPart s).
  { change (x :: firstn (length (takeClass isIdentPart s)) s
            = x :: takeClass isIdentPart s).
    f_equal.
    transitivity (firstn (length (takeClass isIdentPart s))
                         (takeClass isIdentPart s ++ skipClass isIdentPart s));
      [now rewrite take_skip | apply firstn_length_app]. }
  now rewrite Hf.
Qed.

(** X6.  A parameter value of a WITH clause is the longest run of
    letters, digits and underscores at the position, and the rule fails
    when there is none: unlike an identifier the value may start with a
    digit or an underscore, and no other character (quote, point, minus
    sign, slash) can be part of it.  A parameter is a key, the equals
    sign and the value with nothing in between: a blank before or after
    the equals sign makes SourceSinkParam fail. *)
Theorem SourceSinkParam_spec :
  forall (p : nat) (key s : text),
    SourceSinkParamVal (mkCur p s)
    = (if startsWith isIdentPart s
       then Match (mkCur (p + length (takeClass isIdentPart s))
                         (skipClass isIdentPart s))
                  [DoPushComponent p (p + length (takeClass isIdentPart s))
                     (Ast.SourceSinkParamVal (takeClass isIdentPart s))]
       else Fail)
    /\ (identifier key = true ->
        SourceSinkParam (mkCur p (key ++ rune_of "=" :: s))
        = (if startsWith isIdentPart s
           then Match (mkCur (S (p + length key)
                              + length (takeClass isIdentPart s))
                             (skipClass isIdentPart s))
                      [DoPushComponent p (p + length key)
                         (Ast.SourceSinkParamKey key);
                       DoPushComponent
                         (S (p + length key))
                         (S (p + length key)
                          + length (takeClass isIdentPart s))
                         (Ast.SourceSinkParamVal (takeClass isIdentPart s));
                       DoAssembleSourceSinkParam]
           else Fail))
    /\ (identifier key = true ->
        startsWith (fun x => isIdentPart x || (rune_of "=" =? x)%N) s = false ->
        SourceSinkParam (mkCur p (key ++ s)) = Fail).
Proof.
  intros p key s. split; [apply SourceSinkParamVal_run|]. split.
  - intros Hkey. unfold SourceSinkParam, action, SourceSinkParamKey.
    rewrite (seq_Match _ _ _ _ _
               (capture_ident_app _ p key (rune_of "=" :: s) Hkey eq_refl)).
    unfold ch at 1. rewrite (seq_step _ _ _ _ (matchChar_hit _ _ _)).
    rewrite SourceSinkParamVal_run.
    destruct (startsWith isIdentPart s); reflexivity.
  - intros Hkey Hs. unfold SourceSinkParam, SourceSinkParamKey.
    apply action_Fail.
    assert (Hs1 : startsWith isIdentPart s = false).
    { destruct s as [|y s]; [reflexivity|]. cbn [startsWith] in *.
      now apply orb_false_elim in Hs as [-> _]. }
    rewrite (seq_Match _ _ _ _ _ (capture_ident_app _ p key s Hkey Hs1)).
    rewrite seq_fail_first; [reflexivity|].
    unfold ch, matchChar, matchClass. cbn [remaining].
    destruct s as [|y s]; [reflexivity|]. cbn [startsWith] in Hs.
    apply orb_false_elim in Hs as [_ Hy]. now rewrite Hy.
Qed.

Lemma SourceSinkParam_spec_witness :
  SourceSinkParam (mkCur 20 (runes "port" ++ runes " = 80")) = Fail.
Proof.
  apply (proj2 (proj2 (SourceSinkParam_spec 20 (runes "port") (runes " = 80"))));
    reflexivity.
Defined.

(** X7.  true and false, in any mix of cases, are read as Boolean
    literals wherever a base expression is expected: the alternative
    BooleanLiteral comes before FuncApp and ColumnName, so a column or a
    function whose name starts with the letters of true or false is never
    read there (after the four or five letters the literal ends, whatever
    follows). *)
Theorem boolean_literal_before_names :
  forall (E : parser) (p : nat) (w rest : text),
    (spells (runes "true") w = true ->
     baseExpr E (mkCur p (w ++ rest))
     = Match (mkCur (p + 4) rest)
             [DoPushComponent p (p + 4) (BoolLiteral true)])
    /\ (spells (runes "false") w = true ->
        baseExpr E (mkCur p (w ++ rest))
        = Match (mkCur (p + 5) rest)
                [DoPushComponent p (p + 5) (BoolLiteral false)]).
Proof.
  intros E p w rest. split; intros H.
  - pose proof (spells_length _ _ H) as Hlen.
    pose proof (matchStringCI_spells _ _ p rest H) as Hkw.
    rewrite Hlen in Hkw. change (length (runes "true")) with 4 in Hkw.
    destruct w as [|y w]; [discriminate|].
    assert (Hy : (rune_of "(" =? y)%N = false).
    { cbn [spells runes list_ascii_of_string map] in H.
      apply andb_prop in H as [H _].
      apply orb_prop in H as [H | H]; apply N.eqb_eq in H; now subst y. }
    unfold baseExpr.
    rewrite alt_fail by now apply seq_fail_first, matchChar_miss.
    apply alt_Match. unfold BooleanLiteral. apply alt_Match.
    unfold TRUE, kw. now rewrite (capture_Match _ _ _ _ _ Hkw).
  - pose proof (spells_length _ _ H) as Hlen.
    pose proof (matchStringCI_spells _ _ p rest H) as Hkw.
    rewrite Hlen in Hkw. change (length (runes "false")) with 5 in Hkw.
    destruct w as [|y w]; [discriminate|].
    assert (Hy : (rune_of "(" =? y)%N = false
                 /\ (toLower (rune_of "t") =? y)%N = false
                 /\ (toUpper (rune_of "t") =? y)%N = false).
    { cbn [spells runes list_ascii_of_string map] in H.
      apply andb_prop in H as [H _].
      apply orb_prop in H as [H | H]; apply N.eqb_eq in H; now subst y. }
    destruct Hy as (Hy & Hl & Hu).
    unfold baseExpr.
    rewrite alt_fail by now apply seq_fail_first, matchChar_miss.
    apply alt_Match. unfold BooleanLiteral.
    rewrite alt_fail
      by (unfold TRUE, kw; apply capture_Fail;
          change (runes "true") with (rune_of "t" :: runes "rue");
          now apply kw_first_miss).
    unfold FALSE, kw. now rewrite (capture_Match _ _ _ _ _ Hkw).
Qed.

Lemma boolean_literal_before_names_witness :
  baseExpr (ExpressionN 0) (mkCur 7 (runes "True" ++ runes "_value FROM s"))
  = Match (mkCur (7 + 4) (runes "_value FROM s"))
          [DoPushComponent 7 (7 + 4) (BoolLiteral true)].
Proof.
  apply (proj1 (boolean_literal_before_names
                  (ExpressionN 0) 7 (runes "True") (runes "_value FROM s"))).
  reflexivity.
Defined.

(** ** The first character of a statement *)

(** X8.  Every statement starts with its keyword, at the first character
    of the text: a text that is empty, or whose first character is not
    the first letter of SELECT, CREATE or INSERT (in either case), is a
    syntax error, whatever follows.  In particular white space in front
    of a statement is not skipped. *)
Theorem statement_first_character :
  forall (E : parser) (p : nat),
    Statement E (mkCur p []) = Fail
    /\ forall (x : rune) (rest : text),
         statementStart x = false ->
         Statement E (mkCur p (x :: rest)) = Fail.
Proof.
  intros E p. split; [reflexivity|].
  intros x rest H. unfold statementStart in H.
  cbn [existsb runes list_ascii_of_string map] in H.
  repeat (apply orb_false_elim in H as [?H H]).
  repeat match goal with
         | Hx : (x =? _)%N = false |- _ => rewrite N.eqb_sym in Hx
         end.
  assert (HS : forall ks r, matchStringCI (rune_of "S" :: ks) (mkCur p (x :: r))
                            = Fail)
    by (intros; now apply kw_first_miss).
  assert (HC : forall ks r, matchStringCI (rune_of "C" :: ks) (mkCur p (x :: r))
                            = Fail)
    by (intros; now apply kw_first_miss).
  assert (HI : forall ks r, matchStringCI (rune_of "I" :: ks) (mkCur p (x :: r))
                            = Fail)
    by (intros; now apply kw_first_miss).
  unfold Statement. apply seq_fail_first. unfold anyStmt.
  rewrite alt_fail
    by (unfold SelectStmt; apply action_Fail, seq_fail_first, HS).
  rewrite alt_fail
    by (unfold CreateStreamAsSelectStmt; apply action_Fail, seq_fail_first, HC).
  rewrite alt_fail
    by (unfold CreateSourceStmt; apply action_Fail, seq_fail_first, HC).
  rewrite alt_fail
    by (unfold CreateStreamFromSourceStmt;
        apply action_Fail, seq_fail_first, HC).
  rewrite alt_fail
    by (unfold CreateStreamFromSourceExtStmt;
        apply action_Fail, seq_fail_first, HC).
  rewrite alt_fail
    by (unfold CreateSinkStmt; apply action_Fail, seq_fail_first, HC).
  unfold InsertIntoSelectStmt. apply action_Fail, seq_fail_first, HI.
Qed.

Lemma statement_first_character_witness :
  Statement Expression (mkCur 0 (runes " SELECT a FROM s")) = Fail.
Proof.
  apply (proj2 (statement_first_character Expression 0)).
  reflexivity.
Defined.

(** ** The minus sign *)

(** X9.  There is no unary minus: where a base expression is expected, a
    minus sign is only read as the sign of a numeric literal, directly in
    front of its first digit.  A minus sign followed by anything else (a
    blank, a column name, a parenthesis, another minus sign) is not a base
    expression. *)
Theorem minus_sign_needs_digit :
  forall (E : parser) (p : nat) (rest : text),
    startsWith isDigit rest = false ->
    baseExpr E (mkCur p (rune_of "-" :: rest)) = Fail.
Proof.
  intros E p rest H.
  rewrite baseExpr_Literal by reflexivity.
  assert (Hsign : opt (ch "-") (mkCur p (rune_of "-" :: rest))
                  = Match (mkCur (S p) rest) []) by reflexivity.
  unfold Literal.
  rewrite alt_fail.
  2:{ unfold FloatLiteral. apply capture_Fail.
      rewrite (seq_step _ _ _ _ Hsign).
      now apply seq_fail_first, plus_digit_fail. }
  rewrite alt_fail.
  2:{ unfold NumericLiteral. apply capture_Fail.
      rewrite (seq_step _ _ _ _ Hsign).
      now apply plus_digit_fail. }
  reflexivity.
Qed.

Lemma minus_sign_needs_digit_witness :
  baseExpr Expression (mkCur 7 (rune_of "-" :: runes "a FROM s")) = Fail.
Proof.
  apply (minus_sign_needs_digit Expression 7 (runes "a FROM s")).
  reflexivity.
Defined.

(** ** Unterminated string literals *)

Lemma string_body_end (v : text) :
  forall n p,
    length (escape v) <= n ->
    starLoop stringChar n (mkCur p (escape v))
    = Match (mkCur (p + length (escape v)) []) [].
Proof.
  induction v as [|x v IH]; intros n p Hn.
  - simpl. rewrite starLoop_stop by apply stringChar_end.
    now rewrite Nat.add_0_r.
  - simpl in *. destruct (x =? quote)%N eqn:Hx.
    + simpl in *. destruct n as [|n]; [lia|].
      rewrite (starLoop_step _ _ _ _ (stringChar_escaped _ _)).
      rewrite IH by lia. do 2 f_equal. lia.
    + simpl in *. destruct n as [|n]; [lia|].
      rewrite N.eqb_sym in Hx.
      rewrite (starLoop_step _ _ _ _ (stringChar_plain _ _ _ Hx)).
      rewrite IH by lia. do 2 f_equal. lia.
Qed.

(** X10.  A string literal that is not closed is not matched: after the
    opening quote, a text in which every quote is doubled runs to the end
    of the input and the rule fails, for every such text. *)
Theorem unterminated_string_fails :
  forall (p : nat) (v : text),
    StringLiteral (mkCur p (quote :: escape v)) = Fail.
Proof.
  intros p v. unfold StringLiteral. fold stringChar. apply capture_Fail.
  rewrite (seq_step _ _ _ _ (matchChar_hit _ _ _)).
  rewrite (seq_step _ _ _ _ (string_body_end v _ _ (le_n _)
                              : star stringChar _ = _)).
  reflexivity.
Qed.

(** ** Lists of relations *)

Section RelationLists.

Lemma item_step (p : nat) (ws r more : text) :
  forallb isBlank ws = true -> identifier r = true ->
  startsWith isIdentPart more = false ->
  (ch "," ;; sp ;; Relation) (mkCur p (rune_of "," :: ws ++ r ++ more))
  = Match (mkCur (S p + length ws + length r) more)
          [DoPushComponent (S p + length ws) (S p + length ws + length r)
                           (Ast.Relation r)].
Proof.
  intros Hws Hr Hmore.
  unfold ch at 1. rewrite (seq_step _ _ _ _ (matchChar_hit _ _ _)).
  rewrite (seq_step _ _ _ _
             (sp_app (S p) ws (r ++ more) Hws (identifier_not_blank r more Hr))).
  unfold Relation. now rewrite capture_ident_app.
Qed.

Lemma moreItems_start (items : list (text * text)) (rest : text) :
  startsWith (fun x => isIdentPart x || (rune_of "," =? x)%N) rest = false ->
  startsWith isIdentPart (moreItems items ++ rest) = false
  /\ (ch "," ;; sp ;; Relation) (mkCur 0 rest) = Fail.
Proof.
  intros Hrest. split.
  - destruct items as [|[ws r] items]; [|reflexivity].
    cbn [moreItems app]. destruct rest as [|y rest]; [reflexivity|].
    cbn [startsWith] in *. now apply orb_false_elim in Hrest as [-> _].
  - apply seq_fail_first. unfold ch, matchChar, matchClass. cbn [remaining].
    destruct rest as [|y rest]; [reflexivity|].
    cbn [startsWith] in Hrest. apply orb_false_elim in Hrest as [_ Hy].
    now rewrite Hy.
Qed.

Lemma items_loop (rest : text) :
  startsWith (fun x => isIdentPart x || (rune_of "," =? x)%N) rest = false ->
  forall (items : list (text * text)) (p n : nat),
    forallb isItem items = true ->
    length (moreItems items ++ rest) <= n ->
    starLoop (ch "," ;; sp ;; Relation) n (mkCur p (moreItems items ++ rest))
    = Match (mkCur (p + length (moreItems items)) rest) (morePushes p items).
Proof.
  intros Hrest items.
  induction items as [|[ws r] items IH]; intros p n Hitems Hn.
  - cbn [moreItems app length morePushes]. rewrite Nat.add_0_r.
    apply starLoop_stop. apply seq_fail_first.
    unfold ch, matchChar, matchClass. cbn [remaining].
    destruct rest as [|y rest]; [reflexivity|].
    cbn [startsWith] in Hrest. apply orb_false_elim in Hrest as [_ Hy].
    now rewrite Hy.
  - cbn [forallb] in Hitems. apply andb_prop in Hitems as [Hit Hitems].
    unfold isItem in Hit. cbn [fst snd] in Hit.
    apply andb_prop in Hit as [Hws Hr].
    cbn [moreItems morePushes]. cbn [moreItems] in Hn.
    rewrite <- !app_comm_cons, <- !app_assoc in *.
    destruct n as [|n]; [cbn [length] in Hn; lia|].
    rewrite (starLoop_step_acts _ _ _ _ _
               (item_step p ws r (moreItems items ++ rest) Hws Hr
                  (proj1 (moreItems_start items rest Hrest)))).
    rewrite IH.
    + cbn [app length]. rewrite !length_app. do 2 f_equal. lia.
    + exact Hitems.
    + cbn [length] in Hn. rewrite !length_app in *. lia.
Qed.

End RelationLists.

(** X11.  Relations reads a comma-separated list of names and pushes the
    names in the order of the text, each with its own span.  Blanks are
    skipped after the first name and after every comma; after a later
    name the list goes on only if the comma follows at once, so the list
    ends in front of a blank that follows a later name (a comma after
    that blank is not read as part of the list). *)
Theorem Relations_in_order :
  forall (p : nat) (r ws : text) (items : list (text * text)) (rest : text),
    identifier r = true ->
    forallb isBlank ws = true ->
    forallb isItem items = true ->
    startsWith (fun x => isIdentPart x || (rune_of "," =? x)%N) rest = false ->
    (items = [] -> startsWith isBlank rest = false) ->
    Relations (mkCur p (r ++ ws ++ moreItems items ++ rest))
    = Match (mkCur (p + length (r ++ ws ++ moreItems items)) rest)
            (DoPushComponent p (p + length r) (Ast.Relation r)
             :: morePushes (p + length r + length ws) items).
Proof.
  intros p r ws items rest Hr Hws Hitems Hrest Hblank.
  assert (Hnext : startsWith isBlank (moreItems items ++ rest) = false).
  { destruct items as [|[ws1 r1] items]; [now apply Hblank|reflexivity]. }
  assert (Hafter : startsWith isIdentPart (ws ++ moreItems items ++ rest)
                   = false).
  { destruct ws as [|x ws].
    - apply (proj1 (moreItems_start items rest Hrest)).
    - cbn [app startsWith]. cbn [forallb] in Hws.
      apply andb_prop in Hws as [Hx _].
      unfold isIdentPart, isLower, isUpper, isDigit.
      unfold isBlank in Hx.
      change (rune_of " ") with 32%N in Hx.
      change (rune_of "009") with 9%N in Hx.
      change (rune_of "010") with 10%N in Hx.
      change (rune_of "_") with 95%N.
      repeat (apply orb_prop in Hx as [Hx | Hx]);
        apply N.eqb_eq in Hx; subst x; reflexivity. }
  unfold Relations, Relation.
  rewrite (seq_Match _ _ _ _ _ (capture_ident_app _ p r _ Hr Hafter)).
  rewrite (seq_step _ _ _ _
             (sp_app (p + length r) ws (moreItems items ++ rest) Hws Hnext)).
  unfold star. cbn [remaining].
  rewrite (items_loop rest Hrest items _ _ Hitems (le_n _)).
  cbn [app]. rewrite !length_app. do 2 f_equal. lia.
Qed.

Lemma Relations_in_order_witness :
  Relations (mkCur 14 (runes "a" ++ runes " "
                       ++ moreItems [([], runes "b"); (runes " ", runes "c")]
                       ++ runes " , d"))
  = Match (mkCur 21 (runes " , d"))
          [DoPushComponent 14 15 (Ast.Relation (runes "a"));
           DoPushComponent 17 18 (Ast.Relation (runes "b"));
           DoPushComponent 20 21 (Ast.Relation (runes "c"))].
Proof.
  apply (Relations_in_order 14 (runes "a") (runes " ")
           [([], runes "b"); (runes " ", runes "c")] (runes " , d"));
    try reflexivity.
  discriminate.
Defined.

(** ** CREATE STREAM ... FROM SOURCE *)

Section CreateStream.

Lemma SOURCE_on_STREAM (k2 rest : text) (p : nat) :
  spells (runes "STREAM") k2 = true ->
  matchStringCI (runes "SOURCE") (mkCur p (k2 ++ rest)) = Fail.
Proof.
  change (runes "STREAM") with (83 :: 84 :: runes "REAM")%N.
  change (runes "SOURCE") with (83 :: 79 :: runes "URCE")%N.
  destruct k2 as [|c1 [|c2 k2]]; cbn [spells app]; intros H;
    try discriminate H;
    apply andb_prop in H as [H1 H]; try discriminate H.
  apply andb_prop in H as [H2 _].
  cbn [matchStringCI].
  rewrite (seq_step _ _ _ _ (matchCharCI_spelled _ _ _ _ H1)).
  apply seq_fail_first.
  apply matchCharCI_miss;
    apply orb_prop in H2 as [H2 | H2]; apply N.eqb_eq in H2; now subst c2.
Qed.

Variable E : parser.
Variables k1 k2 k3 k4 ws1 ws2 ws3 ws4 ws5 x y rest : text.

Hypothesis H1 : spells (runes "CREATE") k1 = true.
Hypothesis H2 : spells (runes "STREAM") k2 = true.
Hypothesis H3 : spells (runes "FROM") k3 = true.
Hypothesis H4 : spells (runes "SOURCE") k4 = true.
Hypothesis B1 : forallb isBlank ws1 = true.
Hypothesis B2 : forallb isBlank ws2 = true.
Hypothesis B3 : forallb isBlank ws3 = true.
Hypothesis B4 : forallb isBlank ws4 = true.
Hypothesis B5 : forallb isBlank ws5 = true.
Hypothesis Hws3 : ws3 <> [].
Hypothesis Hx : identifier x = true.
Hypothesis Hy : identifier y = true.
Hypothesis Hrest : startsWith isIdentPart rest = false.

Let tail : text := ws4 ++ k4 ++ ws5 ++ y ++ rest.
Let bx : nat := length k1 + length ws1 + length k2 + length ws2.
Let pushX : Action := DoPushComponent bx (bx + length x) (Ast.Relation x).

Lemma create_stream_prefix (q : parser) :
  (matchStringCI (runes "CREATE") ;; sp ;; matchStringCI (runes "STREAM") ;; sp
   ;; Relation ;; sp ;; q)
    (start (k1 ++ ws1 ++ k2 ++ ws2 ++ x ++ ws3 ++ k3 ++ tail))
  = match q (mkCur (bx + length x + length ws3) (k3 ++ tail)) with
    | Match c a => Match c (pushX :: a)
    | r => r
    end.
Proof.
  unfold start.
  rewrite (kw_step _ _ _ _ _ H1).
  rewrite (sp_step _ _ _ _ B1
             (spells_first 83%N (runes "TREAM") k2 _ isBlank H2
                           eq_refl eq_refl)).
  rewrite (kw_step _ _ _ _ _ H2).
  rewrite (sp_step _ _ _ _ B2 (identifier_not_blank x _ Hx)).
  unfold Relation.
  rewrite (seq_Match _ _ _ _ _
             (capture_ident_app _ _ x _ Hx
                                (blank_not_identPart ws3 _ B3 Hws3))).
  rewrite (sp_step _ _ _ _ B3
             (spells_first 70%N (runes "ROM") k3 _ isBlank H3
                           eq_refl eq_refl)).
  reflexivity.
Qed.

Lemma create_stream_from_source_anyStmt :
  anyStmt E (start (k1 ++ ws1 ++ k2 ++ ws2 ++ x ++ ws3 ++ k3 ++ tail))
  = Match (mkCur (bx + length x + length ws3 + length k3 + length ws4
                  + length k4 + length ws5 + length y) rest)
          [pushX;
           DoPushComponent
             (bx + length x + length ws3 + length k3 + length ws4
              + length k4 + length ws5)
             (bx + length x + length ws3 + length k3 + length ws4
              + length k4 + length ws5 + length y)
             (Ast.SourceSinkName y);
           DoAssembleCreateStreamFromSource].
Proof.
  unfold anyStmt.
  rewrite alt_fail.
  2:{ unfold SelectStmt, kw, start. apply action_Fail, seq_fail_first.
      apply (kw_other_first 83%N (runes "ELECT") 67%N (runes "REATE")
                            k1 _ 0 H1 eq_refl). }
  rewrite alt_fail.
  2:{ unfold CreateStreamAsSelectStmt, kw. apply action_Fail.
      rewrite create_stream_prefix.
      rewrite seq_fail_first; [reflexivity|].
      apply (kw_other_first 65%N (runes "S") 70%N (runes "ROM")
                            k3 _ _ H3 eq_refl). }
  rewrite alt_fail.
  2:{ unfold CreateSourceStmt, kw, start. apply action_Fail.
      rewrite (kw_step _ _ _ _ _ H1).
      rewrite (sp_step _ _ _ _ B1
                 (spells_first 83%N (runes "TREAM") k2 _ isBlank H2
                               eq_refl eq_refl)).
      apply seq_fail_first, SOURCE_on_STREAM, H2. }
  apply alt_Match.
  unfold CreateStreamFromSourceStmt, kw, action.
  rewrite create_stream_prefix.
  rewrite (kw_step _ _ _ _ _ H3).
  unfold tail.
  rewrite (sp_step _ _ _ _ B4
             (spells_first 83%N (runes "OURCE") k4 _ isBlank H4
                           eq_refl eq_refl)).
  rewrite (kw_step _ _ _ _ _ H4).
  rewrite (sp_step _ _ _ _ B5 (identifier_not_blank y _ Hy)).
  unfold SourceSinkName.
  rewrite (capture_ident_app _ _ y _ Hy Hrest).
  reflexivity.
Qed.

End CreateStream.

(** Where no name follows SOURCE, the alternative fails. *)
Lemma create_stream_no_source_name
      (k1 k2 k3 k4 ws1 ws2 ws3 ws4 ws5 x z : text) :
  spells (runes "CREATE") k1 = true ->
  spells (runes "STREAM") k2 = true ->
  spells (runes "FROM") k3 = true ->
  spells (runes "SOURCE") k4 = true ->
  forallb isBlank ws1 = true -> forallb isBlank ws2 = true ->
  forallb isBlank ws3 = true -> forallb isBlank ws4 = true ->
  forallb isBlank ws5 = true ->
  ws3 <> [] ->
  identifier x = true ->
  startsWith (fun c => isIdentStart c || isBlank c) z = false ->
  CreateStreamFromSourceStmt
    (start (k1 ++ ws1 ++ k2 ++ ws2 ++ x ++ ws3 ++ k3 ++ ws4 ++ k4 ++ ws5
               ++ z))
  = Fail.
Proof.
  intros H1 H2 H3 H4 B1 B2 B3 B4 B5 Hws3 Hx Hz.
  assert (Hz' : startsWith isIdentStart z = false
                /\ startsWith isBlank z = false).
  { destruct z as [|c z]; [now split|]. cbn [startsWith] in *.
    now apply orb_false_elim in Hz. }
  destruct Hz' as [Hstart Hblank].
  unfold CreateStreamFromSourceStmt, kw. apply action_Fail.
  pose proof (create_stream_prefix k1 k2 k3 k4 ws1 ws2 ws3 ws4 ws5 x [] z
                H1 H2 H3 B1 B2 B3 Hws3 Hx) as Hp.
  cbn [app] in Hp. rewrite Hp. clear Hp.
  rewrite (kw_step _ _ _ _ _ H3).
  rewrite (sp_step _ _ _ _ B4
             (spells_first 83%N (runes "OURCE") k4 _ isBlank H4
                           eq_refl eq_refl)).
  rewrite (kw_step _ _ _ _ _ H4).
  rewrite (sp_step _ _ _ _ B5 Hblank).
  unfold SourceSinkName. rewrite capture_Fail; [reflexivity|].
  rewrite ident_spec. destruct z as [|c z]; [reflexivity|].
  cbn [startsWith] in Hstart. now rewrite Hstart.
Qed.

(** X12.  CREATE STREAM x FROM SOURCE y is read by the alternative
    CreateStreamFromSourceStmt whenever the text starts with it: keywords
    in any mix of cases, blanks between the tokens (needed only between
    the stream name and FROM; "SOURCEy" is read as SOURCE y).  The
    choice is then final.  If anything is left after the source name the
    statement is a syntax error: trailing blanks are not skipped after
    this statement, and the alternative with a source type is not tried
    any more.  So a source type whose name is the letters of "source"
    followed by a letter (sourcefile) cannot be used in
    CREATE STREAM x FROM type SOURCE, although the alternative with a
    source type, tried alone, reads that text.  Where something other than
    a letter follows those letters and the blanks after them, the
    alternative fails and the next ones are tried: the source types
    source_1 and source9 are read by the alternative with a source
    type. *)
Theorem create_stream_from_source_is_final :
  (forall (E : parser) (k1 k2 k3 k4 ws1 ws2 ws3 ws4 ws5 x y rest : text),
      spells (runes "CREATE") k1 = true ->
      spells (runes "STREAM") k2 = true ->
      spells (runes "FROM") k3 = true ->
      spells (runes "SOURCE") k4 = true ->
      forallb isBlank ws1 = true -> forallb isBlank ws2 = true ->
      forallb isBlank ws3 = true -> forallb isBlank ws4 = true ->
      forallb isBlank ws5 = true ->
      ws3 <> [] ->
      identifier x = true -> identifier y = true ->
      startsWith isIdentPart rest = false ->
      let bx := length k1 + length ws1 + length k2 + length ws2 in
      let by_ := bx + length x + length ws3 + length k3 + length ws4
                 + length k4 + length ws5 in
      let text :=
        k1 ++ ws1 ++ k2 ++ ws2 ++ x ++ ws3 ++ k3 ++ ws4 ++ k4 ++ ws5 ++ y
           ++ rest in
      anyStmt E (start text)
      = Match (mkCur (by_ + length y) rest)
              [DoPushComponent bx (bx + length x) (Ast.Relation x);
               DoPushComponent by_ (by_ + length y) (Ast.SourceSinkName y);
               DoAssembleCreateStreamFromSource]
      /\ (rest = [] ->
          Statement E (start text)
          = Match (mkCur (by_ + length y) [])
                  [DoPushComponent bx (bx + length x) (Ast.Relation x);
                   DoPushComponent by_ (by_ + length y)
                                   (Ast.SourceSinkName y);
                   DoAssembleCreateStreamFromSource])
      /\ (rest <> [] -> Statement E (start text) = Fail))
  /\ (forall k1 k2 k3 k4 ws1 ws2 ws3 ws4 ws5 x z : text,
        spells (runes "CREATE") k1 = true ->
        spells (runes "STREAM") k2 = true ->
        spells (runes "FROM") k3 = true ->
        spells (runes "SOURCE") k4 = true ->
        forallb isBlank ws1 = true -> forallb isBlank ws2 = true ->
        forallb isBlank ws3 = true -> forallb isBlank ws4 = true ->
        forallb isBlank ws5 = true ->
        ws3 <> [] ->
        identifier x = true ->
        startsWith (fun c => isIdentStart c || isBlank c) z = false ->
        CreateStreamFromSourceStmt
          (start (k1 ++ ws1 ++ k2 ++ ws2 ++ x ++ ws3 ++ k3 ++ ws4 ++ k4
                     ++ ws5 ++ z))
        = Fail)
  /\ Statement Expression
       (start (runes "CREATE STREAM x FROM sourcefile SOURCE WITH a=b"))
     = Fail
  /\ CreateStreamFromSourceExtStmt
       (start (runes "CREATE STREAM x FROM sourcefile SOURCE WITH a=b"))
     = Match (mkCur 47 [])
             [DoPushComponent 14 15 (Ast.Relation (runes "x"));
              DoPushComponent 21 31 (Ast.SourceSinkType (runes "sourcefile"));
              DoPushComponent 44 45 (Ast.SourceSinkParamKey (runes "a"));
              DoPushComponent 46 47 (Ast.SourceSinkParamVal (runes "b"));
              DoAssembleSourceSinkParam;
              DoAssembleSourceSinkSpecs 39 47;
              DoAssembleCreateStreamFromSourceExt]
  /\ Statement Expression
       (start (runes "CREATE STREAM x FROM source_1 SOURCE WITH a=b"))
     = Match (mkCur 45 [])
             [DoPushComponent 14 15 (Ast.Relation (runes "x"));
              DoPushComponent 21 29 (Ast.SourceSinkType (runes "source_1"));
              DoPushComponent 42 43 (Ast.SourceSinkParamKey (runes "a"));
              DoPushComponent 44 45 (Ast.SourceSinkParamVal (runes "b"));
              DoAssembleSourceSinkParam;
              DoAssembleSourceSinkSpecs 37 45;
              DoAssembleCreateStreamFromSourceExt]
  /\ Statement Expression
       (start (runes "CREATE STREAM x FROM source9 SOURCE WITH a=b"))
     = Match (mkCur 44 [])
             [DoPushComponent 14 15 (Ast.Relation (runes "x"));
              DoPushComponent 21 28 (Ast.SourceSinkType (runes "source9"));
              DoPushComponent 41 42 (Ast.SourceSinkParamKey (runes "a"));
              DoPushComponent 43 44 (Ast.SourceSinkParamVal (runes "b"));
              DoAssembleSourceSinkParam;
              DoAssembleSourceSinkSpecs 36 44;
              DoAssembleCreateStreamFromSourceExt].
Proof.
  split; [|split; [|split; [|split; [|split]]]].
  - intros E k1 k2 k3 k4 ws1 ws2 ws3 ws4 ws5 x y rest
           H1 H2 H3 H4 B1 B2 B3 B4 B5 Hws3 Hx Hy Hrest bx by_ text.
    pose proof (create_stream_from_source_anyStmt E k1 k2 k3 k4
                  ws1 ws2 ws3 ws4 ws5 x y rest
                  H1 H2 H3 H4 B1 B2 B3 B4 B5 Hws3 Hx Hy Hrest) as Hany.
    cbv zeta in Hany. fold bx in Hany. fold by_ in Hany. fold text in Hany.
    split; [exact Hany|]. split.
    + intros ->. unfold Statement, seq. rewrite Hany. reflexivity.
    + intros Hne. unfold Statement, seq. rewrite Hany.
      unfold notp, matchDot. cbn [remaining].
      destruct rest; [contradiction|reflexivity].
  - exact create_stream_no_source_name.
  - vm_compute. reflexivity.
  - vm_compute. reflexivity.
  - vm_compute. reflexivity.
  - vm_compute. reflexivity.
Qed.

Lemma create_stream_from_source_is_final_witness :
  Statement Expression
    (start (runes "CREATE" ++ runes " " ++ runes "STREAM" ++ runes " "
            ++ runes "x" ++ runes " " ++ runes "FROM" ++ runes " "
            ++ runes "source" ++ [] ++ runes "file"
            ++ runes " SOURCE WITH path=data"))
  = Fail
  /\ CreateStreamFromSourceStmt
       (start (runes "CREATE" ++ runes " " ++ runes "STREAM" ++ runes " "
               ++ runes "x" ++ runes " " ++ runes "FROM" ++ runes " "
               ++ runes "source" ++ [] ++ runes "_1 SOURCE WITH path=data"))
     = Fail.
Proof.
  split.
  - apply (proj2 (proj2
      (proj1 create_stream_from_source_is_final Expression
         (runes "CREATE") (runes "STREAM") (runes "FROM") (runes "source")
         (runes " ") (runes " ") (runes " ") (runes " ") []
         (runes "x") (runes "file") (runes " SOURCE WITH path=data")
         eq_refl eq_refl eq_refl eq_refl eq_refl eq_refl eq_refl eq_refl
         eq_refl ltac:(discriminate) eq_refl eq_refl eq_refl)));
      discriminate.
  - apply (proj1 (proj2 create_stream_from_source_is_final)
             (runes "CREATE") (runes "STREAM") (runes "FROM") (runes "source")
             (runes " ") (runes " ") (runes " ") (runes " ") []
             (runes "x") (runes "_1 SOURCE WITH path=data"));
      try reflexivity.
    discriminate.
Defined.

(** ** Ranges *)

(** X13.  Range reads any integer literal, with or without a minus sign,
    then blanks, then TUPLES or SECONDS in any mix of cases: a negative
    number and zero are read as a range like any other number, and the
    unit may follow the number directly. *)
Theorem Range_takes_any_integer :
  forall (neg : bool) (p : nat) (d : rune) (ds ws u rest : text)
         (ru : Ast.RangeUnit),
    isDigit d = true -> forallb isDigit ds = true ->
    forallb isBlank ws = true ->
    spells (match ru with
            | Tuples => runes "TUPLES"
            | Seconds => runes "SECONDS"
            end) u = true ->
    let lit := (if neg then [rune_of "-"] else []) ++ d :: ds in
    Range (mkCur p (lit ++ ws ++ u ++ rest))
    = Match (mkCur (p + length lit + length ws + length u) rest)
            [DoPushComponent p (p + length lit) (Ast.NumericLiteral lit);
             DoPushComponent (p + length lit + length ws)
                             (p + length lit + length ws + length u)
                             (Unit_ ru);
             DoAssembleRange].
Proof.
  intros neg p d ds ws u rest ru Hd Hds Hws Hu lit.
  assert (Hletter : forall f : rune -> bool,
             f 116%N = false -> f 84%N = false ->
             f 115%N = false -> f 83%N = false ->
             startsWith f (u ++ rest) = false).
  { intros f Ht HT Hs HS. destruct ru.
    - apply (spells_first 84%N (runes "UPLES") u rest f Hu); assumption.
    - apply (spells_first 83%N (runes "ECONDS") u rest f Hu); assumption. }
  assert (Hnum : startsWith isDigit (ws ++ u ++ rest) = false).
  { apply after_blanks; try reflexivity; [exact Hws|].
    apply Hletter; reflexivity. }
  pose proof (NumericLiteral_spec neg p d ds (ws ++ u ++ rest) Hd Hds Hnum)
    as Hlit.
  cbv zeta in Hlit. fold lit in Hlit.
  assert (Hunit : forall q,
             RangeUnit (mkCur q (u ++ rest))
             = Match (mkCur (q + length u) rest)
                     [DoPushComponent q (q + length u) (Unit_ ru)]).
  { intros q. unfold RangeUnit. destruct ru.
    - apply alt_Match. unfold TUPLES, kw.
      now rewrite (capture_Match _ _ _ _ _ (matchStringCI_spells _ _ q rest Hu)).
    - rewrite alt_fail.
      + unfold SECONDS, kw.
        now rewrite (capture_Match _ _ _ _ _
                       (matchStringCI_spells _ _ q rest Hu)).
      + unfold TUPLES, kw. apply capture_Fail.
        apply (kw_other_first 84%N (runes "UPLES") 83%N (runes "ECONDS")
                              u rest q Hu eq_refl). }
  unfold Range, action.
  rewrite (seq_Match _ _ _ _ _ Hlit).
  rewrite (sp_step _ _ _ _ Hws (Hletter isBlank eq_refl eq_refl eq_refl eq_refl)).
  rewrite Hunit. reflexivity.
Qed.

Lemma Range_takes_any_integer_witness :
  Range (mkCur 30 (([rune_of "-"] ++ runes "5") ++ runes " " ++ runes "Seconds"
                   ++ runes "]"))
  = Match (mkCur 40 (runes "]"))
          [DoPushComponent 30 32 (Ast.NumericLiteral (runes "-5"));
           DoPushComponent 33 40 (Unit_ Seconds);
           DoAssembleRange].
Proof.
  apply (Range_takes_any_integer true 30 53%N [] (runes " ") (runes "Seconds")
           (runes "]") Seconds eq_refl eq_refl eq_refl eq_refl).
Defined.

(** ** Function applications *)

(** X14.  A function application needs at least one argument.  No
    expression starts with a closing parenthesis, so a function name
    followed by an empty pair of parentheses, with or without blanks, is
    not a function application. *)
Theorem FuncApp_needs_an_argument :
  forall (E' : parser) (p : nat) (f ws1 ws2 rest : text),
    (forall E q r, orExpr E (mkCur q (rune_of ")" :: r)) = Fail)
    /\ (forall q r, Expression (mkCur q (rune_of ")" :: r)) = Fail)
    /\ ((forall q r, E' (mkCur q (rune_of ")" :: r)) = Fail) ->
        identifier f = true ->
        forallb isBlank ws1 = true -> forallb isBlank ws2 = true ->
        FuncApp E' (mkCur p (f ++ ws1 ++ rune_of "(" :: ws2
                               ++ rune_of ")" :: rest))
        = Fail).
Proof.
  intros E' p f ws1 ws2 rest. split; [reflexivity|]. split; [reflexivity|].
  intros HE Hf Hws1 Hws2.
  unfold FuncApp, Function. apply action_Fail.
  rewrite (seq_Match _ _ _ _ _
             (capture_ident_app _ p f _ Hf
                (after_blanks isIdentPart ws1
                              (rune_of "(" :: ws2 ++ rune_of ")" :: rest) Hws1
                              eq_refl eq_refl eq_refl eq_refl))).
  rewrite (sp_step ws1 (rune_of "(" :: ws2 ++ rune_of ")" :: rest) _ _
                   Hws1 eq_refl).
  unfold ch at 1. rewrite (seq_step _ _ _ _ (matchChar_hit _ _ _)).
  rewrite (sp_step ws2 (rune_of ")" :: rest) _ _ Hws2 eq_refl).
  rewrite seq_fail_first; [reflexivity|].
  unfold FuncParams. apply capture_Fail, seq_fail_first, HE.
Qed.

Lemma FuncApp_needs_an_argument_witness :
  FuncApp Expression (mkCur 7 (runes "count" ++ [] ++ rune_of "(" :: runes " "
                               ++ rune_of ")" :: runes " FROM s"))
  = Fail.
Proof.
  apply (proj2 (proj2 (FuncApp_needs_an_argument Expression 7 (runes "count")
                         [] (runes " ") (runes " FROM s"))));
    reflexivity.
Defined.
(** ** decodeInt on floats *)

Import Decode.

Section Binary64.

Local Open Scope Z_scope.

Lemma fexp_value (x : Z) : fexp prec emax x = Z.max (x - 53) (-1074).
Proof. reflexivity. Qed.

Lemma bounded_spec (m : positive) (e : Z) :
  bounded prec emax m e = true <->
  Z.max (Zpos (digits2_pos m) + e - 53) (-1074) = e /\ e <= 971.
Proof.
  unfold bounded, canonical_mantissa. rewrite fexp_value.
  rewrite andb_true_iff, Z.eqb_eq, Z.leb_le. reflexivity.
Qed.

Lemma iter_xO_value (d m : positive) :
  Zpos (Pos.iter xO m d) = Zpos m * 2 ^ Zpos d.
Proof.
  induction d as [|d IH] using Pos.peano_ind.
  - change (Pos.iter xO m 1) with (m~0)%positive. change (2 ^ 1) with 2. lia.
  - rewrite Pos.iter_succ, Pos2Z.inj_xO, IH, Pos2Z.inj_succ.
    rewrite Z.pow_succ_r by apply Pos2Z.is_nonneg. ring.
Qed.

Lemma digits_iter_xO (d m : positive) :
  digits2_pos (Pos.iter xO m d) = (digits2_pos m + d)%positive.
Proof.
  induction d as [|d IH] using Pos.peano_ind.
  - simpl. now rewrite Pos.add_1_r.
  - rewrite Pos.iter_succ. simpl. rewrite IH. now rewrite Pos.add_succ_r.
Qed.

Lemma iter_pos_iter {A : Type} (f : A -> A) (n : positive) :
  forall x, iter_pos f n x = Pos.iter f x n.
Proof.
  induction n as [n IH|n IH|]; intros x; simpl.
  - now rewrite !IH, !Pos.iter_swap.
  - now rewrite !IH.
  - reflexivity.
Qed.

(** Shifting out the zero bits that a left shift brought in is exact. *)
Lemma shr_iter_xO (k m : positive) :
  iter_pos shr_1 k
    {| shr_m := Zpos (Pos.iter xO m k); shr_r := false; shr_s := false |}
  = {| shr_m := Zpos m; shr_r := false; shr_s := false |}.
Proof.
  rewrite iter_pos_iter.
  induction k as [|k IH] using Pos.peano_ind.
  - reflexivity.
  - rewrite (Pos.iter_succ k positive xO), Pos.iter_succ, <- Pos.iter_swap.
    exact IH.
Qed.

Lemma divisible_iter_xO (m d : positive) :
  Zpos m mod 2 ^ Zpos d = 0 -> exists q, m = Pos.iter xO q d.
Proof.
  intros H.
  assert (Hpow : 0 < 2 ^ Zpos d) by (apply Z.pow_pos_nonneg; lia).
  apply Z.div_exact in H; [|lia].
  destruct (Zpos m / 2 ^ Zpos d) as [|q|q] eqn:Hq; try lia.
  exists q. apply Pos2Z.inj. rewrite iter_xO_value. lia.
Qed.

Lemma shr_fexp_canonical (m : positive) (e : Z) :
  Z.max (Zpos (digits2_pos m) + e - 53) (-1074) = e ->
  shr_fexp prec emax (Zpos m) e loc_Exact
  = ({| shr_m := Zpos m; shr_r := false; shr_s := false |}, e).
Proof.
  intros H. unfold shr_fexp. rewrite fexp_value.
  change (Zdigits2 (Zpos m)) with (Zpos (digits2_pos m)).
  rewrite H, Z.sub_diag. reflexivity.
Qed.

(** A mantissa that is already in canonical form is left as it is. *)
Lemma binary_round_aux_canonical (s : bool) (m : positive) (e : Z) :
  bounded prec emax m e = true ->
  binary_round_aux prec emax s (Zpos m) e loc_Exact = S754_finite s m e.
Proof.
  intros H. apply bounded_spec in H as [Hc He].
  unfold binary_round_aux. rewrite (shr_fexp_canonical m e Hc).
  cbn [shr_m loc_of_shr_record round_nearest_even].
  rewrite (shr_fexp_canonical m e Hc). cbn [shr_m].
  change (emax - prec) with 971.
  now rewrite (proj2 (Z.leb_le e 971) He).
Qed.

Lemma shr_exponent (mrs : shr_record) (e n : Z) : e <= snd (shr mrs e n).
Proof. unfold shr. destruct n; simpl; lia. Qed.

Lemma shr_fexp_exponent (m e : Z) (l : location) :
  e <= snd (shr_fexp prec emax m e l).
Proof. unfold shr_fexp. apply shr_exponent. Qed.

(** Rounding never lowers the exponent. *)
Lemma binary_round_aux_exponent (s : bool) (mx ex : Z) (l : location)
      (s' : bool) (m : positive) (e : Z) :
  binary_round_aux prec emax s mx ex l = S754_finite s' m e -> ex <= e.
Proof.
  unfold binary_round_aux.
  pose proof (shr_fexp_exponent mx ex l) as H1.
  destruct (shr_fexp prec emax mx ex l) as [mrs1 e1]. simpl in H1.
  pose proof (shr_fexp_exponent
                (round_nearest_even (shr_m mrs1) (loc_of_shr_record mrs1))
                e1 loc_Exact) as H2.
  destruct (shr_fexp prec emax _ e1 loc_Exact) as [mrs2 e2]. simpl in H2.
  destruct (shr_m mrs2); try discriminate.
  destruct (e2 <=? emax - prec); try discriminate.
  intros H. injection H as _ _ <-. lia.
Qed.

(** A short integer is shifted left into a canonical mantissa: exact. *)
Lemma binary_round_small (s : bool) (mx d : positive) :
  Zpos (digits2_pos mx) - 53 = Zneg d ->
  binary_round prec emax s mx 0 = S754_finite s (Pos.iter xO mx d) (Zneg d).
Proof.
  intros H. unfold binary_round. rewrite fexp_value, Z.add_0_r.
  rewrite Z.max_l by lia. rewrite H. unfold shl_align.
  change (Zneg d - 0) with (Zneg d).
  apply binary_round_aux_canonical. apply bounded_spec.
  rewrite digits_iter_xO, Pos2Z.inj_add. lia.
Qed.

(** A long integer is shifted right: the exponent is not negative. *)
Lemma binary_round_large (s : bool) (mx : positive) (s' : bool) (m : positive)
      (e : Z) :
  0 <= Zpos (digits2_pos mx) - 53 ->
  binary_round prec emax s mx 0 = S754_finite s' m e -> 0 <= e.
Proof.
  intros H. unfold binary_round. rewrite fexp_value, Z.add_0_r.
  rewrite Z.max_l by lia. unfold shl_align. rewrite Z.sub_0_r.
  destruct (Zpos (digits2_pos mx) - 53) as [|n|n] eqn:Hd; try lia;
    apply binary_round_aux_exponent.
Qed.

Lemma binary_round_integer (s : bool) (mx : positive) (s' : bool)
      (m : positive) (e : Z) :
  binary_round prec emax s mx 0 = S754_finite s' m e ->
  isInteger (S754_finite s' m e) = true.
Proof.
  intros H. simpl.
  destruct (Zpos (digits2_pos mx) - 53) as [|n|d] eqn:Hd.
  - apply binary_round_large in H; [|lia].
    now rewrite (proj2 (Z.leb_le 0 e) H).
  - apply binary_round_large in H; [|lia].
    now rewrite (proj2 (Z.leb_le 0 e) H).
  - rewrite (binary_round_small s mx d Hd) in H.
    injection H as _ <- <-.
    change (- Zneg d) with (Zpos d).
    rewrite iter_xO_value, Z.mod_mul by (apply Z.pow_nonzero; lia).
    apply orb_true_r.
Qed.

(** [float64(i)] is a whole number. *)
Lemma fromInt64_integer (i : Z) (s : bool) (m : positive) (e : Z) :
  fromInt64 i = S754_finite s m e -> isInteger (S754_finite s m e) = true.
Proof.
  unfold fromInt64, binary_normalize.
  destruct i; [discriminate| |]; apply binary_round_integer.
Qed.

Lemma fromInt64_signed (s : bool) (p : positive) :
  fromInt64 (cond_Zopp s (Zpos p)) = binary_round prec emax s p 0.
Proof. now destruct s. Qed.

(** Converting a whole float to an integer and back gives the float. *)
Lemma roundtrip_exact (s : bool) (m : positive) (e : Z) :
  bounded prec emax m e = true ->
  isInteger (S754_finite s m e) = true ->
  fromInt64 (cond_Zopp s (Z.shiftl (Zpos m) e)) = S754_finite s m e.
Proof.
  intros Hb Hi. pose proof (proj1 (bounded_spec m e) Hb) as [Hc He].
  destruct e as [|k|d].
  - change (Z.shiftl (Zpos m) 0) with (Zpos m). rewrite fromInt64_signed.
    unfold binary_round. rewrite fexp_value, Z.add_0_r.
    rewrite Z.add_0_r in Hc. rewrite Hc. unfold shl_align.
    change (0 - 0) with 0.
    now apply binary_round_aux_canonical.
  - assert (Hs : Z.shiftl (Zpos m) (Zpos k) = Zpos (Pos.iter xO m k))
      by (rewrite Z.shiftl_mul_pow2, iter_xO_value by lia; reflexivity).
    rewrite Hs, fromInt64_signed.
    unfold binary_round. rewrite fexp_value, Z.add_0_r.
    rewrite digits_iter_xO, Pos2Z.inj_add, Hc. unfold shl_align.
    change (Zpos k - 0) with (Zpos k).
    unfold binary_round_aux, shr_fexp at 1. rewrite fexp_value, Z.add_0_r.
    change (Zdigits2 (Zpos (Pos.iter xO m k)))
      with (Zpos (digits2_pos (Pos.iter xO m k))).
    rewrite digits_iter_xO, Pos2Z.inj_add, Hc, Z.sub_0_r.
    cbn [shr_record_of_loc shr]. rewrite shr_iter_xO.
    cbn [shr_m loc_of_shr_record round_nearest_even].
    change (0 + Zpos k) with (Zpos k).
    rewrite (shr_fexp_canonical m (Zpos k) Hc). cbn [shr_m].
    change (emax - prec) with 971.
    now rewrite (proj2 (Z.leb_le (Zpos k) 971) He).
  - simpl in Hi. change (- Zneg d) with (Zpos d) in Hi.
    apply Z.eqb_eq in Hi. apply divisible_iter_xO in Hi as [q ->].
    assert (Hs : Z.shiftl (Zpos (Pos.iter xO q d)) (Zneg d) = Zpos q).
    { change (Z.shiftl (Zpos (Pos.iter xO q d)) (Zneg d))
        with (Z.shiftr (Zpos (Pos.iter xO q d)) (Zpos d)).
      rewrite Z.shiftr_div_pow2, iter_xO_value by lia.
      apply Z.div_mul. apply Z.pow_nonzero; lia. }
    rewrite Hs, fromInt64_signed.
    apply binary_round_small.
    rewrite digits_iter_xO, Pos2Z.inj_add in Hc. lia.
Qed.

Lemma feq_finite_refl (s : bool) (m : positive) (e : Z) :
  feq (S754_finite s m e) (S754_finite s m e) = true.
Proof.
  unfold feq, SFeqb, SFcompare. rewrite Z.compare_refl.
  change (Pos.compare_cont Eq m m) with (Pos.compare m m).
  rewrite Pos.compare_refl. now destruct s.
Qed.

Lemma feq_finite_inv (s1 s2 : bool) (m1 m2 : positive) (e1 e2 : Z) :
  feq (S754_finite s1 m1 e1) (S754_finite s2 m2 e2) = true ->
  S754_finite s1 m1 e1 = S754_finite s2 m2 e2.
Proof.
  unfold feq, SFeqb, SFcompare.
  change (Pos.compare_cont Eq m1 m2) with (Pos.compare m1 m2).
  destruct s1, s2; try discriminate;
    destruct (Z.compare e1 e2) eqn:He; try discriminate;
    destruct (Pos.compare m1 m2) eqn:Hm; try discriminate;
    intros _; apply Z.compare_eq in He; apply Pos.compare_eq in Hm;
    now subst.
Qed.

(** A float that equals the float of an integer is a whole number. *)
Lemma feq_fromInt64_integer (f : float64) (i : Z) :
  f <> S754_infinity false -> f <> S754_infinity true ->
  feq f (fromInt64 i) = true -> isInteger f = true.
Proof.
  intros Hp Hn H. destruct f as [s|s| |s m e].
  - reflexivity.
  - destruct s; contradiction.
  - discriminate.
  - destruct (fromInt64 i) as [s'|s'| |s' m' e'] eqn:Hi.
    + destruct s; discriminate.
    + destruct s, s'; discriminate.
    + discriminate.
    + apply feq_finite_inv in H. rewrite H.
      now apply (fromInt64_integer i).
Qed.

End Binary64.

Section DecodeInt.

Local Open Scope Z_scope.

Variables AsInt ToInt : Value -> Z * option error.
Variable AsFloat : Value -> float64 * option error.
Variables overflow intSize : Z.

(** What decodeInt comes to on a Float that AsInt has refused. *)
Lemma decodeInt_on_Float (f : float64) (k : Kind) (i0 : Z) (e0 : error) :
  AsInt (Float f) = (i0, Some e0) ->
  fst (AsFloat (Float f)) = f ->
  decodeInt AsInt ToInt AsFloat overflow intSize (Float f) k false
  = if feq f (fromInt64 (toInt64 overflow f))
    then SetInt intSize k (toInt64 overflow f)
    else Failed e0.
Proof.
  intros Hi Hf. unfold decodeInt. rewrite Hi. cbn [Type_ isTypeFloat].
  destruct (AsFloat (Float f)) as [f' err]. simpl in Hf. subst f'.
  now destruct (feq f (fromInt64 (toInt64 overflow f))).
Qed.

Lemma representable_accepted (f : float64) :
  valid_binary prec emax f = true ->
  representable f = true ->
  exists z,
    truncate f = Some z /\ minInt64 <= z <= maxInt64
    /\ toInt64 overflow f = z /\ feq f (fromInt64 z) = true.
Proof.
  intros Hv Hr. unfold representable in Hr.
  apply andb_prop in Hr as [Hi Hr].
  destruct (truncate f) as [z|] eqn:Ht; [|discriminate].
  exists z. unfold toInt64. rewrite Ht, Hr.
  apply andb_prop in Hr as [H1 H2].
  apply Z.leb_le in H1. apply Z.leb_le in H2.
  repeat split; try assumption.
  destruct f as [s|s| |s m e]; try discriminate.
  - injection Ht as <-. now destruct s.
  - injection Ht as <-. rewrite (roundtrip_exact s m e Hv Hi).
    apply feq_finite_refl.
Qed.

Lemma fractional_refused (f : float64) (i : Z) :
  fractional f = true -> feq f (fromInt64 i) = false.
Proof.
  intros Hf. destruct (feq f (fromInt64 i)) eqn:He; [|reflexivity].
  destruct f as [s|s| |s m e]; try discriminate.
  apply feq_fromInt64_integer in He; try discriminate.
  unfold fractional in Hf. now rewrite He in Hf.
Qed.

Lemma unrepresentable_refused (f : float64) :
  overflow = minInt64 ->
  representable f = false ->
  feq f (fromInt64 (toInt64 overflow f)) = false.
Proof.
  intros -> Hr.
  destruct (feq f (fromInt64 (toInt64 minInt64 f))) eqn:He; [|reflexivity].
  destruct f as [s|s| |s m e].
  - discriminate.
  - now destruct s.
  - discriminate.
  - assert (Hi : isInteger (S754_finite s m e) = true)
      by (eapply feq_fromInt64_integer; [discriminate|discriminate|exact He]).
    unfold representable in Hr. rewrite Hi in Hr. simpl in Hr.
    unfold toInt64 in He. simpl in He. rewrite Hr in He.
    change (fromInt64 minInt64)
      with (S754_finite true 4503599627370496 11) in He.
    apply feq_finite_inv in He. injection He as -> -> ->.
    discriminate.
Qed.

End DecodeInt.

(** C10 (as the code has it).  Decoding a Float into a signed integer
    field without weak typing, when AsInt has refused the Float: a Float
    that is exactly a 64-bit integer is accepted, converting it to int64
    and back gives the same float, and the field is set to that integer
    reduced to the width of the field, which for a 64-bit field is the
    integer itself; a Float with a fractional part is refused with AsInt's
    error; and where an out-of-range conversion yields the smallest int64
    (as on amd64), every Float that is not exactly a 64-bit integer is
    refused. *)
Theorem decodeInt_float :
  forall (AsInt ToInt : Value -> Z * option error)
         (AsFloat : Value -> float64 * option error)
         (overflow intSize : Z) (f : float64) (k : Kind) (i0 : Z) (e0 : error),
    AsInt (Float f) = (i0, Some e0) ->
    fst (AsFloat (Float f)) = f ->
    valid_binary prec emax f = true ->
    isSigned k = true ->
    let run := decodeInt AsInt ToInt AsFloat overflow intSize (Float f) k false in
    (representable f = true ->
     exists z,
       truncate f = Some z /\ (minInt64 <= z <= maxInt64)%Z
       /\ feq f (fromInt64 z) = true
       /\ run = Stored (wrap (width intSize k) z)
       /\ wrap 64 z = z)
    /\ (fractional f = true -> run = Failed e0)
    /\ (overflow = minInt64 -> representable f = false -> run = Failed e0).
Proof.
  intros AsInt ToInt AsFloat overflow intSize f k i0 e0 Hi Hf Hv Hk run.
  subst run. rewrite (decodeInt_on_Float _ _ _ _ _ _ _ _ _ Hi Hf).
  repeat split.
  - intros Hr.
    destruct (representable_accepted overflow f Hv Hr)
      as (z & Ht & Hz & Hto & He).
    exists z. rewrite Hto, He. repeat split; try assumption; try apply Hz.
    + now destruct k.
    + unfold wrap, minInt64, maxInt64 in *.
      rewrite Z.mod_small by lia. lia.
  - intros Hfr. now rewrite fractional_refused.
  - intros Ho Hr. now rewrite unrepresentable_refused.
Qed.

Lemma decodeInt_float_witness :
  decodeInt AsIntStrict AsIntStrict AsFloatStrict minInt64 64
            (Float (S754_finite false 5629499534213120 (-51))) KInt64 false
  = Failed castError.
Proof.
  apply (proj1 (proj2
    (decodeInt_float AsIntStrict AsIntStrict AsFloatStrict minInt64 64
       (S754_finite false 5629499534213120 (-51)) KInt64 0%Z castError
       eq_refl eq_refl eq_refl eq_refl))).
  reflexivity.
Defined.

(** The claim as written, "the field is set to that integer", fails on a
    field narrower than 64 bits: 300.0 is exactly the 64-bit integer 300,
    it is accepted, and an int8 field is set to 44. *)
Lemma narrow_field_not_set_to_the_integer :
  representable (fromInt64 300) = true
  /\ truncate (fromInt64 300) = Some 300%Z
  /\ decodeInt AsIntStrict AsIntStrict AsFloatStrict minInt64 64
               (Float (fromInt64 300)) KInt8 false
     = Stored 44.
Proof. repeat split. Qed.

(** * The struct decoder *)

Import Decoder.

Local Open Scope string_scope.

(** ** The loop over the fields *)

Section FieldLoop.

Variable L : Library.
Variable tagName : string.
Variable decodeField : Value -> Dst -> Access -> run Dst.

Lemma decodeFields_app (m : list (string * Value)) (a : Access)
      (fs1 fs2 : list (StructField * Dst)) :
  decodeFields L tagName decodeField m a (fs1 ++ fs2)%list
  = match decodeFields L tagName decodeField m a fs1 with
    | Returned fs1' None =>
        match decodeFields L tagName decodeField m a fs2 with
        | Returned fs2' err => Returned (fs1' ++ fs2')%list err
        | Panicked => Panicked
        end
    | Returned fs1' (Some e) => Returned (fs1' ++ fs2)%list (Some e)
    | Panicked => Panicked
    end.
Proof.
  induction fs1 as [|[f d] fs1 IH]; cbn [decodeFields app].
  - destruct (decodeFields L tagName decodeField m a fs2) as [? ?|];
      reflexivity.
  - destruct (lookup (fieldKey L tagName f) m) as [v|].
    + destruct (decodeField v d (fieldAccess a f)) as [d' [e|]|];
        try reflexivity.
      rewrite IH.
      destruct (decodeFields L tagName decodeField m a fs1)
        as [fs1' [e1|]|]; try reflexivity.
      destruct (decodeFields L tagName decodeField m a fs2)
        as [fs2' e2|]; reflexivity.
    + rewrite IH.
      destruct (decodeFields L tagName decodeField m a fs1)
        as [fs1' [e1|]|]; try reflexivity.
      destruct (decodeFields L tagName decodeField m a fs2)
        as [fs2' e2|]; reflexivity.
Qed.

Lemma decodeFields_missing (m : list (string * Value)) (a : Access)
      (fs : list (StructField * Dst)) :
  Forall (fun fd => lookup (fieldKey L tagName (fst fd)) m = None) fs ->
  decodeFields L tagName decodeField m a fs = Returned fs None.
Proof.
  induction 1 as [|[f d] fs Hf _ IH]; cbn [decodeFields]; [reflexivity|].
  cbn [fst] in Hf. now rewrite Hf, IH.
Qed.

Lemma decodeFields_same_keys (m m' : list (string * Value)) (a : Access)
      (fs : list (StructField * Dst)) :
  Forall (fun fd => lookup (fieldKey L tagName (fst fd)) m
                    = lookup (fieldKey L tagName (fst fd)) m') fs ->
  decodeFields L tagName decodeField m a fs
  = decodeFields L tagName decodeField m' a fs.
Proof.
  induction 1 as [|[f d] fs Hf _ IH]; cbn [decodeFields]; [reflexivity|].
  cbn [fst] in Hf. now rewrite Hf, IH.
Qed.

(** A field that does not decode ends the loop with something else than
    a plain return, whatever comes before and after it. *)
Lemma decodeFields_blocked (m : list (string * Value)) (a : Access)
      (f : StructField) (d : Dst) (v : Value)
      (fs1 fs2 : list (StructField * Dst)) :
  lookup (fieldKey L tagName f) m = Some v ->
  (forall d', decodeField v d (fieldAccess a f) <> Returned d' None) ->
  forall fs',
    decodeFields L tagName decodeField m a (fs1 ++ (f, d) :: fs2)%list
    <> Returned fs' None.
Proof.
  intros Hv Hno fs'. rewrite decodeFields_app.
  destruct (decodeFields L tagName decodeField m a fs1) as [fs1' [e1|]|];
    try discriminate.
  cbn [decodeFields]. rewrite Hv.
  destruct (decodeField v d (fieldAccess a f)) as [d' [e|]|] eqn:Hd;
    try discriminate.
  now destruct (Hno d').
Qed.

End FieldLoop.

Lemma decodeFields_ext (L L' : Library) (tagName : string)
      (g g' : Value -> Dst -> Access -> run Dst)
      (m : list (string * Value)) (a : Access)
      (fs : list (StructField * Dst)) :
  (forall f, fieldKey L tagName f = fieldKey L' tagName f) ->
  Forall (fun fd => forall v a', g v (snd fd) a' = g' v (snd fd) a') fs ->
  decodeFields L tagName g m a fs = decodeFields L' tagName g' m a fs.
Proof.
  intros Hkey. induction 1 as [|[f d] fs Hf _ IH]; cbn [decodeFields];
    [reflexivity|].
  cbn [snd] in Hf. rewrite Hkey.
  destruct (lookup (fieldKey L' tagName f) m) as [v|];
    [rewrite Hf|]; now rewrite IH.
Qed.

(** [decodeStruct] on a struct whose source is a map is the loop. *)
Lemma decodeStruct_fields (L : Library) (tagName : string) (src : Value)
      (a : Access) (m : list (string * Value))
      (fs : list (StructField * Dst)) :
  AsMap L src = (m, None) ->
  decodeStruct L tagName src (DStruct fs) a
  = match decodeFields L tagName
                       (fun v d a' => decode L tagName v d a' false) m a fs with
    | Returned fs' err => Returned (DStruct fs') err
    | Panicked => Panicked
    end.
Proof. intros Hm. unfold decodeStruct, decodeStructWith. now rewrite Hm. Qed.

Lemma decodeStruct_blocked (L : Library) (tagName : string) (src v : Value)
      (a : Access) (m : list (string * Value)) (f : StructField) (d : Dst)
      (fs1 fs2 : list (StructField * Dst)) :
  AsMap L src = (m, None) ->
  lookup (fieldKey L tagName f) m = Some v ->
  (forall d', decode L tagName v d (fieldAccess a f) false <> Returned d' None) ->
  forall s',
    decodeStruct L tagName src (DStruct (fs1 ++ (f, d) :: fs2)%list) a
    <> Returned s' None.
Proof.
  intros Hm Hv Hno s'. rewrite (decodeStruct_fields L tagName src a m _ Hm).
  destruct (decodeFields L tagName _ m a (fs1 ++ (f, d) :: fs2)%list)
    as [fs' [e|]|] eqn:Hfs; try discriminate.
  exfalso.
  apply (decodeFields_blocked L tagName _ m a f d v fs1 fs2 Hv Hno fs' Hfs).
Qed.

(** X15.  decodeStruct takes the fields in their order and stops at the
    first error.  Decoding the fields [fs1 ++ fs2] is decoding [fs1] and
    then, if that returned no error, [fs2]: an error in [fs1] leaves every
    field of [fs2] as it was and keeps what was already stored in [fs1]
    (nothing is rolled back), and a panic in either part is a panic of the
    whole. *)
Theorem decodeStruct_stops_at_first_error :
  forall (L : Library) (tagName : string) (src : Value) (a : Access)
         (m : list (string * Value)) (fs1 fs2 : list (StructField * Dst)),
    AsMap L src = (m, None) ->
    let fields :=
      decodeFields L tagName (fun v d a' => decode L tagName v d a' false)
                   m a in
    decodeStruct L tagName src (DStruct (fs1 ++ fs2)%list) a
    = match fields fs1 with
      | Returned fs1' None =>
          match fields fs2 with
          | Returned fs2' err => Returned (DStruct (fs1' ++ fs2')%list) err
          | Panicked => Panicked
          end
      | Returned fs1' (Some e) =>
          Returned (DStruct (fs1' ++ fs2)%list) (Some e)
      | Panicked => Panicked
      end.
Proof.
  intros L tagName src a m fs1 fs2 Hm fields.
  rewrite (decodeStruct_fields L tagName src a m _ Hm).
  rewrite decodeFields_app. fold fields.
  destruct (fields fs1) as [fs1' [e1|]|]; try reflexivity.
  destruct (fields fs2) as [fs2' e2|]; reflexivity.
Qed.

Lemma decodeStruct_stops_at_first_error_witness :
  decodeStruct exampleLibrary "bql"
    (Map [("b", Bool true); ("i", String "ten"); ("s", String "str")])
    (DStruct ([(exampleField "B" "b", DBool false);
               (exampleField "I" "i", DInt KInt 0)]
              ++ [(exampleField "S" "s", DString "old")])%list)
    ReadWrite
  = Returned (DStruct [(exampleField "B" "b", DBool true);
                       (exampleField "I" "i", DInt KInt 0);
                       (exampleField "S" "s", DString "old")])
             (Some castError).
Proof.
  exact (decodeStruct_stops_at_first_error exampleLibrary "bql"
           (Map [("b", Bool true); ("i", String "ten"); ("s", String "str")])
           ReadWrite
           [("b", Bool true); ("i", String "ten"); ("s", String "str")]
           [(exampleField "B" "b", DBool false);
            (exampleField "I" "i", DInt KInt 0)]
           [(exampleField "S" "s", DString "old")]
           eq_refl).
Defined.

(** X16.  A key that is missing from the map is not an error and leaves
    its field as it is, whatever the tag of the field says: a struct none
    of whose keys is in the map (for one, every struct with the empty
    map) is decoded without error and without change, exported or not. *)
Theorem missing_keys_are_skipped :
  forall (L : Library) (tagName : string) (src : Value) (a : Access)
         (m : list (string * Value)) (fs : list (StructField * Dst)),
    AsMap L src = (m, None) ->
    Forall (fun fd => lookup (fieldKey L tagName (fst fd)) m = None) fs ->
    decodeStruct L tagName src (DStruct fs) a = Returned (DStruct fs) None.
Proof.
  intros L tagName src a m fs Hm Hfs.
  rewrite (decodeStruct_fields L tagName src a m _ Hm).
  now rewrite decodeFields_missing.
Qed.

Lemma missing_keys_are_skipped_witness :
  decodeStruct exampleLibrary "bql" (Map [])
    (DStruct [(exampleField "I" "i,required", DInt KInt 7);
              (mkField "p" [] false false, DOther KPtr)])
    ReadWrite
  = Returned
      (DStruct [(exampleField "I" "i,required", DInt KInt 7);
                (mkField "p" [] false false, DOther KPtr)])
      None.
Proof.
  apply (missing_keys_are_skipped exampleLibrary "bql" (Map []) ReadWrite []);
    [reflexivity|].
  repeat constructor.
Defined.

(** X17.  The keys of the map that name no field are never looked at:
    two maps that have the same values under the keys of the fields are
    decoded alike, so a key that is not defined in the struct neither
    fails the decoding nor changes its result. *)
Theorem unused_keys_are_ignored :
  forall (L : Library) (tagName : string) (src src' : Value) (a : Access)
         (m m' : list (string * Value)) (fs : list (StructField * Dst)),
    AsMap L src = (m, None) -> AsMap L src' = (m', None) ->
    Forall (fun fd => lookup (fieldKey L tagName (fst fd)) m
                      = lookup (fieldKey L tagName (fst fd)) m') fs ->
    decodeStruct L tagName src (DStruct fs) a
    = decodeStruct L tagName src' (DStruct fs) a.
Proof.
  intros L tagName src src' a m m' fs Hm Hm' Hfs.
  rewrite (decodeStruct_fields L tagName src a m _ Hm).
  rewrite (decodeStruct_fields L tagName src' a m' _ Hm').
  now rewrite (decodeFields_same_keys L tagName _ m m' a fs Hfs).
Qed.

Lemma unused_keys_are_ignored_witness :
  decodeStruct exampleLibrary "bql"
    (Map [("unknown", Array [Int 1]); ("b", Bool true)])
    (DStruct [(exampleField "B" "b", DBool false)]) ReadWrite
  = decodeStruct exampleLibrary "bql" (Map [("b", Bool true)])
      (DStruct [(exampleField "B" "b", DBool false)]) ReadWrite.
Proof.
  apply (unused_keys_are_ignored exampleLibrary "bql"
           (Map [("unknown", Array [Int 1]); ("b", Bool true)])
           (Map [("b", Bool true)]) ReadWrite
           [("unknown", Array [Int 1]); ("b", Bool true)]
           [("b", Bool true)]);
    [reflexivity|reflexivity|].
  repeat constructor.
Defined.

(** ** Destinations that are never decoded *)

Lemma decode_unsupported (L : Library) (tagName : string) (src : Value)
      (d : Dst) (a : Access) (weaklyTyped : bool) :
  unsupported d = true ->
  exists e, decode L tagName src d a weaklyTyped = Returned d (Some e).
Proof.
  intros Hd. destruct d; try discriminate Hd; cbn [decode].
  - destruct isEmpty; cbn [negb]; eexists; reflexivity.
  - eexists; reflexivity.
  - unfold decodeSlice. destruct (isTypeArray (Type_ src)); eexists; reflexivity.
  - eexists; reflexivity.
Qed.

(** X18.  A field that is an interface, a map, a slice, or of a kind the
    decoder has no case for (a pointer, an array, ...) is never decoded:
    decode answers with an error and leaves such a destination as it is,
    whatever the source, and decodeStruct does not return without error
    when the map has a value under the key of such a field, whatever the
    value is and whatever the other fields are. *)
Theorem unsupported_field_never_decoded :
  forall (L : Library) (tagName : string) (src v : Value) (a : Access)
         (m : list (string * Value)) (f : StructField) (d : Dst)
         (fs1 fs2 : list (StructField * Dst)),
    unsupported d = true ->
    (forall weaklyTyped,
        exists e, decode L tagName v d a weaklyTyped = Returned d (Some e))
    /\ (AsMap L src = (m, None) ->
        lookup (fieldKey L tagName f) m = Some v ->
        forall s',
          decodeStruct L tagName src (DStruct (fs1 ++ (f, d) :: fs2)%list) a
          <> Returned s' None).
Proof.
  intros L tagName src v a m f d fs1 fs2 Hd. split.
  - intros w. now apply decode_unsupported.
  - intros Hm Hv.
    apply (decodeStruct_blocked L tagName src v a m f d fs1 fs2 Hm Hv).
    intros d'.
    destruct (decode_unsupported L tagName v d (fieldAccess a f) false Hd)
      as [e He].
    rewrite He. discriminate.
Qed.

Lemma unsupported_field_never_decoded_witness :
  (exists e,
      decode exampleLibrary "bql" (Map [("key1", Float (fromInt64 10))])
             DMap ReadWrite false
      = Returned DMap (Some e))
  /\ decodeStruct exampleLibrary "bql"
       (Map [("b", Bool true);
             ("float_map", Map [("key1", Float (fromInt64 10))])])
       (DStruct ([(exampleField "B" "b", DBool false)]
                 ++ (exampleField "FloatMap" "float_map", DMap) :: [])%list)
       ReadWrite
     <> Returned
          (DStruct [(exampleField "B" "b", DBool true);
                    (exampleField "FloatMap" "float_map", DMap)])
          None.
Proof.
  pose proof (unsupported_field_never_decoded exampleLibrary "bql"
                (Map [("b", Bool true);
                      ("float_map", Map [("key1", Float (fromInt64 10))])])
                (Map [("key1", Float (fromInt64 10))]) ReadWrite
                [("b", Bool true);
                 ("float_map", Map [("key1", Float (fromInt64 10))])]
                (exampleField "FloatMap" "float_map") DMap
                [(exampleField "B" "b", DBool false)] []
                eq_refl) as [H1 H2].
  split; [apply (H1 false) | apply (H2 eq_refl eq_refl)].
Defined.

(** ** Weak typing *)

Lemma decode_strict_only (L : Library) toBool toInt toFloat toString
      (tagName : string) :
  forall (d : Dst) (src : Value) (a : Access),
    decode (withWeakCasts L toBool toInt toFloat toString) tagName
           src d a false
    = decode L tagName src d a false.
Proof.
  intros d. induction d as [d Hd | fs IH] using Dst_nested_ind;
    intros src a.
  - destruct d; try discriminate Hd; reflexivity.
  - cbn [decode]. unfold decodeStructWith.
    change (AsMap (withWeakCasts L toBool toInt toFloat toString) src)
      with (AsMap L src).
    destruct (AsMap L src) as [m [e|]]; [reflexivity|].
    rewrite (decodeFields_ext
               (withWeakCasts L toBool toInt toFloat toString) L tagName
               (fun v d a' =>
                  decode (withWeakCasts L toBool toInt toFloat toString)
                         tagName v d a' false)
               (fun v d a' => decode L tagName v d a' false)
               m a fs (fun f => eq_refl) IH).
    reflexivity.
Qed.

(** X19.  The weakly typed casts (ToBool, ToInt, ToFloat, ToString) are
    never used when a struct is decoded: decodeStruct hands [false] to
    decode for every field, at every depth, so the result of Decode is
    the same whatever those casts do.  A field is decoded with the strict
    cast of its kind, whatever its tag says. *)
Theorem weak_casts_never_used :
  forall (L : Library) toBool toInt toFloat toString (tagName : string)
         (src : Value) (dst : Dst) (a : Access)
         (m : list (string * Value)) (v : Target),
    decodeStruct (withWeakCasts L toBool toInt toFloat toString) tagName
                 src dst a
    = decodeStruct L tagName src dst a
    /\ Decode (withWeakCasts L toBool toInt toFloat toString) m v
       = Decode L m v.
Proof.
  intros L toBool toInt toFloat toString tagName src dst a m v.
  assert (H : forall tagName src dst a,
             decodeStruct (withWeakCasts L toBool toInt toFloat toString)
                          tagName src dst a
             = decodeStruct L tagName src dst a).
  { clear. intros tagName src dst a. destruct dst;
      try (unfold decodeStruct, decodeStructWith;
           change (AsMap (withWeakCasts L toBool toInt toFloat toString) src)
             with (AsMap L src);
           destruct (AsMap L src) as [m [e|]]; reflexivity).
    apply (decode_strict_only L toBool toInt toFloat toString tagName
             (DStruct fields) src a). }
  split; [apply H|].
  unfold Decode, DecoderDecode. destruct v as [| |s]; try reflexivity.
  destruct (negb (isStruct s)); [reflexivity|]. now rewrite H.
Qed.

(** ** Fields that make the decoder panic *)

(** X20.  A field of an unsigned integer kind is never decoded: decode
    hands it to decodeInt, which sets it with SetInt.  Whenever the value
    is accepted as an integer the call panics, and in a struct the panic
    comes as soon as the fields before it have been decoded without
    error. *)
Theorem unsigned_field_panics :
  forall (L : Library) (tagName : string) (src v : Value) (i : Z)
         (k : Kind) (z : Z) (a : Access)
         (m : list (string * Value)) (f : StructField)
         (fs1 fs1' fs2 : list (StructField * Dst)),
    isSigned k = false ->
    AsInt L v = (i, None) ->
    decode L tagName v (DInt k z) a false = Panicked
    /\ (AsMap L src = (m, None) ->
        decodeFields L tagName (fun v d a' => decode L tagName v d a' false)
                     m a fs1
        = Returned fs1' None ->
        lookup (fieldKey L tagName f) m = Some v ->
        decodeStruct L tagName src
                     (DStruct (fs1 ++ (f, DInt k z) :: fs2)%list) a
        = Panicked).
Proof.
  intros L tagName src v i k z a m f fs1 fs1' fs2 Hk Hi.
  assert (Hp : forall a', decode L tagName v (DInt k z) a' false = Panicked).
  { intros a'. cbn [decode]. unfold decodeIntField, decodeInt. rewrite Hi.
    destruct k; try discriminate Hk; reflexivity. }
  split; [apply Hp|].
  intros Hm H1 Hv.
  rewrite (decodeStruct_fields L tagName src a m _ Hm).
  rewrite decodeFields_app, H1. cbn [decodeFields]. now rewrite Hv, Hp.
Qed.

Lemma unsigned_field_panics_witness :
  decodeStruct exampleLibrary "bql" (Map [("b", Bool true); ("n", Int 1)])
    (DStruct ([(exampleField "B" "b", DBool false)]
              ++ (exampleField "N" "n", DInt KUint8 0) :: [])%list)
    ReadWrite
  = Panicked.
Proof.
  apply (proj2 (unsigned_field_panics exampleLibrary "bql"
                  (Map [("b", Bool true); ("n", Int 1)]) (Int 1) 1
                  KUint8 0 ReadWrite [("b", Bool true); ("n", Int 1)]
                  (exampleField "N" "n")
                  [(exampleField "B" "b", DBool false)]
                  [(exampleField "B" "b", DBool true)] []
                  eq_refl eq_refl));
    reflexivity.
Defined.

Lemma decode_cannot_set (L : Library) (tagName : string) (v : Value)
      (d : Dst) (a : Access) (weaklyTyped : bool) :
  isStruct d = false -> canSet a = false ->
  forall d', decode L tagName v d a weaklyTyped <> Returned d' None.
Proof.
  intros Hd Ha d'. destruct d; try discriminate Hd; cbn [decode].
  - unfold decodeBool, SetBool. rewrite Ha.
    destruct (if weaklyTyped then ToBool L v else AsBool L v) as [x [e|]];
      discriminate.
  - unfold decodeIntField. rewrite Ha.
    destruct (decodeInt (AsInt L) (ToInt L) (AsFloat L) (overflow L)
                        (intSize L) v k weaklyTyped); discriminate.
  - unfold decodeFloat, SetFloat. rewrite Ha.
    destruct (if weaklyTyped then ToFloat L v else AsFloat L v) as [x [e|]];
      discriminate.
  - unfold decodeFloat, SetFloat. rewrite Ha.
    destruct (if weaklyTyped then ToFloat L v else AsFloat L v) as [x [e|]];
      discriminate.
  - unfold decodeString, SetString. rewrite Ha.
    destruct (if weaklyTyped then ToString L v else AsString L v)
      as [x [e|]]; discriminate.
  - unfold decodeInterface. destruct isEmpty; discriminate.
  - unfold decodeMap. discriminate.
  - unfold decodeSlice. destruct (isTypeArray (Type_ v)); discriminate.
  - discriminate.
Qed.

(** X21.  A field that is not exported cannot be set through reflect, and
    decodeStruct does not skip it: when the map has a value under the key
    of an unexported field that is not a struct, the decoding never
    returns without error (it returns the error of the cast, or panics in
    the setter), whatever the value is. *)
Theorem unexported_field_never_decoded :
  forall (L : Library) (tagName : string) (src v : Value) (a : Access)
         (m : list (string * Value)) (f : StructField) (d : Dst)
         (fs1 fs2 : list (StructField * Dst)),
    Exported f = false ->
    isStruct d = false ->
    AsMap L src = (m, None) ->
    lookup (fieldKey L tagName f) m = Some v ->
    forall s',
      decodeStruct L tagName src (DStruct (fs1 ++ (f, d) :: fs2)%list) a
      <> Returned s' None.
Proof.
  intros L tagName src v a m f d fs1 fs2 Hf Hd Hm Hv.
  apply (decodeStruct_blocked L tagName src v a m f d fs1 fs2 Hm Hv).
  apply decode_cannot_set; [exact Hd|].
  unfold fieldAccess. rewrite Hf.
  destruct a, (Embedded f); reflexivity.
Qed.

Lemma unexported_field_never_decoded_witness :
  decodeStruct exampleLibrary "bql" (Map [("b", Bool true)])
    (DStruct ([] ++ (mkField "b" [] false false, DBool false) :: [])%list)
    ReadWrite
  <> Returned (DStruct [(mkField "b" [] false false, DBool true)]) None.
Proof.
  apply (unexported_field_never_decoded exampleLibrary "bql"
           (Map [("b", Bool true)]) (Bool true) ReadWrite [("b", Bool true)]
           (mkField "b" [] false false) (DBool false) [] []);
    reflexivity.
Defined.

(** ** Tags and keys *)

Lemma firstOfSplit_noComma (name : string) :
  noComma name = true -> firstOfSplit name = name.
Proof.
  induction name as [|c name IH]; [reflexivity|].
  cbn [noComma firstOfSplit]. intros H.
  apply andb_prop in H as [Hc Hn].
  destruct (Ascii.eqb c ","); [discriminate|]. now rewrite IH.
Qed.

Lemma firstOfSplit_options (name opts : string) :
  noComma name = true ->
  firstOfSplit (name ++ String.String "," opts) = name.
Proof.
  induction name as [|c name IH]; [reflexivity|].
  cbn [noComma firstOfSplit String.append]. intros H.
  apply andb_prop in H as [Hc Hn].
  destruct (Ascii.eqb c ","); [discriminate|]. now rewrite IH.
Qed.

(** X22.  Of a tag only the text in front of the first comma is read:
    the options after it ([required], [weaklytyped], ...) do not change
    the key under which the field is looked up, and the decoder reads
    nothing else of the tag.  With nothing in front of the comma the key
    is the snake-case form of the field name, as with no tag at all. *)
Theorem tag_options_not_read :
  forall (L : Library) (tagName : string) (n name opts : string)
         (others : list (string * string)) (e b : bool),
    noComma name = true ->
    fieldKey L tagName
             (mkField n ((tagName, name ++ String.String "," opts) :: others)
                      e b)
    = fieldKey L tagName (mkField n ((tagName, name) :: others) e b)
    /\ fieldKey L tagName
                (mkField n ((tagName, String.String "," opts) :: others) e b)
       = fieldKey L tagName (mkField n [] e b).
Proof.
  intros L tagName n name opts others e b Hname.
  unfold fieldKey. cbn [Tag Get Name]. rewrite String.eqb_refl.
  rewrite firstOfSplit_options by assumption.
  rewrite firstOfSplit_noComma by assumption.
  split; reflexivity.
Qed.

Lemma tag_options_not_read_witness :
  fieldKey exampleLibrary "bql"
           (mkField "I" [("bql", "i" ++ String.String "," "required")]
                    true false)
  = fieldKey exampleLibrary "bql" (mkField "I" [("bql", "i")] true false).
Proof.
  apply (proj1 (tag_options_not_read exampleLibrary "bql" "I" "i" "required"
                  [] true false eq_refl)).
Defined.

Lemma append_empty_r (s : string) : s ++ EmptyString = s.
Proof. induction s as [|c s IH]; cbn [String.append]; congruence. Qed.

Lemma append_assoc (s t u : string) : (s ++ t) ++ u = s ++ t ++ u.
Proof. induction s as [|c s IH]; cbn [String.append]; congruence. Qed.

(** What is in the buffer stays in front of what the loop writes. *)
Lemma writeWords_buf (L : Library) (words : list string) :
  forall (first : bool) (buf : string),
    writeWords L first words buf
    = buf ++ writeWords L first words EmptyString.
Proof.
  induction words as [|w words IH]; intros first buf; cbn [writeWords].
  - now rewrite append_empty_r.
  - rewrite IH. rewrite (IH false (_ ++ ToLower L w)).
    destruct first; cbn [String.append]; now rewrite !append_assoc.
Qed.

Lemma writeWords_more (L : Library) (words : list string) :
  writeWords L false words EmptyString
  = match words with
    | [] => EmptyString
    | _ => "_" ++ String.concat "_" (map (ToLower L) words)
    end.
Proof.
  induction words as [|w words IH]; [reflexivity|].
  cbn [writeWords]. rewrite writeWords_buf, IH.
  destruct words as [|w' words].
  - cbn [map String.concat]. now rewrite append_empty_r.
  - cbn [map]. cbn [String.concat String.append]. reflexivity.
Qed.

(** X23.  toSnakeCase writes the words that camelcase.Split gives, each
    in lower case, with one underscore between two words and none before
    the first or after the last: the result is the lower-case words
    joined by underscores (and the empty text for no word). *)
Theorem toSnakeCase_joins_words :
  forall (L : Library) (name : string),
    toSnakeCase L name
    = String.concat "_" (map (ToLower L) (camelcaseSplit L name)).
Proof.
  intros L name. unfold toSnakeCase.
  destruct (camelcaseSplit L name) as [|w words]; [reflexivity|].
  cbn [writeWords]. rewrite writeWords_buf, writeWords_more.
  destruct words as [|w' words].
  - cbn [map String.concat String.append]. now rewrite append_empty_r.
  - cbn [map String.concat String.append]. reflexivity.
Qed.

(** ** Integers that do not fit the field *)

Section Overflow.

Local Open Scope Z_scope.

Lemma wrap_fits (w x : Z) :
  0 < w -> (wrap w x = x <-> - 2 ^ (w - 1) <= x < 2 ^ (w - 1)).
Proof.
  intros Hw. unfold wrap.
  assert (Hpow : 2 ^ w = 2 * 2 ^ (w - 1)).
  { replace w with (Z.succ (w - 1)) at 1 by lia.
    apply Z.pow_succ_r. lia. }
  assert (Hpos : 0 < 2 ^ (w - 1)) by (apply Z.pow_pos_nonneg; lia).
  rewrite Hpow. split.
  - intros H.
    pose proof (Z.mod_pos_bound (x + 2 ^ (w - 1)) (2 * 2 ^ (w - 1))
                  ltac:(lia)) as Hb.
    lia.
  - intros H. rewrite Z.mod_small by lia. lia.
Qed.

(** X24.  decode does not detect overflow.  An integer value is stored
    in a signed field reduced to the width of the field, without error:
    the field holds the value itself exactly when the value fits the
    field, and another number otherwise. *)
Theorem integer_stored_modulo_width :
  forall (L : Library) (tagName : string) (v : Value) (i : Z)
         (k : Kind) (z : Z),
    AsInt L v = (i, None) ->
    isSigned k = true ->
    0 < intSize L ->
    let w := width (intSize L) k in
    decode L tagName v (DInt k z) ReadWrite false
    = Returned (DInt k (wrap w i)) None
    /\ (wrap w i = i <-> - 2 ^ (w - 1) <= i < 2 ^ (w - 1)).
Proof.
  intros L tagName v i k z Hi Hk Hsize w. split.
  - cbn [decode]. unfold decodeIntField, decodeInt. rewrite Hi.
    subst w. destruct k; try discriminate Hk; reflexivity.
  - apply wrap_fits. subst w. destruct k; cbn [width]; lia.
Qed.

Lemma integer_stored_modulo_width_witness :
  decode exampleLibrary "bql" (Int 300) (DInt KInt8 0) ReadWrite false
  = Returned (DInt KInt8 44) None.
Proof.
  apply (proj1 (integer_stored_modulo_width exampleLibrary "bql" (Int 300) 300
                  KInt8 0 eq_refl eq_refl eq_refl)).
Defined.

End Overflow.
